(** * Student-Data-Analysis: the statistics and chart pipeline of
      [analyze_student_performance.py]

    The script computes box-plot statistics, a Pearson correlation matrix and
    per-gender averages over a list of student rows and draws three SVG
    charts.  This development embeds those functions and proves the
    properties its specification states about them.

    Numbers.  The script computes with binary64 floats.  Its arithmetic is
    read in three ways, each for what it can carry.

    - Exact.  [quantile], [box_stats], the grouped [averages] and the chart
      geometry read a float as a real number ([R]) and an operation as the
      exact one, [math.floor] and [math.ceil] as [Zfloor] and [Zceil].  The
      theorems stated in this reading are about what rounding leaves alone:
      which element is picked, the order of two results, bounds between
      values of the data, what is raised.  Rounding to nearest is monotone
      and keeps a float as it is, so these carry over to the floats -- as
      long as nothing overflows.  The exact reading has no overflow; a
      theorem that overflow would break therefore takes data of [moderate]
      magnitude as a hypothesis, although its proof over [R] has no use for
      it.
    - Rounded ([Rounded]).  [mean] and [pearson], whose results do depend on
      rounding, apply a rounding [rnd] after every float operation and raise
      [OverflowError] where the source does.  Theorems hold for every [rnd]
      of relative error at most 2^-53; binary64 is such a rounding on data
      that is [moderate] and [well_scaled], which they take as hypotheses.
    - Binary64 ([Binary64]).  The same functions on machine floats, to run
      them on a given input: the inputs on which a sentence of the
      specification fails are evaluated there.

    Errors.  A Python exception is a value [Raise e] of [result]; the
    functions below raise exactly where the source does. *)

From Stdlib Require Import String Reals Zfloor Lra Lia ZArith List.
From Stdlib Require Import Sorting.Sorted Sorting.Permutation DecimalString.
From Stdlib Require PrimFloat FloatOps SpecFloat.
Import ListNotations.

Open Scope R_scope.

(** ** Exceptions *)

Inductive exn : Set :=
| IndexError        (* list index out of range *)
| KeyError          (* dict key not present *)
| ValueError        (* float() of a string that is no number *)
| StatisticsError   (* statistics.mean of no data *)
| ZeroDivisionError (* float division by zero *)
| OverflowError     (* a float power too large, math.floor of an infinity *).

Inductive result (A : Type) : Type :=
| Ok (a : A)
| Raise (e : exn).

Arguments Ok {A} a.
Arguments Raise {A} e.

Definition bind {A B : Type} (m : result A) (k : A -> result B) : result B :=
  match m with
  | Ok a => k a
  | Raise e => Raise e
  end.

Notation "x <- m ;; k" := (bind m (fun x => k))
  (at level 61, m at next level, right associativity).

(** A comprehension whose element expression may raise: the elements are
    evaluated from left to right and the first exception ends it. *)
Fixpoint mapM {A B : Type} (f : A -> result B) (l : list A) : result (list B) :=
  match l with
  | [] => Ok []
  | a :: l' => b <- f a ;; bs <- mapM f l' ;; Ok (b :: bs)
  end.

(** ** Python built-ins used by the script *)

(** [l[i]] for an integer [i]: a negative index counts from the end, and an
    index outside [-len, len) raises [IndexError]. *)
Definition getitem {A : Type} (l : list A) (i : Z) : result A :=
  let n := Z.of_nat (length l) in
  let j := if (i <? 0)%Z then (n + i)%Z else i in
  if ((0 <=? j)%Z && (j <? n)%Z)%bool
  then match nth_error l (Z.to_nat j) with
       | Some v => Ok v
       | None => Raise IndexError
       end
  else Raise IndexError.

(** [int(x)] on a float: truncation towards zero. *)
Definition int_of_float (x : R) : Z :=
  if Rle_lt_dec 0 x then Zfloor x else Zceil x.

(** [sum(xs)]: a left fold that starts from 0. *)
Definition py_sum (xs : list R) : R := fold_left Rplus xs 0.

(** [statistics.mean]: the arithmetic mean, [StatisticsError] on no data. *)
Definition mean (data : list R) : result R :=
  match data with
  | [] => Raise StatisticsError
  | _ :: _ => Ok (py_sum data / INR (length data))
  end.

(** [sorted(values)]: a new list with the same elements in ascending order.
    On real numbers the ascending rearrangement of a list is unique, so the
    insertion sort below returns the list Python's sort returns. *)
Fixpoint insert (x : R) (l : list R) : list R :=
  match l with
  | [] => [x]
  | y :: l' => if Rle_lt_dec x y then x :: y :: l' else y :: insert x l'
  end.

Definition sorted (values : list R) : list R := fold_right insert [] values.

(** ** Quantile engine (lines 31-37) *)

Definition quantile (sorted_values : list R) (q : R) : result R :=
  let index := IZR (Z.of_nat (length sorted_values) - 1) * q in
  let lower := Zfloor index in
  let upper := Zceil index in
  if (lower =? upper)%Z
  then getitem sorted_values (int_of_float index)
  else
    lo <- getitem sorted_values lower ;;
    hi <- getitem sorted_values upper ;;
    lo' <- getitem sorted_values lower ;;
    Ok (lo + (hi - lo') * (index - IZR lower)).

(** ** Box statistics (lines 40-48) *)

Record BoxStats : Type := mkBoxStats {
  st_min : R;
  st_q1 : R;
  st_median : R;
  st_q3 : R;
  st_max : R
}.

Definition box_stats (values : list R) : result BoxStats :=
  let sorted_values := sorted values in
  mn <- getitem sorted_values 0 ;;
  q1 <- quantile sorted_values (25 / 100) ;;
  md <- quantile sorted_values (5 / 10) ;;
  q3 <- quantile sorted_values (75 / 100) ;;
  mx <- getitem sorted_values (-1) ;;
  Ok (mkBoxStats mn q1 md q3 mx).

(** ** Rows (lines 12-28)

    [load_data] builds every row as a dict with the same seven keys, the two
    string fields read as they are and the five numeric ones through
    [float]; a row is a record of those fields, and [r[key]] a lookup by
    the key's name. *)

Record row : Type := mkRow {
  Student_ID : string;
  Gender : string;
  Attendance : R;
  Math : R;
  Science : R;
  English : R;
  History : R
}.

Definition SUBJECT_COLUMNS : list string :=
  ["Math"; "Science"; "English"; "History"]%string.

(** [float(r[key])]. *)
Definition float_field (r : row) (key : string) : result R :=
  if (key =? "Attendance")%string then Ok (Attendance r)
  else if (key =? "Math")%string then Ok (Math r)
  else if (key =? "Science")%string then Ok (Science r)
  else if (key =? "English")%string then Ok (English r)
  else if (key =? "History")%string then Ok (History r)
  else if (key =? "Student_ID")%string then Raise ValueError
  else if (key =? "Gender")%string then Raise ValueError
  else Raise KeyError.

(** [[float(r[key]) for r in rows]]. *)
Definition column (key : string) (rows : list row) : result (list R) :=
  mapM (fun r => float_field r key) rows.

(** ** Nested dicts (lines 138-142, 171-178)

    The heat map and the bar chart each build a dict of dicts keyed by field
    names and gender labels.  A dict is kept as an association list in
    insertion order; the keys are distinct. *)

(** The five fields of the heat map. *)
Definition fields : list string := ("Attendance" :: SUBJECT_COLUMNS)%string.

Fixpoint lookup {V : Type} (k : string) (d : list (string * V)) : result V :=
  match d with
  | [] => Raise KeyError
  | (k', v) :: d' => if (k' =? k)%string then Ok v else lookup k d'
  end.

(** [d[row_name][col_name]]. *)
Definition matrix_get (m : list (string * list (string * R)))
    (row_name col_name : string) : result R :=
  inner <- lookup row_name m ;; lookup col_name inner.

(** ** Grouped averages of the bar chart (lines 171-178) *)

Definition genders : list string := ["Female"; "Male"]%string.

(** [[float(r[subject]) for r in rows if r["Gender"] == gender]]. *)
Definition group_values (rows : list row) (gender subject : string) : result (list R) :=
  column subject (filter (fun r => (Gender r =? gender)%string) rows).

Definition averages (rows : list row) : result (list (string * list (string * R))) :=
  mapM (fun gender =>
          inner <- mapM (fun subject =>
                           vs <- group_values rows gender subject ;;
                           m <- mean vs ;;
                           Ok (subject, m)) SUBJECT_COLUMNS ;;
          Ok (gender, inner)) genders.

(** ** Rounded arithmetic: [mean] and [pearson] as the script runs them

    A float operation returns the exact result rounded to the format.  The
    functions of this module take the rounding as a parameter [rnd] and
    apply it after every operation the source performs on floats, in the
    order of the source.  The theorems assume of [rnd] what holds of binary64
    rounding to nearest as long as no result leaves the normal range: a
    relative error of at most [u] = 2^-53 ([standard_model]).

    The one float operation of the script that raises is the power
    [** 2]: Python raises [OverflowError] when its rounded result exceeds
    the largest finite float.  Sums, products and quotients do not raise;
    their overflow to an infinity is outside this model, and so is
    underflow. *)

Module Rounded.

(** The unit roundoff of binary64. *)
Definition u : R := / 2 ^ 53.

(** The largest finite binary64 number. *)
Definition max_float : R := (2 ^ 53 - 1) * 2 ^ 971.

Definition standard_model (rnd : R -> R) : Prop :=
  forall x, Rabs (rnd x - x) <= u * Rabs x.

(** A number the format holds: rounding leaves it as it is. *)
Definition representable (rnd : R -> R) (v : R) : Prop := rnd v = v.

(** [statistics.mean]: the sum is exact, the quotient is rounded once;
    [StatisticsError] on no data. *)
Definition mean (rnd : R -> R) (data : list R) : result R :=
  match data with
  | [] => Raise StatisticsError
  | _ :: _ => Ok (rnd (py_sum data / INR (length data)))
  end.

(** [sum(xs)] on floats: a left fold from 0 that rounds every addition. *)
Definition sum (rnd : R -> R) (xs : list R) : R :=
  fold_left (fun acc v => rnd (acc + v)) xs 0.

(** [t ** 2]. *)
Definition pow2 (rnd : R -> R) (t : R) : result R :=
  let r := rnd (t ^ 2) in
  if Rlt_dec max_float r then Raise OverflowError else Ok r.

(** [a / b]. *)
Definition truediv (rnd : R -> R) (a b : R) : result R :=
  if Req_dec_T b 0 then Raise ZeroDivisionError else Ok (rnd (a / b)).

(** Lines 51-59.  The two sums of squares are summed from generators that
    may raise at any element. *)
Definition pearson (rnd : R -> R) (x y : list R) : result R :=
  mean_x <- mean rnd x ;;
  mean_y <- mean rnd y ;;
  let numerator :=
    sum rnd (map (fun ab => rnd (rnd (fst ab - mean_x) * rnd (snd ab - mean_y)))
                 (combine x y)) in
  squares_x <- mapM (fun a => pow2 rnd (rnd (a - mean_x))) x ;;
  let denominator_x := rnd (sqrt (sum rnd squares_x)) in
  squares_y <- mapM (fun b => pow2 rnd (rnd (b - mean_y))) y ;;
  let denominator_y := rnd (sqrt (sum rnd squares_y)) in
  if Req_dec_T denominator_x 0 then Ok 0
  else if Req_dec_T denominator_y 0 then Ok 0
  else truediv rnd numerator (rnd (denominator_x * denominator_y)).

(** Lines 138-142: the correlation matrix of the heat map.  The nested dict
    is an association list in insertion order; its keys are the five
    distinct field names. *)
Definition matrix (rnd : R -> R) (rows : list row)
  : result (list (string * list (string * R))) :=
  mapM (fun a =>
          inner <- mapM (fun b =>
                           xa <- column a rows ;;
                           xb <- column b rows ;;
                           v <- pearson rnd xa xb ;;
                           Ok (b, v)) fields ;;
          Ok (a, inner)) fields.

(** Lines 171-178: the grouped averages of the bar chart. *)
Definition averages (rnd : R -> R) (rows : list row)
  : result (list (string * list (string * R))) :=
  mapM (fun gender =>
          inner <- mapM (fun subject =>
                           vs <- group_values rows gender subject ;;
                           m <- mean rnd vs ;;
                           Ok (subject, m)) SUBJECT_COLUMNS ;;
          Ok (gender, inner)) genders.

End Rounded.

(** ** Drawing primitives and the SVG emitter (lines 62-73)

    Every string the composers append to [body] is one SVG element.  An
    element is kept as a value with the attributes the f-string fills in;
    the printing of a number as decimal text is not modelled. *)

Inductive primitive : Type :=
| Line (x1 y1 x2 y2 : R) (stroke : string) (stroke_width : option Z)
| Rect (x y width height : R) (fill stroke : string)
| Text (x y : R) (text_anchor : string) (font_size : Z) (content : string).

(** What [save_svg] writes: the file, the canvas size, and [body] between
    the fixed header with its white background and the closing tag. *)
Record svg_file : Type := mkSvg {
  svg_path : string;
  svg_width : Z;
  svg_height : Z;
  svg_body : list primitive
}.

Definition save_svg (path : string) (width height : Z) (body : list primitive) : svg_file :=
  mkSvg path width height body.

(** [range(start, stop, step)] for a positive step. *)
Definition range (start stop step : Z) : list Z :=
  map (fun k => (start + step * Z.of_nat k)%Z)
      (seq 0 (Z.to_nat ((stop - start + step - 1) / step))).

(** [enumerate(xs)]. *)
Definition enumerate {A : Type} (xs : list A) : list (Z * A) :=
  combine (map Z.of_nat (seq 0 (length xs))) xs.

(** [str(n)] for an integer. *)
Definition str (n : Z) : string := DecimalString.NilZero.string_of_int (Z.to_int n).

(** ** Box-plot composer (lines 76-134) *)

Module Boxplot.

Definition width : Z := 900.
Definition height : Z := 520.
Definition margin_left : Z := 90.
Definition margin_bottom : Z := 70.
Definition margin_top : Z := 60.
Definition plot_width : Z := width - 150.
Definition plot_height : Z := height - margin_bottom - margin_top.
Definition y_min : Z := 30.
Definition y_max : Z := 100.

Definition y_scale (v : R) : R :=
  IZR margin_top + (IZR y_max - v) / IZR (y_max - y_min) * IZR plot_height.

Definition header : list primitive :=
  [ Text 450 30 "middle" 22 "Score Distribution by Subject (Box Plot)";
    Line (IZR margin_left) (IZR margin_top)
         (IZR margin_left) (IZR (margin_top + plot_height)) "black" None;
    Line (IZR margin_left) (IZR (margin_top + plot_height))
         (IZR (margin_left + plot_width)) (IZR (margin_top + plot_height))
         "black" None ].

Definition tick_marks (tick : Z) : list primitive :=
  let y := y_scale (IZR tick) in
  [ Line (IZR (margin_left - 6)) y (IZR margin_left) y "black" None;
    Text (IZR (margin_left - 12)) (y + 4) "end" 12 (str tick) ].

Definition spacing : R := IZR plot_width / INR (length SUBJECT_COLUMNS).
Definition colors : list string := ["#6baed6"; "#9ecae1"; "#74c476"; "#fd8d3c"]%string.
Definition box_width : R := 80.

Definition x_center (idx : Z) : R :=
  IZR margin_left + spacing * IZR idx + spacing / 2.

(** The seven elements one iteration of the loop over the subjects
    appends, in the order of the appends. *)
Definition box_marks (x_center : R) (stats : BoxStats) (color subject : string)
  : list primitive :=
  let y_q1 := y_scale (st_q1 stats) in
  let y_q3 := y_scale (st_q3 stats) in
  let y_median := y_scale (st_median stats) in
  let y_min_v := y_scale (st_min stats) in
  let y_max_v := y_scale (st_max stats) in
  [ Line x_center y_max_v x_center y_q3 "black" None;
    Line x_center y_q1 x_center y_min_v "black" None;
    Rect (x_center - box_width / 2) y_q3 box_width (Rmax 1 (y_q1 - y_q3))
         color "black";
    Line (x_center - box_width / 2) y_median
         (x_center + box_width / 2) y_median "black" (Some 2%Z);
    Line (x_center - 20) y_max_v (x_center + 20) y_max_v "black" None;
    Line (x_center - 20) y_min_v (x_center + 20) y_min_v "black" None;
    Text x_center (IZR (margin_top + plot_height + 30)) "middle" 13 subject ].

(** One iteration of the loop over the subjects. *)
Definition subject_marks (rows : list row) (idx : Z) (subject : string)
  : result (list primitive) :=
  values <- column subject rows ;;
  stats <- box_stats values ;;
  color <- getitem colors idx ;;
  Ok (box_marks (x_center idx) stats color subject).

Definition plot_boxplots (rows : list row) : result svg_file :=
  let body := header ++ flat_map tick_marks (range 30 101 10) in
  marks <- mapM (fun p => subject_marks rows (fst p) (snd p))
                (enumerate SUBJECT_COLUMNS) ;;
  Ok (save_svg "outputs/boxplot_score_distribution.svg" width height
               (body ++ concat marks)).

End Boxplot.

(** ** Lists as objects: the store

    A Python list is an object that callers share by reference, and a
    function can change it in place.  To say what [box_stats] does to the list
    it is given, the functions are embedded a second time over a store of list
    objects: a value of type [addr] is a reference, [sorted] allocates a new
    object, [list.sort] would overwrite one. *)

Module Heap.

Definition addr : Set := nat.
Definition heap : Type := list (list R).

(** The object behind a reference. *)
Definition deref (h : heap) (a : addr) : list R := nth a h [].

Definition M (A : Type) : Type := heap -> result A * heap.

Definition ret {A : Type} (a : A) : M A := fun h => (Ok a, h).

Definition bindM {A B : Type} (m : M A) (k : A -> M B) : M B :=
  fun h => match m h with
           | (Ok a, h') => k a h'
           | (Raise e, h') => (Raise e, h')
           end.

Notation "x <~ m ;; k" := (bindM m (fun x => k))
  (at level 61, m at next level, right associativity).

(** [len(xs)] and [xs[i]] read the object. *)
Definition len (xs : addr) : M Z :=
  fun h => (Ok (Z.of_nat (length (deref h xs))), h).

Definition getitem_at (xs : addr) (i : Z) : M R :=
  fun h => (getitem (deref h xs) i, h).

(** [sorted(xs)] builds a new list object and returns its reference. *)
Definition sorted_new (xs : addr) : M addr :=
  fun h => (Ok (length h), h ++ [sorted (deref h xs)]).

(** [xs.sort()], which the script never calls, sorts the object in place. *)
Fixpoint update (h : heap) (a : addr) (l : list R) : heap :=
  match h, a with
  | [], _ => []
  | _ :: h', O => l :: h'
  | c :: h', S a' => c :: update h' a' l
  end.

Definition sort_in_place (xs : addr) : M unit :=
  fun h => (Ok tt, update h xs (sorted (deref h xs))).

Definition quantile (sorted_values : addr) (q : R) : M R :=
  n <~ len sorted_values ;;
  let index := IZR (n - 1) * q in
  let lower := Zfloor index in
  let upper := Zceil index in
  if (lower =? upper)%Z
  then getitem_at sorted_values (int_of_float index)
  else
    lo <~ getitem_at sorted_values lower ;;
    hi <~ getitem_at sorted_values upper ;;
    lo' <~ getitem_at sorted_values lower ;;
    ret (lo + (hi - lo') * (index - IZR lower)).

Definition box_stats (values : addr) : M BoxStats :=
  sorted_values <~ sorted_new values ;;
  mn <~ getitem_at sorted_values 0 ;;
  q1 <~ quantile sorted_values (25 / 100) ;;
  md <~ quantile sorted_values (5 / 10) ;;
  q3 <~ quantile sorted_values (75 / 100) ;;
  mx <~ getitem_at sorted_values (-1) ;;
  ret (mkBoxStats mn q1 md q3 mx).

End Heap.

(** ** Binary64: the numeric functions on machine floats

    The same functions once more, on the binary64 numbers the script
    computes with, so that they can be run on a given input.  [+ - * /] and
    [math.sqrt] are the operations of IEEE 754; a float is taken apart into
    sign, mantissa and exponent where the source leaves floats ([math.floor],
    [math.ceil], [int], the exact sum inside [statistics.mean]).  Data are
    finite floats. *)

Module Binary64.

Import PrimFloat FloatOps SpecFloat.

(** [math.floor(x)]: refuses an infinity and a NaN. *)
Definition floor (x : float) : result Z :=
  match Prim2SF x with
  | S754_nan => Raise ValueError
  | S754_infinity _ => Raise OverflowError
  | S754_zero _ => Ok 0%Z
  | S754_finite s m e => Ok (Z.shiftl (cond_Zopp s (Z.pos m)) e)
  end.

(** [math.ceil(x)]. *)
Definition ceil (x : float) : result Z :=
  match Prim2SF x with
  | S754_nan => Raise ValueError
  | S754_infinity _ => Raise OverflowError
  | S754_zero _ => Ok 0%Z
  | S754_finite s m e => Ok (- Z.shiftl (cond_Zopp (negb s) (Z.pos m)) e)%Z
  end.

(** [int(x)]: truncation towards zero. *)
Definition int_of_float (x : float) : result Z :=
  if (x <? 0)%float then ceil x else floor x.

(** The float nearest to an integer, as in [n * q] and [x - n]. *)
Definition float_of_int (n : Z) : float :=
  SF2Prim (binary_normalize prec emax n 0 false).

(** [sum(xs)]: a left fold from 0. *)
Definition sum (xs : list float) : float := fold_left add xs 0%float.

(** [a / b]. *)
Definition truediv (a b : float) : result float :=
  if (b =? 0)%float then Raise ZeroDivisionError else Ok (a / b)%float.

(** [t ** 2] for a finite [t]. *)
Definition pow2 (t : float) : result float :=
  let r := (t * t)%float in
  if (is_infinity r && negb (is_infinity t))%bool then Raise OverflowError
  else Ok r.

(** [sorted(values)]. *)
Fixpoint insert (x : float) (l : list float) : list float :=
  match l with
  | [] => [x]
  | y :: l' => if (y <? x)%float then y :: insert x l' else x :: y :: l'
  end.

Definition sorted (values : list float) : list float := fold_right insert [] values.

(** The exact sum of finite floats as an integer times a power of two. *)
Definition exact_add (acc : option (Z * Z)) (x : float) : option (Z * Z) :=
  match acc, Prim2SF x with
  | Some (M, E), S754_zero _ => Some (M, E)
  | Some (M, E), S754_finite s m e =>
      let E' := Z.min E e in
      Some ((Z.shiftl M (E - E') + Z.shiftl (cond_Zopp s (Z.pos m)) (e - E'))%Z, E')
  | _, _ => None
  end.

Definition exact_sum (data : list float) : option (Z * Z) :=
  fold_left exact_add data (Some (0%Z, 0%Z)).

(** [statistics.mean]: the exact sum divided by the count, rounded once.
    Data with an infinity or a NaN, where no exact sum exists, is given NaN;
    the examples below hold finite floats only. *)
Definition mean (data : list float) : result float :=
  match data with
  | [] => Raise StatisticsError
  | _ :: _ =>
      let n := S754_finite false (Pos.of_nat (length data)) 0 in
      match exact_sum data with
      | Some (Z0, _) => Ok 0%float
      | Some (Z.pos M, E) => Ok (SF2Prim (SFdiv prec emax (S754_finite false M E) n))
      | Some (Z.neg M, E) => Ok (SF2Prim (SFdiv prec emax (S754_finite true M E) n))
      | None => Ok nan
      end
  end.

(** Lines 31-37. *)
Definition quantile (sorted_values : list float) (q : float) : result float :=
  let index := (float_of_int (Z.of_nat (length sorted_values) - 1) * q)%float in
  lower <- floor index ;;
  upper <- ceil index ;;
  if (lower =? upper)%Z
  then i <- int_of_float index ;; getitem sorted_values i
  else
    lo <- getitem sorted_values lower ;;
    hi <- getitem sorted_values upper ;;
    lo' <- getitem sorted_values lower ;;
    Ok (lo + (hi - lo') * (index - float_of_int lower))%float.

Record BoxStats : Type := mkBoxStats {
  st_min : float;
  st_q1 : float;
  st_median : float;
  st_q3 : float;
  st_max : float
}.

(** Lines 40-48. *)
Definition box_stats (values : list float) : result BoxStats :=
  let sorted_values := sorted values in
  mn <- getitem sorted_values 0 ;;
  q1 <- quantile sorted_values 0.25%float ;;
  md <- quantile sorted_values 0.5%float ;;
  q3 <- quantile sorted_values 0.75%float ;;
  mx <- getitem sorted_values (-1) ;;
  Ok (mkBoxStats mn q1 md q3 mx).

(** Lines 51-59. *)
Definition pearson (x y : list float) : result float :=
  mean_x <- mean x ;;
  mean_y <- mean y ;;
  let numerator :=
    sum (map (fun ab => ((fst ab - mean_x) * (snd ab - mean_y))%float)
             (combine x y)) in
  squares_x <- mapM (fun a => pow2 (a - mean_x)%float) x ;;
  let denominator_x := sqrt (sum squares_x) in
  squares_y <- mapM (fun b => pow2 (b - mean_y)%float) y ;;
  let denominator_y := sqrt (sum squares_y) in
  if (denominator_x =? 0)%float then Ok 0%float
  else if (denominator_y =? 0)%float then Ok 0%float
  else truediv numerator (denominator_x * denominator_y)%float.

(** Inputs of the examples.  [huge] is 2^1023 and [large] is 2^600; both
    are finite floats. *)
Definition huge : float := 0x1p+1023%float.
Definition large : float := 0x1p+600%float.
Definition quarter : float := 0.25%float.
Definition floats (l : list Z) : list float := map float_of_int l.

End Binary64.

(** ** Notions the statements use *)

(** The rank of the quantile fraction [q] in a sequence of [N] elements. *)
Definition rank (sorted_values : list R) (q : R) : R :=
  INR (length sorted_values - 1) * q.

(** The piecewise-linear curve through the points [(k, l[k])], read at an
    abscissa [t]. *)
Definition interp (l : list R) (t : R) : R :=
  let k := Z.to_nat (Zfloor t) in
  nth k l 0 + (nth (S k) l 0 - nth k l 0) * (t - INR k).

(** The arithmetic mean of a non-empty sequence. *)
Definition mean_value (l : list R) : R := py_sum l / INR (length l).

(** The number a row holds under a numeric key. *)
Definition numeric (key : string) (r : row) : R :=
  match float_field r key with
  | Ok v => v
  | Raise _ => 0
  end.

(** The rows of one gender, as the bar chart's comprehension filters them. *)
Definition group_rows (rows : list row) (gender : string) : list row :=
  filter (fun r => (Gender r =? gender)%string) rows.

(** The mean of a subject over the rows of one gender. *)
Definition group_mean (rows : list row) (gender subject : string) : R :=
  mean_value (map (numeric subject) (group_rows rows gender)).

(** The three-row dataset of the specification's end-to-end scenario. *)
Definition scenario_rows : list row :=
  [ mkRow "S1" "Female" 95 90 80 70 60;
    mkRow "S2" "Male" 85 70 60 50 40;
    mkRow "S3" "Female" 90 80 70 60 50 ].

(** The five numbers of a non-empty sequence, read off the interpolation
    curve of its ascending rearrangement. *)
Definition five_numbers (values : list R) : BoxStats :=
  let sv := sorted values in
  mkBoxStats (nth 0 sv 0)
             (interp sv (rank sv (25 / 100)))
             (interp sv (rank sv (5 / 10)))
             (interp sv (rank sv (75 / 100)))
             (nth (length sv - 1) sv 0).

(** All values of a sequence are equal: its variance is zero. *)
Definition constant (l : list R) : Prop :=
  forall a b, In a l -> In b l -> a = b.

(** Magnitudes at which no operation of the script overflows binary64: a
    difference of two such values, a scaled pixel coordinate and the square
    of a deviation from the mean all stay finite (the largest float is about
    1.8 * 10^308). *)
Definition moderate (l : list R) : Prop :=
  forall v, In v l -> Rabs v <= 10 ^ 150.

(** The intermediate values of [pearson] in rounded arithmetic: the deviations
    of a sequence from its mean, their squares, the products of the paired
    deviations of two sequences (paired as [zip] pairs them, up to the shorter
    length), and the root of the sum of squares. *)
Definition deviations (rnd : R -> R) (l : list R) : list R :=
  map (fun a => rnd (a - rnd (mean_value l))) l.

Definition squares (rnd : R -> R) (l : list R) : list R :=
  map (fun t => rnd (t ^ 2)) (deviations rnd l).

Definition products (rnd : R -> R) (x y : list R) : list R :=
  map (fun uv => rnd (fst uv * snd uv))
      (combine (deviations rnd x) (deviations rnd y)).

Definition root_sum_squares (rnd : R -> R) (l : list R) : R :=
  rnd (sqrt (Rounded.sum rnd (squares rnd l))).

(** No square of a deviation exceeds the largest float: [** 2] raises
    nothing on the sequence. *)
Definition squares_fit (rnd : R -> R) (l : list R) : Prop :=
  forall t, In t (squares rnd l) -> t <= Rounded.max_float.

(** Data on which binary64 rounds within the relative error [Rounded.u]:
    besides being moderate, a value is zero or at least 10^-100 in
    magnitude, so that no square of a deviation and no mean falls into the
    subnormal range. *)
Definition well_scaled (l : list R) : Prop :=
  forall v, In v l -> v = 0 \/ / 10 ^ 100 <= Rabs v.

(** The same of the five numeric fields of a dataset. *)
Definition moderate_rows (rows : list row) : Prop :=
  forall a, In a fields -> moderate (map (numeric a) rows).

Definition well_scaled_rows (rows : list row) : Prop :=
  forall a, In a fields -> well_scaled (map (numeric a) rows).

(** The coefficient of two columns of a dataset, when [pearson] returns
    one. *)
Definition coefficient (rnd : R -> R) (rows : list row) (a b : string) : R :=
  match Rounded.pearson rnd (map (numeric a) rows) (map (numeric b) rows) with
  | Ok v => v
  | Raise _ => 0
  end.

(** A vertical segment at [x] whose ends are at heights [ya] and [yb]. *)
Definition vertical_between (p : primitive) (x ya yb : R) : Prop :=
  match p with
  | Line x1 y1 x2 y2 _ _ =>
      x1 = x /\ x2 = x /\ ((y1 = ya /\ y2 = yb) \/ (y1 = yb /\ y2 = ya))
  | _ => False
  end.

(** A horizontal segment at height [y] from [xa] to [xb]. *)
Definition horizontal_at (p : primitive) (xa xb y : R) : Prop :=
  match p with
  | Line x1 y1 x2 y2 _ _ => x1 = xa /\ x2 = xb /\ y1 = y /\ y2 = y
  | _ => False
  end.

(** A filled rectangle with its top-left corner at [(x, y)]. *)
Definition filled_rect (p : primitive) (x y w h : R) (color : string) : Prop :=
  match p with
  | Rect x0 y0 w0 h0 fill _ => x0 = x /\ y0 = y /\ w0 = w /\ h0 = h /\ fill = color
  | _ => False
  end.

(** ** Elements of the heat map and of the bar chart

    The two other composers fill in colours, opacities and numbers printed to
    a fixed number of decimals.  Their elements keep those attributes as
    values: a number printed with [{v:.2f}] is kept as the number and the
    count of decimals. *)

Inductive label : Type :=
| Literal (s : string)
| Fixed (decimals : nat) (v : R).

Inductive mark : Type :=
| MLine (x1 y1 x2 y2 : R) (stroke : string)
| MRect (x y width height : R) (fill : string) (stroke : option string)
        (opacity : option R)
| MText (x y : R) (text_anchor : option string) (font_size : Z)
        (fill : option string) (content : label).

Record chart : Type := mkChart {
  chart_path : string;
  chart_width : Z;
  chart_height : Z;
  chart_body : list mark
}.

(** ** Heat-map composer (lines 137-167) *)

Module Heatmap.

Definition width : Z := 760.
Definition height : Z := 760.
Definition start_x : Z := 170.
Definition start_y : Z := 120.
Definition cell : Z := 90.

Definition red (value : R) : Z := int_of_float ((1 - value) * 127).
Definition green (value : R) : Z := int_of_float ((1 - Rabs value) * 120 + 80).
Definition blue (value : R) : Z := int_of_float ((1 + value) * 127).

Definition color (value : R) : string :=
  ("rgb(" ++ str (red value) ++ "," ++ str (green value) ++ ","
          ++ str (blue value) ++ ")")%string.

Definition title : mark :=
  MText 380 45 (Some "middle"%string) 22 None (Literal "Correlation Heatmap").

(** The two appends of the inner loop, for the coefficient [value] of the
    cell in row [i] and column [j]. *)
Definition cell_pair (value : R) (i j : Z) : list mark :=
  let x := (start_x + j * cell)%Z in
  let y := (start_y + i * cell)%Z in
  [ MRect (IZR x) (IZR y) (IZR cell) (IZR cell) (color value)
          (Some "white"%string) None;
    MText (IZR x + IZR cell / 2) (IZR y + IZR cell / 2 + 5)
          (Some "middle"%string) 13 (Some "black"%string) (Fixed 2 value) ].

Definition cell_marks (m : list (string * list (string * R)))
    (i : Z) (row_name : string) (j : Z) (col_name : string) : result (list mark) :=
  value <- matrix_get m row_name col_name ;;
  Ok (cell_pair value i j).

(** The two labels an iteration of the outer loop appends first. *)
Definition row_labels (i : Z) (row_name : string) : list mark :=
  [ MText 140 (IZR (start_y + i * cell) + IZR cell / 2 + 4)
          (Some "end"%string) 13 None (Literal row_name);
    MText (IZR (start_x + i * cell) + IZR cell / 2) 95
          (Some "middle"%string) 13 None (Literal row_name) ].

(** One iteration of the outer loop: the two labels, then the cells. *)
Definition row_marks (m : list (string * list (string * R)))
    (i : Z) (row_name : string) : result (list mark) :=
  cells <- mapM (fun p => cell_marks m i row_name (fst p) (snd p))
                (enumerate fields) ;;
  Ok (row_labels i row_name ++ concat cells).

Definition plot_correlation_heatmap (rnd : R -> R) (rows : list row)
  : result chart :=
  m <- Rounded.matrix rnd rows ;;
  marks <- mapM (fun p => row_marks m (fst p) (snd p)) (enumerate fields) ;;
  Ok (mkChart "outputs/correlation_heatmap.svg" width height
              (title :: concat marks)).

End Heatmap.

(** ** Grouped bar composer (lines 170-230) *)

Module Bars.

Definition width : Z := 900.
Definition height : Z := 520.
Definition margin_left : Z := 90.
Definition margin_bottom : Z := 80.
Definition margin_top : Z := 60.
Definition plot_width : Z := width - 160.
Definition plot_height : Z := height - margin_bottom - margin_top.
Definition y_min : Z := 40.
Definition y_max : Z := 100.

Definition y_scale (v : R) : R :=
  IZR margin_top + (IZR y_max - v) / IZR (y_max - y_min) * IZR plot_height.

Definition header : list mark :=
  [ MText 450 30 (Some "middle"%string) 22 None
          (Literal "Subject-wise Average Marks by Gender");
    MLine (IZR margin_left) (IZR margin_top)
          (IZR margin_left) (IZR (margin_top + plot_height)) "black";
    MLine (IZR margin_left) (IZR (margin_top + plot_height))
          (IZR (margin_left + plot_width)) (IZR (margin_top + plot_height))
          "black" ].

Definition tick_marks (tick : Z) : list mark :=
  let y := y_scale (IZR tick) in
  [ MLine (IZR (margin_left - 6)) y (IZR margin_left) y "black";
    MText (IZR (margin_left - 12)) (y + 4) (Some "end"%string) 12 None
          (Literal (str tick)) ].

Definition spacing : R := IZR plot_width / INR (length SUBJECT_COLUMNS).
Definition bar_width : Z := 28.
Definition palette : list (string * string) :=
  [("Female", "#5b8ff9"); ("Male", "#f6bd16")]%string.

Definition cluster_x (idx : Z) : R :=
  IZR margin_left + IZR idx * spacing + spacing / 2.

(** The two appends of the loop over the genders, for the average [value]
    of the gender at position [g_idx] in the cluster of subject [idx]. *)
Definition bar_pair (value : R) (fill : string) (idx g_idx : Z) : list mark :=
  let x := cluster_x idx - IZR bar_width - 2 + IZR g_idx * IZR (bar_width + 4) in
  let y := y_scale value in
  let h := IZR (margin_top + plot_height) - y in
  [ MRect x y (IZR bar_width) h fill None (Some (9 / 10));
    MText (x + IZR bar_width / 2) (y - 6) (Some "middle"%string) 11 None
          (Fixed 1 value) ].

Definition bar_marks (avgs : list (string * list (string * R)))
    (idx : Z) (subject : string) (g_idx : Z) (gender : string) : result (list mark) :=
  value <- matrix_get avgs gender subject ;;
  fill <- lookup gender palette ;;
  Ok (bar_pair value fill idx g_idx).

(** One iteration of the loop over the subjects: the bars, then the label. *)
Definition cluster_marks (avgs : list (string * list (string * R)))
    (idx : Z) (subject : string) : result (list mark) :=
  bars <- mapM (fun p => bar_marks avgs idx subject (fst p) (snd p))
               (enumerate genders) ;;
  Ok (concat bars
      ++ [ MText (cluster_x idx) (IZR (margin_top + plot_height + 30))
                 (Some "middle"%string) 13 None (Literal subject) ]).

Definition legend_x : Z := width - 170.
Definition legend_y : Z := 90.

Definition legend_marks (i : Z) (gender : string) : result (list mark) :=
  let y := (legend_y + i * 24)%Z in
  fill <- lookup gender palette ;;
  Ok [ MRect (IZR legend_x) (IZR y) 14 14 fill None None;
       MText (IZR (legend_x + 22)) (IZR (y + 12)) None 12 None (Literal gender) ].

Definition plot_subject_wise_comparison (rows : list row) : result chart :=
  avgs <- averages rows ;;
  let body := header ++ flat_map tick_marks (range 40 101 10) in
  clusters <- mapM (fun p => cluster_marks avgs (fst p) (snd p))
                   (enumerate SUBJECT_COLUMNS) ;;
  legend <- mapM (fun p => legend_marks (fst p) (snd p)) (enumerate genders) ;;
  Ok (mkChart "outputs/subject_wise_comparison.svg" width height
              (body ++ concat clusters ++ concat legend)).

End Bars.

(** ** The text [save_svg] writes (lines 62-73)

    On the strings themselves: the header with the canvas size, the white
    background, the body, the closing tag, joined by newlines. *)

Module SvgText.

Definition newline : string := String (Ascii.ascii_of_nat 10) EmptyString.
Definition dq : string := String (Ascii.ascii_of_nat 34) EmptyString.

Definition header (width height : Z) : string :=
  ("<svg xmlns=" ++ dq ++ "http://www.w3.org/2000/svg" ++ dq
   ++ " width=" ++ dq ++ str width ++ dq
   ++ " height=" ++ dq ++ str height ++ dq
   ++ " viewBox=" ++ dq ++ "0 0 " ++ str width ++ " " ++ str height ++ dq
   ++ ">")%string.

Definition background : string :=
  ("<rect width=" ++ dq ++ "100%" ++ dq ++ " height=" ++ dq ++ "100%" ++ dq
   ++ " fill=" ++ dq ++ "white" ++ dq ++ "/>")%string.

(** The argument of [path.write_text]. *)
Definition content (width height : Z) (body : list string) : string :=
  String.concat newline
    ([header width height; background] ++ body ++ ["</svg>"%string]).

(** [s.split("\n")]. *)
Fixpoint split_lines (s : string) : list string :=
  match s with
  | EmptyString => [EmptyString]
  | String c s' =>
      if Ascii.eqb c (Ascii.ascii_of_nat 10)
      then EmptyString :: split_lines s'
      else match split_lines s' with
           | [] => [String c EmptyString]
           | l :: ls => String c l :: ls
           end
  end.

(** No newline in a string. *)
Fixpoint one_line (s : string) : bool :=
  match s with
  | EmptyString => true
  | String c s' => negb (Ascii.eqb c (Ascii.ascii_of_nat 10)) && one_line s'
  end.

End SvgText.

(** ** The run of the script after loading (lines 233-239)

    [main] creates the output directory, loads the rows, calls the three
    composers in turn and prints one line.  Reading the CSV file is not
    modelled; [main_loaded] is [main] from the point where [load_data] has
    returned [rows].  The world holds the directories, the files by path and
    the lines printed; an exception leaves the world as it was when raised.

    The script's own directory [BASE_DIR] is known at run time only and is a
    parameter.  The composers above name their file below that directory
    (["outputs/..."]); [main_loaded] places it there. *)









(** ** Plot areas

    The rectangle between the axes of the box plot, in pixels: from x = 90 to
    x = 840 and from y = 60 (score 100) down to y = 450 (score 30).  A box of
    zero interquartile range is drawn 1 pixel high and may reach y = 451. *)
Definition in_boxplot_area (p : primitive) : Prop :=
  match p with
  | Line x1 y1 x2 y2 _ _ =>
      90 <= x1 <= 840 /\ 90 <= x2 <= 840 /\ 60 <= y1 <= 450 /\ 60 <= y2 <= 450
  | Rect x y w h _ _ =>
      90 <= x /\ x + w <= 840 /\ 60 <= y <= 450 /\ y + h <= 451
  | Text _ _ _ _ _ => True
  end.

(** A bar of the bar chart: the rectangles drawn with an opacity. *)
Definition is_bar (p : mark) : Prop :=
  match p with
  | MRect _ _ _ _ _ _ (Some _) => True
  | _ => False
  end.

(** A rectangle inside the plot area of the bar chart, from x = 90 to
    x = 830 and from y = 60 (average 100) down to the axis at y = 440
    (average 40), standing on the axis. *)
Definition bar_in_plot_area (p : mark) : Prop :=
  match p with
  | MRect x y w h _ _ _ =>
      90 <= x /\ x + w <= 830 /\ 60 <= y /\ 0 <= h <= 380 /\ y + h = 440
  | _ => True
  end.


(** ** Tactics for concrete datasets *)

(** Runs [sorted] on a list of numerals, deciding each comparison. *)
Ltac sort_eval :=
  unfold sorted; simpl;
  repeat match goal with
         | |- context [Rle_lt_dec ?a ?b] => destruct (Rle_lt_dec a b); try lra; simpl
         end;
  try reflexivity.

(** Refutes that a given element is a vertical segment between two given
    heights of the box-plot scale. *)
Ltac no_such_segment :=
  cbv [vertical_between];
  try tauto;
  let E1 := fresh in let E2 := fresh in let A := fresh in let B := fresh in
  intros (E1 & E2 & [[A B]|[A B]]);
  cbv [Boxplot.y_scale Boxplot.y_max Boxplot.y_min
       Boxplot.margin_top Boxplot.margin_left Boxplot.margin_bottom
       Boxplot.plot_height Boxplot.plot_width Boxplot.height Boxplot.width] in *;
  rewrite ?plus_IZR, ?minus_IZR in *; lra.

(** * Proofs *)

(** ** Sums and means *)

Lemma fold_left_Rplus_acc (l : list R) (a : R) :
  fold_left Rplus l a = a + fold_left Rplus l 0.
Proof.
  revert a; induction l as [|b l IH]; intro a; simpl.
  - lra.
  - rewrite (IH (a + b)), (IH (0 + b)); lra.
Qed.

Lemma py_sum_nil : py_sum [] = 0.
Proof. reflexivity. Qed.

Lemma py_sum_cons (a : R) (l : list R) : py_sum (a :: l) = a + py_sum l.
Proof.
  unfold py_sum; simpl. rewrite fold_left_Rplus_acc. lra.
Qed.



Lemma py_sum_nonneg (l : list R) : (forall v, In v l -> 0 <= v) -> 0 <= py_sum l.
Proof.
  induction l as [|w l IH]; intro H; [rewrite py_sum_nil; lra|].
  rewrite py_sum_cons. pose proof (H w (or_introl eq_refl)).
  pose proof (IH (fun v Hv => H v (or_intror Hv))). lra.
Qed.


Lemma mean_ok (l : list R) : l <> [] -> mean l = Ok (mean_value l).
Proof. destruct l; [congruence | reflexivity]. Qed.

Lemma INR_length_pos (l : list R) : l <> [] -> 0 < INR (length l).
Proof.
  intro H. apply lt_0_INR. destruct l; [congruence | simpl; lia].
Qed.

(** ** The grouped averages: range, other labels *)
Lemma py_sum_bounded (l : list R) (lo hi : R) :
  (forall v, In v l -> lo <= v <= hi) ->
  INR (length l) * lo <= py_sum l <= INR (length l) * hi.
Proof.
  induction l as [|a l IH]; intro H.
  - rewrite py_sum_nil. simpl. lra.
  - rewrite py_sum_cons. simpl length. rewrite S_INR.
    pose proof (H a (or_introl eq_refl)).
    pose proof (IH (fun v Hv => H v (or_intror Hv))). lra.
Qed.

Lemma mean_value_bounded (l : list R) (lo hi : R) :
  l <> [] -> (forall v, In v l -> lo <= v <= hi) -> lo <= mean_value l <= hi.
Proof.
  intros Hne H. pose proof (INR_length_pos l Hne) as Hn.
  pose proof (py_sum_bounded l lo hi H) as [H1 H2]. unfold mean_value.
  split.
  - apply (Rmult_le_reg_r (INR (length l))); [exact Hn|].
    replace (py_sum l / INR (length l) * INR (length l)) with (py_sum l)
      by (field; lra). lra.
  - apply (Rmult_le_reg_r (INR (length l))); [exact Hn|].
    replace (py_sum l / INR (length l) * INR (length l)) with (py_sum l)
      by (field; lra). lra.
Qed.

(** ** Magnitudes *)

Lemma thousand_moderate : 1000 <= 10 ^ 150.
Proof.
  rewrite pow_IZR. apply IZR_le. apply Z.leb_le. vm_compute. reflexivity.
Qed.

Lemma moderate_bounded (l : list R) :
  (forall v, In v l -> -1000 <= v <= 1000) -> moderate l.
Proof.
  intros H v Hv. pose proof (H v Hv). pose proof thousand_moderate.
  apply Rabs_le. lra.
Qed.

Lemma moderate_perm (l l' : list R) : Permutation l l' -> moderate l -> moderate l'.
Proof.
  intros P H v Hv. apply H. eapply Permutation_in; [apply Permutation_sym|]; eassumption.
Qed.

(** ** Indexing *)
Lemma getitem_nat {A : Type} (l : list A) (k : nat) (v : A) :
  nth_error l k = Some v -> getitem l (Z.of_nat k) = Ok v.
Proof.
  intro H. unfold getitem.
  assert (Hk : (k < length l)%nat) by (apply nth_error_Some; congruence).
  destruct (Z.ltb_spec (Z.of_nat k) 0); [lia|].
  destruct (Z.leb_spec 0 (Z.of_nat k)); [|lia].
  destruct (Z.ltb_spec (Z.of_nat k) (Z.of_nat (length l))); [|lia].
  simpl. rewrite Nat2Z.id, H. reflexivity.
Qed.

Lemma getitem_last {A : Type} (l : list A) (v : A) :
  nth_error l (length l - 1) = Some v -> getitem l (-1) = Ok v.
Proof.
  intro H. unfold getitem.
  assert (Hk : (length l - 1 < length l)%nat) by (apply nth_error_Some; congruence).
  change (-1 <? 0)%Z with true. cbv iota.
  destruct (Z.leb_spec 0 (Z.of_nat (length l) + -1)); [|lia].
  destruct (Z.ltb_spec (Z.of_nat (length l) + -1) (Z.of_nat (length l))); [|lia].
  simpl.
  replace (Z.to_nat (Z.of_nat (length l) + -1)) with (length l - 1)%nat by lia.
  rewrite H. reflexivity.
Qed.

Lemma getitem_nil {A : Type} (i : Z) : getitem (@nil A) i = Raise IndexError.
Proof.
  unfold getitem.
  match goal with |- (if ?c then _ else _) = _ => destruct c end; [|reflexivity].
  match goal with |- context [nth_error [] ?k] => destruct k end; reflexivity.
Qed.

Lemma nth_error_nth_R (l : list R) (k : nat) :
  (k < length l)%nat -> nth_error l k = Some (nth k l 0).
Proof.
  revert k; induction l as [|a l IH]; intros k Hk; simpl in Hk; [lia|].
  destruct k; simpl; [reflexivity | apply IH; lia].
Qed.

(** ** Floor, ceiling and truncation at the ranks the quantile meets *)
Lemma INR_IZR (k : nat) : INR k = IZR (Z.of_nat k).
Proof. apply INR_IZR_INZ. Qed.

Lemma Zfloor_INR (k : nat) : Zfloor (INR k) = Z.of_nat k.
Proof. rewrite INR_IZR; apply ZfloorZ. Qed.

Lemma Zceil_INR (k : nat) : Zceil (INR k) = Z.of_nat k.
Proof.
  rewrite INR_IZR. apply Zceil_eq. lra.
Qed.

Lemma int_of_float_INR (k : nat) : int_of_float (INR k) = Z.of_nat k.
Proof.
  unfold int_of_float.
  destruct (Rle_lt_dec 0 (INR k)) as [_|H].
  - apply Zfloor_INR.
  - pose proof (pos_INR k); lra.
Qed.

Lemma Zfloor_between (k : nat) (t : R) :
  INR k < t < INR (S k) -> Zfloor t = Z.of_nat k.
Proof.
  intros [H1 H2]. rewrite S_INR in H2.
  apply Zfloor_eq. rewrite <- INR_IZR. lra.
Qed.

Lemma Zceil_between (k : nat) (t : R) :
  INR k < t < INR (S k) -> Zceil t = Z.of_nat (S k).
Proof.
  intros [H1 H2].
  apply Zceil_eq. rewrite <- INR_IZR. rewrite S_INR in *. lra.
Qed.

(** A non-negative real is a natural number or lies strictly between two
    consecutive ones. *)
Lemma nat_or_between (t : R) :
  0 <= t -> exists k : nat, t = INR k \/ INR k < t < INR (S k).
Proof.
  intro Ht.
  pose proof (Zfloor_bound t) as [Hlo Hhi].
  assert (Hz : (0 <= Zfloor t)%Z).
  { apply Zfloor_lub. simpl. exact Ht. }
  exists (Z.to_nat (Zfloor t)).
  rewrite S_INR, INR_IZR, Z2Nat.id by exact Hz.
  destruct (Req_dec_T t (IZR (Zfloor t))) as [E|NE]; [left; exact E|right; lra].
Qed.

(** ** Quantile: what it evaluates to *)
Lemma index_rank (sorted_values : list R) (q : R) :
  sorted_values <> [] ->
  IZR (Z.of_nat (length sorted_values) - 1) * q = rank sorted_values q.
Proof.
  intro H. unfold rank. rewrite INR_IZR. f_equal. f_equal.
  destruct sorted_values; [congruence | simpl length; lia].
Qed.

Lemma quantile_at_nat (sorted_values : list R) (q : R) (k : nat) (v : R) :
  sorted_values <> [] ->
  rank sorted_values q = INR k ->
  nth_error sorted_values k = Some v ->
  quantile sorted_values q = Ok v.
Proof.
  intros Hne Hr Hv. unfold quantile.
  rewrite index_rank by exact Hne. rewrite Hr.
  rewrite Zfloor_INR, Zceil_INR, Z.eqb_refl, int_of_float_INR.
  apply getitem_nat; exact Hv.
Qed.

Lemma quantile_between (sorted_values : list R) (q : R) (k : nat) (lo hi : R) :
  sorted_values <> [] ->
  INR k < rank sorted_values q < INR (S k) ->
  nth_error sorted_values k = Some lo ->
  nth_error sorted_values (S k) = Some hi ->
  quantile sorted_values q = Ok (lo + (hi - lo) * (rank sorted_values q - INR k)).
Proof.
  intros Hne Hr Hlo Hhi. unfold quantile.
  rewrite index_rank by exact Hne.
  rewrite (Zfloor_between k), (Zceil_between k) by exact Hr.
  destruct (Z.eqb_spec (Z.of_nat k) (Z.of_nat (S k))) as [E|_]; [lia|].
  rewrite (getitem_nat _ _ _ Hlo), (getitem_nat _ _ _ Hhi). simpl.
  rewrite INR_IZR. reflexivity.
Qed.

Lemma frac_part_between (k : nat) (t : R) :
  INR k < t < INR (S k) -> frac_part t = t - INR k.
Proof.
  intros [H1 H2]. rewrite S_INR in H2. unfold frac_part.
  rewrite <- (Int_part_spec t (Z.of_nat k)).
  - rewrite <- INR_IZR. reflexivity.
  - rewrite <- INR_IZR. lra.
Qed.

(** ** Sorting *)
Lemma insert_length (x : R) (l : list R) : length (insert x l) = S (length l).
Proof.
  induction l as [|y l IH]; simpl; [reflexivity|].
  destruct (Rle_lt_dec x y); simpl; [reflexivity | rewrite IH; reflexivity].
Qed.

Lemma sorted_length (l : list R) : length (sorted l) = length l.
Proof.
  induction l as [|x l IH]; simpl; [reflexivity|].
  rewrite insert_length, IH. reflexivity.
Qed.

Lemma insert_perm (x : R) (l : list R) : Permutation (x :: l) (insert x l).
Proof.
  induction l as [|y l IH]; simpl; [apply Permutation_refl|].
  destruct (Rle_lt_dec x y); [apply Permutation_refl|].
  eapply perm_trans; [apply perm_swap | apply perm_skip, IH].
Qed.

Lemma sorted_perm (l : list R) : Permutation l (sorted l).
Proof.
  induction l as [|x l IH]; simpl; [apply perm_nil|].
  eapply perm_trans; [apply perm_skip, IH | apply insert_perm].
Qed.

Lemma insert_HdRel (a x : R) (l : list R) :
  a <= x -> HdRel Rle a l -> HdRel Rle a (insert x l).
Proof.
  intros Hax H. destruct l as [|y l]; simpl.
  - constructor; exact Hax.
  - destruct (Rle_lt_dec x y); constructor; [exact Hax|].
    inversion H; assumption.
Qed.

Lemma insert_Sorted (x : R) (l : list R) : Sorted Rle l -> Sorted Rle (insert x l).
Proof.
  induction 1 as [|y l Hs IH Hd]; simpl.
  - repeat constructor.
  - destruct (Rle_lt_dec x y) as [Hle|Hlt].
    + constructor; [constructor; assumption | constructor; exact Hle].
    + constructor; [exact IH|]. apply insert_HdRel; [lra | exact Hd].
Qed.

Lemma sorted_Sorted (l : list R) : Sorted Rle (sorted l).
Proof.
  induction l as [|x l IH]; simpl; [constructor | apply insert_Sorted, IH].
Qed.

Lemma sorted_nonempty (l : list R) : l <> [] -> sorted l <> [].
Proof.
  intros H E. apply H. apply length_zero_iff_nil.
  rewrite <- sorted_length, E. reflexivity.
Qed.

Lemma Sorted_nth_le (l : list R) (i j : nat) :
  Sorted Rle l -> (i <= j < length l)%nat -> nth i l 0 <= nth j l 0.
Proof.
  intro Hs. apply Sorted_StronglySorted in Hs; [|intros a b c; apply Rle_trans].
  revert i j. induction Hs as [|a l Hs IH Hall]; intros i j [Hij Hj]; simpl in Hj.
  - lia.
  - destruct i, j; simpl; try lia.
    + lra.
    + rewrite Forall_forall in Hall. apply Hall, nth_In. lia.
    + apply IH. lia.
Qed.

(** ** Quantile as a point of the interpolation curve *)
Lemma floor_nat (t : R) :
  0 <= t -> exists k : nat, Zfloor t = Z.of_nat k /\ INR k <= t < INR k + 1.
Proof.
  intro Ht.
  assert (Hz : (0 <= Zfloor t)%Z) by (apply Zfloor_lub; simpl; exact Ht).
  exists (Z.to_nat (Zfloor t)).
  rewrite INR_IZR, Z2Nat.id by exact Hz.
  split; [reflexivity | apply Zfloor_bound].
Qed.

Lemma interp_at (l : list R) (t : R) (k : nat) :
  Zfloor t = Z.of_nat k ->
  interp l t = nth k l 0 + (nth (S k) l 0 - nth k l 0) * (t - INR k).
Proof.
  intro H. unfold interp. rewrite H, Nat2Z.id. reflexivity.
Qed.

Lemma rank_range (sorted_values : list R) (q : R) :
  0 <= q <= 1 -> 0 <= rank sorted_values q <= INR (length sorted_values - 1).
Proof.
  intros [H0 H1]. unfold rank.
  pose proof (pos_INR (length sorted_values - 1)). nra.
Qed.

Lemma quantile_interp (sorted_values : list R) (q : R) :
  sorted_values <> [] -> 0 <= q <= 1 ->
  quantile sorted_values q = Ok (interp sorted_values (rank sorted_values q)).
Proof.
  intros Hne Hq.
  pose proof (rank_range sorted_values q Hq) as [Hr0 Hr1].
  assert (HN : (0 < length sorted_values)%nat).
  { destruct sorted_values; [congruence | simpl; lia]. }
  destruct (nat_or_between _ Hr0) as [k [E|B]].
  - assert (Hk : (k <= length sorted_values - 1)%nat).
    { apply INR_le. rewrite <- E. exact Hr1. }
    rewrite (quantile_at_nat _ _ k (nth k sorted_values 0) Hne E)
      by (apply nth_error_nth_R; lia).
    rewrite (interp_at _ _ k) by (rewrite E; apply Zfloor_INR).
    f_equal. rewrite E. lra.
  - assert (Hk : (k < length sorted_values - 1)%nat).
    { apply INR_lt. lra. }
    rewrite (quantile_between _ _ k (nth k sorted_values 0)
               (nth (S k) sorted_values 0) Hne B)
      by (apply nth_error_nth_R; lia).
    rewrite (interp_at _ _ k) by (apply Zfloor_between; exact B).
    reflexivity.
Qed.

Lemma interp_mono (l : list R) (t1 t2 : R) :
  Sorted Rle l -> 0 <= t1 -> t1 <= t2 -> t2 <= INR (length l - 1) ->
  interp l t1 <= interp l t2.
Proof.
  intros Hs H0 H12 H2.
  destruct (floor_nat t1 H0) as [k1 [F1 [L1 U1]]].
  destruct (floor_nat t2 (Rle_trans _ _ _ H0 H12)) as [k2 [F2 [L2 U2]]].
  rewrite (interp_at _ _ _ F1), (interp_at _ _ _ F2).
  assert (Hk2 : (k2 <= length l - 1)%nat) by (apply INR_le; lra).
  assert (Hk12 : (k1 <= k2)%nat).
  { assert (H : INR k1 < INR (S k2)) by (rewrite S_INR; lra).
    apply INR_lt in H. lia. }
  assert (Hlast : forall k t, (length l - 1 <= k)%nat -> INR k <= t ->
                               t <= INR (length l - 1) -> t = INR k).
  { intros k t Hk Ht Ht'. apply le_INR in Hk. lra. }
  assert (Hseg : forall k t, INR k <= t -> t <= INR (length l - 1) ->
            nth k l 0 <= nth k l 0 + (nth (S k) l 0 - nth k l 0) * (t - INR k)).
  { intros k t Ht Ht'.
    destruct (Nat.lt_ge_cases (S k) (length l)) as [Hin|Hout].
    - pose proof (Sorted_nth_le l k (S k) Hs ltac:(lia)). nra.
    - rewrite (Hlast k t) by (assumption || lia). lra. }
  destruct (Nat.eq_dec k1 k2) as [<-|Hne].
  - destruct (Nat.lt_ge_cases (S k1) (length l)) as [Hin|Hout].
    + pose proof (Sorted_nth_le l k1 (S k1) Hs ltac:(lia)). nra.
    + rewrite (Hlast k1 t1), (Hlast k1 t2) by (lra || lia). lra.
  - assert (Hin : (S k1 < length l)%nat) by lia.
    pose proof (Sorted_nth_le l k1 (S k1) Hs ltac:(lia)) as Ha.
    pose proof (Sorted_nth_le l (S k1) k2 Hs ltac:(lia)) as Hb.
    pose proof (Hseg k2 t2 L2 H2) as Hc.
    assert (nth k1 l 0 + (nth (S k1) l 0 - nth k1 l 0) * (t1 - INR k1)
            <= nth (S k1) l 0) by nra.
    lra.
Qed.

Lemma interp_first (l : list R) : interp l 0 = nth 0 l 0.
Proof.
  rewrite (interp_at l 0 0) by (apply (ZfloorZ 0)). simpl. lra.
Qed.

Lemma interp_last (l : list R) :
  interp l (INR (length l - 1)) = nth (length l - 1) l 0.
Proof.
  rewrite (interp_at _ _ (length l - 1)) by apply Zfloor_INR. lra.
Qed.

(** ** C1: the quantile engine *)

(** C1 as the specification words it fails on finite floats.  In the
    ascending pair -2^1023, 2^1023 the rank of the fraction 1/4 lies between
    the indices 0 and 1, but the difference of the two elements overflows:
    [quantile] returns +infinity, which is not between them. *)
Lemma quantile_overflow_outside_bracket :
  PrimFloat.ltb (PrimFloat.opp Binary64.huge) Binary64.huge = true
  /\ Binary64.quantile [PrimFloat.opp Binary64.huge; Binary64.huge] Binary64.quarter
     = Ok PrimFloat.infinity
  /\ PrimFloat.leb PrimFloat.infinity Binary64.huge = false.
Proof. repeat split; vm_compute; reflexivity. Qed.

(** C1, for values of moderate magnitude.  For an ascending sequence of
    N >= 1 such values and a fraction q in [0,1], [quantile] returns the value
    at rank (N-1)*q.  When the rank is an integer k it returns the k-th
    element itself; in particular q = 0 gives the first element and q = 1 the
    last.  Otherwise the rank lies strictly between two consecutive indices k
    and k+1, and the result is the k-th element plus the difference to the
    (k+1)-th weighted by the fractional part of the rank, a value between
    those two elements inclusive. *)
Theorem quantile_rank_value (sorted_values : list R) (q : R) :
  sorted_values <> [] ->
  Sorted Rle sorted_values ->
  moderate sorted_values ->
  0 <= q <= 1 ->
  (forall k : nat, rank sorted_values q = INR k ->
     exists v, nth_error sorted_values k = Some v /\
               quantile sorted_values q = Ok v)
  /\ (exists first final,
        nth_error sorted_values 0 = Some first /\
        nth_error sorted_values (length sorted_values - 1) = Some final /\
        quantile sorted_values 0 = Ok first /\
        quantile sorted_values 1 = Ok final)
  /\ ((forall k : nat, rank sorted_values q <> INR k) ->
      exists (k : nat) (lo hi : R),
        INR k < rank sorted_values q < INR (S k) /\
        nth_error sorted_values k = Some lo /\
        nth_error sorted_values (S k) = Some hi /\
        quantile sorted_values q
          = Ok (lo + (hi - lo) * frac_part (rank sorted_values q)) /\
        lo <= lo + (hi - lo) * frac_part (rank sorted_values q) <= hi).
Proof.
  intros Hne Hs _ Hq.
  pose proof (rank_range sorted_values q Hq) as [Hr0 Hr1].
  assert (HN : (0 < length sorted_values)%nat).
  { destruct sorted_values; [congruence | simpl; lia]. }
  split; [|split].
  - intros k E.
    assert (Hk : (k < length sorted_values)%nat).
    { assert (k <= length sorted_values - 1)%nat by (apply INR_le; lra). lia. }
    exists (nth k sorted_values 0).
    pose proof (nth_error_nth_R sorted_values k Hk) as Hn.
    split; [exact Hn | exact (quantile_at_nat _ _ k _ Hne E Hn)].
  - exists (nth 0 sorted_values 0), (nth (length sorted_values - 1) sorted_values 0).
    pose proof (nth_error_nth_R sorted_values 0 HN) as H0.
    pose proof (nth_error_nth_R sorted_values (length sorted_values - 1)
                  ltac:(lia)) as H1.
    repeat split; try assumption.
    + apply (quantile_at_nat _ _ 0); [exact Hne | unfold rank; simpl; lra | exact H0].
    + apply (quantile_at_nat _ _ (length sorted_values - 1));
        [exact Hne | unfold rank; lra | exact H1].
  - intro Hnot.
    destruct (nat_or_between _ Hr0) as [k [E|B]]; [elim (Hnot k E)|].
    assert (Hk : (k < length sorted_values - 1)%nat) by (apply INR_lt; lra).
    exists k, (nth k sorted_values 0), (nth (S k) sorted_values 0).
    pose proof (nth_error_nth_R sorted_values k ltac:(lia)) as Hlo.
    pose proof (nth_error_nth_R sorted_values (S k) ltac:(lia)) as Hhi.
    pose proof (Sorted_nth_le sorted_values k (S k) Hs ltac:(lia)) as Hle.
    rewrite (frac_part_between k) by exact B.
    repeat split; try assumption; try tauto.
    + apply quantile_between; assumption.
    + destruct B as [B1 B2]. nra.
    + destruct B as [B1 B2]. rewrite S_INR in B2. nra.
Qed.

(** C1 on the sorted Math scores of the scenario dataset. *)
Lemma quantile_rank_value_witness :
  quantile [70; 80; 90] (25 / 100) = Ok 75
  /\ quantile [70; 80; 90] 0 = Ok 70
  /\ quantile [70; 80; 90] 1 = Ok 90.
Proof.
  assert (Hne : [70; 80; 90] <> []) by discriminate.
  assert (Hs : Sorted Rle [70; 80; 90]) by (repeat constructor; lra).
  assert (Hm : moderate [70; 80; 90]).
  { apply moderate_bounded. intros v Hv. simpl in Hv.
    destruct Hv as [<-|[<-|[<-|[]]]]; lra. }
  assert (Hq : 0 <= 25 / 100 <= 1) by lra.
  destruct (quantile_rank_value [70; 80; 90] (25 / 100) Hne Hs Hm Hq)
    as [_ [(first & final & H0 & H1 & Q0 & Q1) Hfrac]].
  simpl in H0, H1.
  injection H0 as <-. injection H1 as <-.
  split; [|split; assumption].
  assert (Hr : rank [70; 80; 90] (25 / 100) = 1 / 2).
  { unfold rank. simpl. lra. }
  assert (Hnot : forall k : nat, rank [70; 80; 90] (25 / 100) <> INR k).
  { intros k E. rewrite Hr in E.
    destruct k as [|k]; [simpl in E; lra|].
    rewrite S_INR in E. pose proof (pos_INR k). lra. }
  destruct (Hfrac Hnot) as (k & lo & hi & B & Hlo & Hhi & Hv & _).
  assert (Hk : k = 0%nat).
  { destruct k as [|k]; [reflexivity|].
    destruct B as [B _]. rewrite Hr, S_INR in B.
    pose proof (pos_INR k). lra. }
  subst k. simpl in Hlo, Hhi.
  injection Hlo as <-. injection Hhi as <-.
  rewrite Hv. f_equal.
  rewrite (frac_part_between 0) by exact B.
  rewrite Hr. simpl. lra.
Defined.

(** ** C2: box statistics *)
Lemma box_stats_value (values : list R) :
  values <> [] -> box_stats values = Ok (five_numbers values).
Proof.
  intros Hne. unfold five_numbers. set (sv := sorted values).
  assert (Hsv : sv <> []) by (apply sorted_nonempty; exact Hne).
  assert (HN : (0 < length sv)%nat).
  { destruct sv; [congruence | simpl; lia]. }
  unfold box_stats. fold sv.
  pose proof (getitem_nat sv 0 _ (nth_error_nth_R sv 0 HN)) as G.
  change (Z.of_nat 0) with 0%Z in G. rewrite G.
  rewrite !quantile_interp by (assumption || lra).
  rewrite (getitem_last sv (nth (length sv - 1) sv 0))
    by (apply nth_error_nth_R; lia).
  reflexivity.
Qed.

Lemma box_stats_nil : box_stats [] = Raise IndexError.
Proof. reflexivity. Qed.

(** C2 as the specification words it fails on finite floats.  On the pair
    2^1023, -2^1023 the interpolation overflows: the three quartiles are
    +infinity, above the max field. *)
Lemma box_stats_overflow_q3_above_max :
  exists s,
    Binary64.box_stats [Binary64.huge; PrimFloat.opp Binary64.huge] = Ok s
    /\ Binary64.st_q3 s = PrimFloat.infinity
    /\ Binary64.st_max s = Binary64.huge
    /\ PrimFloat.leb (Binary64.st_q3 s) (Binary64.st_max s) = false.
Proof. eexists. repeat split; vm_compute; reflexivity. Qed.

(** C2, for values of moderate magnitude.  On a non-empty sequence of such
    values [box_stats] returns a record, and its five fields are in the order
    min <= q1 <= median <= q3 <= max. *)
Theorem box_stats_ordered (values : list R) :
  values <> [] ->
  moderate values ->
  exists s, box_stats values = Ok s /\
            st_min s <= st_q1 s /\ st_q1 s <= st_median s /\
            st_median s <= st_q3 s /\ st_q3 s <= st_max s.
Proof.
  intros Hne _. exists (five_numbers values).
  split; [apply box_stats_value; exact Hne|].
  unfold five_numbers. set (sv := sorted values). simpl.
  pose proof (sorted_Sorted values) as Hs. fold sv in Hs.
  rewrite <- (interp_first sv), <- (interp_last sv).
  assert (Hn : 0 <= INR (length sv - 1)) by apply pos_INR.
  unfold rank.
  repeat split; apply interp_mono; try exact Hs; nra.
Qed.

(** C2 on the unsorted Math scores of the scenario dataset. *)
Lemma box_stats_ordered_witness :
  exists s, box_stats [90; 70; 80] = Ok s /\
            st_min s <= st_q1 s /\ st_q1 s <= st_median s /\
            st_median s <= st_q3 s /\ st_q3 s <= st_max s.
Proof.
  apply (box_stats_ordered [90; 70; 80]); [discriminate|].
  apply moderate_bounded. intros v Hv. simpl in Hv.
  destruct Hv as [<-|[<-|[<-|[]]]]; lra.
Defined.

(** ** Comprehensions and dict lookups *)
Lemma mapM_ok {A B : Type} (f : A -> result B) (g : A -> B) (l : list A) :
  (forall a, In a l -> f a = Ok (g a)) -> mapM f l = Ok (map g l).
Proof.
  induction l as [|a l IH]; intro H; simpl; [reflexivity|].
  rewrite (H a) by (left; reflexivity).
  rewrite IH by (intros b Hb; apply H; right; exact Hb).
  reflexivity.
Qed.

Lemma lookup_map {V : Type} (g : string -> V) (keys : list string) (k : string) :
  In k keys -> lookup k (map (fun a => (a, g a)) keys) = Ok (g k).
Proof.
  induction keys as [|a keys IH]; intro H; [destruct H|]. simpl.
  destruct (String.eqb_spec a k) as [->|NE]; [reflexivity|].
  destruct H as [H|H]; [contradiction | apply IH; exact H].
Qed.

Lemma column_numeric (key : string) (rows : list row) :
  In key fields -> column key rows = Ok (map (numeric key) rows).
Proof.
  intro H. unfold column. apply mapM_ok. intros r _.
  unfold fields, SUBJECT_COLUMNS in H. simpl in H.
  destruct H as [<-|[<-|[<-|[<-|[<-|[]]]]]]; reflexivity.
Qed.

Lemma map_nonempty {A B : Type} (f : A -> B) (l : list A) : l <> [] -> map f l <> [].
Proof. destruct l; [congruence | discriminate]. Qed.

Lemma bind_Ok {A B : Type} (a : A) (k : A -> result B) : bind (Ok a) k = k a.
Proof. reflexivity. Qed.

Lemma mapM_cons {A B : Type} (f : A -> result B) (a : A) (l : list A) :
  mapM f (a :: l) = (b <- f a ;; bs <- mapM f l ;; Ok (b :: bs)).
Proof. reflexivity. Qed.

Lemma mapM_raise_first {A B : Type} (f : A -> result B) (a : A) (l : list A) (e : exn) :
  f a = Raise e -> mapM f (a :: l) = Raise e.
Proof. intro H. simpl. rewrite H. reflexivity. Qed.

(** ** Constant sequences *)

Lemma py_sum_all_eq (l : list R) (c : R) :
  (forall a, In a l -> a = c) -> py_sum l = INR (length l) * c.
Proof.
  induction l as [|b l IH]; intro H.
  - rewrite py_sum_nil. simpl. lra.
  - rewrite py_sum_cons, IH by (intros a Ha; apply H; right; exact Ha).
    rewrite (H b) by (left; reflexivity).
    simpl length. rewrite S_INR. lra.
Qed.

Lemma constant_mean (l : list R) (a : R) :
  constant l -> In a l -> a = mean_value l.
Proof.
  intros Hc Ha.
  assert (Hne : l <> []) by (intro E; subst l; destruct Ha).
  unfold mean_value.
  rewrite (py_sum_all_eq l a) by (intros b Hb; apply Hc; assumption).
  pose proof (INR_length_pos l Hne). field. lra.
Qed.


(** ** The step of the Cauchy-Schwarz inequality *)

Lemma cross_step (u v c A B : R) :
  0 <= A -> 0 <= B -> c * c <= A * B ->
  (u * v + c) * (u * v + c) <= (u * u + A) * (v * v + B).
Proof.
  intros HA HB Hc.
  assert (H2 : 2 * (u * v * c) <= u * u * B + A * (v * v)).
  { destruct (Req_dec_T A 0) as [E|NE].
    - subst A. assert (c = 0) by nra. subst c. nra.
    - assert (HApos : 0 < A) by lra.
      assert (Hk : 0 <= A * (u * u * B + A * (v * v) - 2 * (u * v * c))).
      { replace (A * (u * u * B + A * (v * v) - 2 * (u * v * c)))
          with ((A * v - u * c) * (A * v - u * c) + u * u * (A * B - c * c))
          by ring.
        pose proof (Rle_0_sqr (A * v - u * c)) as H1. unfold Rsqr in H1.
        pose proof (Rle_0_sqr u) as H3. unfold Rsqr in H3.
        assert (0 <= u * u * (A * B - c * c)) by (apply Rmult_le_pos; lra).
        lra. }
      assert (0 <= u * u * B + A * (v * v) - 2 * (u * v * c)).
      { apply (Rmult_le_reg_l A); [exact HApos | lra]. }
      lra. }
  nra.
Qed.

(** ** Rounded arithmetic

    What follows from the relative error bound of the rounding alone. *)

Lemma u_eq : Rounded.u = / 9007199254740992.
Proof.
  unfold Rounded.u. f_equal.
  rewrite pow_IZR. apply f_equal. reflexivity.
Qed.

Lemma u_pos : 0 < Rounded.u.
Proof. rewrite u_eq. lra. Qed.

Lemma u_small : Rounded.u <= / 9000000000000000.
Proof. rewrite u_eq. lra. Qed.

Lemma max_float_large : 72 * (10 ^ 150 * 10 ^ 150) <= Rounded.max_float.
Proof.
  unfold Rounded.max_float.
  rewrite !pow_IZR, <- minus_IZR, <- !mult_IZR.
  apply IZR_le. apply Z.leb_le. vm_compute. reflexivity.
Qed.

Ltac split_Rabs :=
  unfold Rabs in *;
  repeat match goal with
         | |- context [Rcase_abs ?x] => destruct (Rcase_abs x)
         | H : context [Rcase_abs ?x] |- _ => destruct (Rcase_abs x)
         end.

Section RoundingError.

Variable rnd : R -> R.
Hypothesis Hrnd : Rounded.standard_model rnd.

Lemma rnd_nonneg_bounds (x : R) :
  0 <= x -> (1 - Rounded.u) * x <= rnd x <= (1 + Rounded.u) * x.
Proof.
  intro Hx. pose proof (Hrnd x) as H. pose proof u_pos.
  split_Rabs; nra.
Qed.

Lemma rnd_nonpos_bounds (x : R) :
  x <= 0 -> (1 + Rounded.u) * x <= rnd x <= (1 - Rounded.u) * x.
Proof.
  intro Hx. pose proof (Hrnd x) as H. pose proof u_pos.
  split_Rabs; nra.
Qed.

Lemma rnd_0 : rnd 0 = 0.
Proof. pose proof (rnd_nonneg_bounds 0 (Rle_refl 0)). lra. Qed.

Lemma rnd_nonneg (x : R) : 0 <= x -> 0 <= rnd x.
Proof.
  intro Hx. pose proof (rnd_nonneg_bounds x Hx). pose proof u_small. nra.
Qed.

Lemma rnd_pos (x : R) : 0 < x -> 0 < rnd x.
Proof.
  intro Hx. pose proof (rnd_nonneg_bounds x (Rlt_le _ _ Hx)). pose proof u_small. nra.
Qed.

Lemma rnd_zero_inv (x : R) : rnd x = 0 -> x = 0.
Proof.
  intro E. pose proof u_small.
  destruct (Rle_lt_dec 0 x) as [Hx|Hx].
  - pose proof (rnd_nonneg_bounds x Hx). nra.
  - pose proof (rnd_nonpos_bounds x (Rlt_le _ _ Hx)). nra.
Qed.

Lemma rnd_abs_upper (x : R) : Rabs (rnd x) <= (1 + Rounded.u) * Rabs x.
Proof.
  pose proof u_small. pose proof u_pos.
  destruct (Rle_lt_dec 0 x) as [Hx|Hx].
  - pose proof (rnd_nonneg_bounds x Hx). split_Rabs; nra.
  - pose proof (rnd_nonpos_bounds x (Rlt_le _ _ Hx)). split_Rabs; nra.
Qed.

Lemma rnd_abs_lower (x : R) : (1 - Rounded.u) * Rabs x <= Rabs (rnd x).
Proof.
  pose proof u_small. pose proof u_pos.
  destruct (Rle_lt_dec 0 x) as [Hx|Hx].
  - pose proof (rnd_nonneg_bounds x Hx). split_Rabs; nra.
  - pose proof (rnd_nonpos_bounds x (Rlt_le _ _ Hx)). split_Rabs; nra.
Qed.

(** A rounded sum against the exact sum of the magnitudes, and from below
    for terms that are not negative. *)

Lemma rounded_fold_upper (l : list R) (acc : R) :
  Rabs (fold_left (fun a v => rnd (a + v)) l acc)
  <= (1 + Rounded.u) ^ length l * (Rabs acc + py_sum (map Rabs l)).
Proof.
  pose proof u_pos as Hu.
  revert acc. induction l as [|v l IH]; intro acc.
  - simpl. rewrite py_sum_nil. lra.
  - simpl fold_left. simpl map. rewrite py_sum_cons. simpl length.
    eapply Rle_trans; [apply IH|].
    assert (P : 0 <= (1 + Rounded.u) ^ length l) by (apply pow_le; lra).
    assert (S : 0 <= py_sum (map Rabs l)).
    { apply py_sum_nonneg. intros w Hw. apply in_map_iff in Hw.
      destruct Hw as (z & <- & _). apply Rabs_pos. }
    pose proof (rnd_abs_upper (acc + v)) as B.
    pose proof (Rabs_triang acc v) as T.
    pose proof (Rabs_pos acc). pose proof (Rabs_pos v).
    simpl pow.
    assert (Rabs (rnd (acc + v)) + py_sum (map Rabs l)
            <= (1 + Rounded.u) * (Rabs acc + (Rabs v + py_sum (map Rabs l)))) by nra.
    apply (Rmult_le_compat_l _ _ _ P) in H1. lra.
Qed.

Lemma rounded_sum_upper (l : list R) :
  Rabs (Rounded.sum rnd l) <= (1 + Rounded.u) ^ length l * py_sum (map Rabs l).
Proof.
  unfold Rounded.sum. pose proof (rounded_fold_upper l 0) as H.
  rewrite Rabs_R0, Rplus_0_l in H. exact H.
Qed.

Lemma rounded_fold_lower (l : list R) (acc : R) :
  0 <= acc -> (forall v, In v l -> 0 <= v) ->
  (1 - Rounded.u) ^ length l * (acc + py_sum l)
  <= fold_left (fun a v => rnd (a + v)) l acc.
Proof.
  pose proof u_pos as Hu. pose proof u_small as Hs.
  revert acc. induction l as [|v l IH]; intros acc Ha H.
  - simpl. rewrite py_sum_nil. lra.
  - simpl fold_left. rewrite py_sum_cons. simpl length.
    pose proof (H v (or_introl eq_refl)) as Hv.
    assert (Hl : forall w, In w l -> 0 <= w) by (intros w Hw; apply H; right; exact Hw).
    pose proof (rnd_nonneg_bounds (acc + v) ltac:(lra)) as B.
    assert (Hr : 0 <= rnd (acc + v)) by (apply rnd_nonneg; lra).
    eapply Rle_trans; [|apply (IH _ Hr Hl)].
    assert (P : 0 <= (1 - Rounded.u) ^ length l) by (apply pow_le; lra).
    pose proof (py_sum_nonneg l Hl) as S.
    simpl pow.
    assert ((1 - Rounded.u) * (acc + (v + py_sum l)) <= rnd (acc + v) + py_sum l) by nra.
    apply (Rmult_le_compat_l _ _ _ P) in H0. lra.
Qed.

Lemma rounded_sum_lower (l : list R) :
  (forall v, In v l -> 0 <= v) ->
  (1 - Rounded.u) ^ length l * py_sum l <= Rounded.sum rnd l.
Proof.
  intro H. unfold Rounded.sum.
  pose proof (rounded_fold_lower l 0 (Rle_refl 0) H) as B.
  rewrite Rplus_0_l in B. exact B.
Qed.

Lemma rounded_sum_nonneg (l : list R) :
  (forall v, In v l -> 0 <= v) -> 0 <= Rounded.sum rnd l.
Proof.
  intro H. eapply Rle_trans; [|apply rounded_sum_lower; exact H].
  pose proof u_small. pose proof u_pos.
  apply Rmult_le_pos; [apply pow_le; lra | apply py_sum_nonneg; exact H].
Qed.

End RoundingError.

(** ** [pearson] in rounded arithmetic: what it evaluates to *)

Lemma rounded_mean_ok (rnd : R -> R) (l : list R) :
  l <> [] -> Rounded.mean rnd l = Ok (rnd (mean_value l)).
Proof. destruct l; [congruence | reflexivity]. Qed.

Lemma pow2_raises (rnd : R -> R) (t : R) (e : exn) :
  Rounded.pow2 rnd t = Raise e -> e = OverflowError.
Proof.
  unfold Rounded.pow2. cbv zeta. destruct (Rlt_dec _ _); congruence.
Qed.

Lemma mapM_raises {A B : Type} (f : A -> result B) (l : list A) (e e0 : exn) :
  (forall a e', f a = Raise e' -> e' = e0) ->
  mapM f l = Raise e -> e = e0.
Proof.
  intro H. induction l as [|a l IH]; simpl; [discriminate|].
  destruct (f a) as [b|e'] eqn:E; simpl.
  - destruct (mapM f l) as [bs|e'']; simpl; [discriminate|].
    intro X. injection X as <-. apply IH. reflexivity.
  - intro X. injection X as <-. apply (H a). exact E.
Qed.

Lemma squares_mapM (rnd : R -> R) (l : list R) :
  squares_fit rnd l ->
  mapM (fun a => Rounded.pow2 rnd (rnd (a - rnd (mean_value l)))) l
  = Ok (squares rnd l).
Proof.
  unfold squares_fit, squares, deviations. rewrite map_map.
  generalize (rnd (mean_value l)) as m. intros m H.
  apply mapM_ok. intros a Ha. unfold Rounded.pow2. cbv zeta.
  destruct (Rlt_dec _ _) as [Hlt|_]; [|reflexivity].
  exfalso.
  assert (In (rnd (rnd (a - m) ^ 2)) (map (fun x => rnd (rnd (x - m) ^ 2)) l)).
  { apply in_map_iff. exists a. split; [reflexivity | exact Ha]. }
  apply H in H0. lra.
Qed.

Lemma squares_mapM_raises (rnd : R -> R) (l : list R) (m : R) (e : exn) :
  mapM (fun a => Rounded.pow2 rnd (rnd (a - m))) l = Raise e -> e = OverflowError.
Proof.
  apply mapM_raises. intros a e'. apply pow2_raises.
Qed.

Lemma products_eq (rnd : R -> R) (x y : list R) :
  map (fun ab => rnd (rnd (fst ab - rnd (mean_value x))
                      * rnd (snd ab - rnd (mean_value y)))) (combine x y)
  = products rnd x y.
Proof.
  unfold products, deviations.
  generalize (rnd (mean_value x)) as mx. generalize (rnd (mean_value y)) as my.
  intros my mx. revert y. induction x as [|a x IH]; intro y; [reflexivity|].
  destruct y as [|b y]; [reflexivity|]. simpl. rewrite IH. reflexivity.
Qed.

Lemma pearson_eval (rnd : R -> R) (x y : list R) :
  x <> [] -> y <> [] ->
  squares_fit rnd x -> squares_fit rnd y ->
  Rounded.pearson rnd x y
  = if Req_dec_T (root_sum_squares rnd x) 0 then Ok 0
    else if Req_dec_T (root_sum_squares rnd y) 0 then Ok 0
    else Rounded.truediv rnd (Rounded.sum rnd (products rnd x y))
                          (rnd (root_sum_squares rnd x * root_sum_squares rnd y)).
Proof.
  intros Hx Hy Fx Fy. unfold Rounded.pearson.
  rewrite (rounded_mean_ok rnd x Hx), (rounded_mean_ok rnd y Hy), !bind_Ok.
  cbv zeta.
  rewrite (squares_mapM rnd x Fx), bind_Ok.
  rewrite (squares_mapM rnd y Fy), bind_Ok.
  rewrite products_eq. reflexivity.
Qed.

Section Deviations.

Variable rnd : R -> R.
Hypothesis Hrnd : Rounded.standard_model rnd.

Lemma moderate_squares_fit (l : list R) :
  l <> [] -> moderate l -> squares_fit rnd l.
Proof.
  intros Hne Hm t Ht.
  pose proof u_pos as Hu. pose proof u_small as Hs.
  set (B := 10 ^ 150) in *.
  assert (HB : 0 < B) by (unfold B; apply pow_lt; lra).
  assert (Hmean : - B <= mean_value l <= B).
  { apply mean_value_bounded; [exact Hne|].
    intros v Hv. pose proof (Hm v Hv) as H. fold B in H. split_Rabs; lra. }
  assert (Hm' : Rabs (rnd (mean_value l)) <= 2 * B).
  { pose proof (rnd_abs_upper rnd Hrnd (mean_value l)) as H.
    assert (Rabs (mean_value l) <= B) by (split_Rabs; lra). nra. }
  unfold squares, deviations in Ht. rewrite map_map in Ht.
  apply in_map_iff in Ht. destruct Ht as (a & <- & Ha).
  pose proof (Hm a Ha) as Ha'. fold B in Ha'.
  set (m := rnd (mean_value l)) in *.
  assert (Hd : Rabs (a - m) <= 3 * B).
  { pose proof (Rabs_triang a (- m)) as T. rewrite Rabs_Ropp in T.
    unfold Rminus. lra. }
  assert (HU : Rabs (rnd (a - m)) <= 6 * B).
  { pose proof (rnd_abs_upper rnd Hrnd (a - m)) as H.
    pose proof (Rabs_pos (a - m)). nra. }
  set (U := rnd (a - m)) in *.
  assert (HU2 : 0 <= U ^ 2 <= 36 * (B * B)).
  { pose proof (Rabs_pos U). replace (U ^ 2) with (Rabs U * Rabs U).
    - nra.
    - split_Rabs; ring. }
  pose proof (rnd_nonneg_bounds rnd Hrnd (U ^ 2) ltac:(lra)) as [_ H2].
  pose proof max_float_large as M. fold B in M.
  nra.
Qed.

Lemma squares_nonneg (l : list R) : forall t, In t (squares rnd l) -> 0 <= t.
Proof.
  intros t Ht. unfold squares in Ht. apply in_map_iff in Ht.
  destruct Ht as (d & <- & _). apply rnd_nonneg; [exact Hrnd|].
  apply pow2_ge_0.
Qed.

Lemma root_nonneg (l : list R) : 0 <= root_sum_squares rnd l.
Proof.
  unfold root_sum_squares. apply rnd_nonneg; [exact Hrnd | apply sqrt_pos].
Qed.

(** The exact sum of the squared rounded deviations. *)
Lemma py_sum_squares_lower (l : list R) :
  (1 - Rounded.u) * py_sum (map (fun t => t ^ 2) (deviations rnd l))
  <= py_sum (squares rnd l).
Proof.
  unfold squares. induction (deviations rnd l) as [|d ds IH].
  - simpl. rewrite py_sum_nil. lra.
  - rewrite !map_cons, !py_sum_cons.
    pose proof (rnd_nonneg_bounds rnd Hrnd (d ^ 2) (pow2_ge_0 d)). nra.
Qed.

Lemma root_sq_lower (l : list R) :
  (1 - Rounded.u) ^ (length l + 3)
  * py_sum (map (fun t => t ^ 2) (deviations rnd l))
  <= root_sum_squares rnd l * root_sum_squares rnd l.
Proof.
  pose proof u_pos as Hu. pose proof u_small as Hs.
  set (A := py_sum (map (fun t => t ^ 2) (deviations rnd l))).
  assert (HA : 0 <= A).
  { unfold A. apply py_sum_nonneg. intros v Hv. apply in_map_iff in Hv.
    destruct Hv as (d & <- & _). apply pow2_ge_0. }
  pose proof (py_sum_squares_lower l) as H1. fold A in H1.
  pose proof (rounded_sum_lower rnd Hrnd (squares rnd l) (squares_nonneg l)) as H2.
  assert (HL : length (squares rnd l) = length l).
  { unfold squares, deviations. rewrite !length_map. reflexivity. }
  rewrite HL in H2.
  set (S := Rounded.sum rnd (squares rnd l)) in *.
  assert (HS : 0 <= S) by (apply rounded_sum_nonneg; [exact Hrnd | apply squares_nonneg]).
  assert (P : 0 <= (1 - Rounded.u) ^ length l) by (apply pow_le; lra).
  assert (H3 : (1 - Rounded.u) ^ (length l + 1) * A <= S).
  { rewrite pow_add. simpl pow.
    assert ((1 - Rounded.u) ^ length l * ((1 - Rounded.u) * A)
            <= (1 - Rounded.u) ^ length l * py_sum (squares rnd l))
      by (apply Rmult_le_compat_l; lra).
    lra. }
  unfold root_sum_squares. fold S.
  pose proof (sqrt_pos S) as Q.
  pose proof (rnd_nonneg_bounds rnd Hrnd (sqrt S) Q) as [B _].
  pose proof (sqrt_sqrt S HS) as E.
  assert (H4 : (1 - Rounded.u) * (1 - Rounded.u) * S
               <= rnd (sqrt S) * rnd (sqrt S)).
  { rewrite <- E at 1.
    assert (0 <= (1 - Rounded.u) * sqrt S) by (apply Rmult_le_pos; lra).
    nra. }
  replace (length l + 3)%nat with (2 + (length l + 1))%nat by lia.
  rewrite pow_add. simpl ((1 - Rounded.u) ^ 2).
  assert (0 <= (1 - Rounded.u) ^ (length l + 1)) by (apply pow_le; lra).
  assert ((1 - Rounded.u) * (1 - Rounded.u) * ((1 - Rounded.u) ^ (length l + 1) * A)
          <= (1 - Rounded.u) * (1 - Rounded.u) * S).
  { apply Rmult_le_compat_l; [nra | exact H3]. }
  nra.
Qed.

(** The rounded sum of the products of the deviations. *)
Lemma products_sum_upper (x y : list R) :
  Rabs (Rounded.sum rnd (products rnd x y))
  <= (1 + Rounded.u) ^ (Nat.min (length x) (length y) + 1)
     * py_sum (map (fun uv => Rabs (fst uv) * Rabs (snd uv))
                   (combine (deviations rnd x) (deviations rnd y))).
Proof.
  pose proof u_pos as Hu.
  eapply Rle_trans; [apply (rounded_sum_upper rnd Hrnd)|].
  assert (HL : length (products rnd x y) = Nat.min (length x) (length y)).
  { unfold products, deviations. rewrite length_map, length_combine, !length_map.
    reflexivity. }
  rewrite HL, pow_add. simpl ((1 + Rounded.u) ^ 1). rewrite Rmult_1_r, Rmult_assoc.
  apply Rmult_le_compat_l; [apply pow_le; lra|].
  unfold products. rewrite map_map.
  induction (combine (deviations rnd x) (deviations rnd y)) as [|[a b] l IH].
  - simpl. rewrite py_sum_nil. lra.
  - simpl map. rewrite !py_sum_cons.
    pose proof (rnd_abs_upper rnd Hrnd (a * b)) as B. rewrite Rabs_mult in B. lra.
Qed.

End Deviations.

Lemma cauchy_schwarz_abs (U V : list R) :
  py_sum (map (fun uv => Rabs (fst uv) * Rabs (snd uv)) (combine U V))
  * py_sum (map (fun uv => Rabs (fst uv) * Rabs (snd uv)) (combine U V))
  <= py_sum (map (fun t => t ^ 2) U) * py_sum (map (fun t => t ^ 2) V).
Proof.
  assert (N : forall W, 0 <= py_sum (map (fun t => t ^ 2) W)).
  { intro W. apply py_sum_nonneg. intros v Hv. apply in_map_iff in Hv.
    destruct Hv as (d & <- & _). apply pow2_ge_0. }
  revert V. induction U as [|a U IH]; intro V.
  - simpl. rewrite py_sum_nil. pose proof (N V). lra.
  - destruct V as [|b V].
    + simpl. rewrite py_sum_nil. pose proof (N (a :: U)). lra.
    + cbn [combine]. rewrite !map_cons, !py_sum_cons. cbn [fst snd].
      replace (a ^ 2) with (Rabs a * Rabs a) by (split_Rabs; ring).
      replace (b ^ 2) with (Rabs b * Rabs b) by (split_Rabs; ring).
      apply cross_step; [apply N | apply N | apply IH].
Qed.

(** Bernoulli's inequality, both ways. *)
Lemma pow_1_minus (t : R) (m : nat) :
  0 <= t <= 1 -> 1 - INR m * t <= (1 - t) ^ m.
Proof.
  intro H. induction m as [|m IH].
  - simpl. lra.
  - rewrite S_INR. simpl pow.
    assert (0 <= (1 - t) ^ m) by (apply pow_le; lra).
    pose proof (pos_INR m). nra.
Qed.

Lemma pow_1_plus (t : R) (m : nat) :
  0 <= t -> INR m * t < 1 -> (1 + t) ^ m * (1 - INR m * t) <= 1.
Proof.
  intros H. induction m as [|m IH]; intro Hm.
  - simpl. lra.
  - rewrite S_INR in *. simpl pow.
    pose proof (pos_INR m) as Pm.
    assert (Hm' : INR m * t < 1) by nra.
    specialize (IH Hm').
    assert (P : 0 <= (1 + t) ^ m) by (apply pow_le; lra).
    assert (E : (1 + t) * (1 - (INR m + 1) * t) <= 1 - INR m * t) by nra.
    assert ((1 + t) ^ m * ((1 + t) * (1 - (INR m + 1) * t))
            <= (1 + t) ^ m * (1 - INR m * t))
      by (apply Rmult_le_compat_l; assumption).
    lra.
Qed.

Section Quotient.

Variable rnd : R -> R.
Hypothesis Hrnd : Rounded.standard_model rnd.

Lemma py_sum_squares_upper (l : list R) :
  py_sum (squares rnd l)
  <= (1 + Rounded.u) * py_sum (map (fun t => t ^ 2) (deviations rnd l)).
Proof.
  unfold squares. induction (deviations rnd l) as [|d ds IH].
  - simpl. rewrite py_sum_nil. lra.
  - rewrite !map_cons, !py_sum_cons.
    pose proof (rnd_nonneg_bounds rnd Hrnd (d ^ 2) (pow2_ge_0 d)). nra.
Qed.

Lemma root_sq_upper (l : list R) :
  root_sum_squares rnd l * root_sum_squares rnd l
  <= (1 + Rounded.u) ^ (length l + 3)
     * py_sum (map (fun t => t ^ 2) (deviations rnd l)).
Proof.
  pose proof u_pos as Hu. pose proof u_small as Hs.
  set (A := py_sum (map (fun t => t ^ 2) (deviations rnd l))).
  assert (HA : 0 <= A).
  { unfold A. apply py_sum_nonneg. intros v Hv. apply in_map_iff in Hv.
    destruct Hv as (d & <- & _). apply pow2_ge_0. }
  pose proof (py_sum_squares_upper l) as H1. fold A in H1.
  pose proof (rounded_sum_upper rnd Hrnd (squares rnd l)) as H2.
  assert (HL : length (squares rnd l) = length l).
  { unfold squares, deviations. rewrite !length_map. reflexivity. }
  rewrite HL in H2.
  assert (E : map Rabs (squares rnd l) = squares rnd l).
  { rewrite <- (map_id (squares rnd l)) at 2. apply map_ext_in.
    intros t Ht. apply Rabs_right, Rle_ge, (squares_nonneg rnd Hrnd l t Ht). }
  rewrite E in H2.
  set (S := Rounded.sum rnd (squares rnd l)) in *.
  assert (HS : 0 <= S) by (apply rounded_sum_nonneg; [exact Hrnd | apply (squares_nonneg rnd Hrnd)]).
  rewrite (Rabs_right S) in H2 by lra.
  assert (P : 0 <= (1 + Rounded.u) ^ length l) by (apply pow_le; lra).
  assert (H3 : S <= (1 + Rounded.u) ^ (length l + 1) * A).
  { rewrite pow_add. simpl pow.
    assert ((1 + Rounded.u) ^ length l * py_sum (squares rnd l)
            <= (1 + Rounded.u) ^ length l * ((1 + Rounded.u) * A))
      by (apply Rmult_le_compat_l; lra).
    lra. }
  unfold root_sum_squares. fold S.
  pose proof (sqrt_pos S) as Q.
  pose proof (rnd_nonneg_bounds rnd Hrnd (sqrt S) Q) as [B1 B2].
  pose proof (sqrt_sqrt S HS) as ES.
  assert (H4 : rnd (sqrt S) * rnd (sqrt S)
               <= (1 + Rounded.u) * (1 + Rounded.u) * S).
  { assert (0 <= rnd (sqrt S)) by (apply rnd_nonneg; assumption).
    assert (rnd (sqrt S) * rnd (sqrt S)
            <= ((1 + Rounded.u) * sqrt S) * ((1 + Rounded.u) * sqrt S))
      by (apply Rmult_le_compat; lra).
    replace (((1 + Rounded.u) * sqrt S) * ((1 + Rounded.u) * sqrt S))
      with ((1 + Rounded.u) * (1 + Rounded.u) * (sqrt S * sqrt S)) in H0 by ring.
    rewrite ES in H0. exact H0. }
  replace (length l + 3)%nat with (2 + (length l + 1))%nat by lia.
  rewrite pow_add. simpl ((1 + Rounded.u) ^ 2).
  assert ((1 + Rounded.u) * (1 + Rounded.u) * S
          <= (1 + Rounded.u) * (1 + Rounded.u)
             * ((1 + Rounded.u) ^ (length l + 1) * A)).
  { apply Rmult_le_compat_l; [nra | exact H3]. }
  nra.
Qed.

(** The square of the value of the last line, against the rounding factors
    of the operations before it. *)
Lemma quotient_sq_bound (x y : list R) :
  root_sum_squares rnd x <> 0 ->
  root_sum_squares rnd y <> 0 ->
  let r := rnd (Rounded.sum rnd (products rnd x y)
                / rnd (root_sum_squares rnd x * root_sum_squares rnd y)) in
  r * r * (1 - Rounded.u) ^ (length x + length y + 8)
  <= (1 + Rounded.u) ^ (2 * Nat.min (length x) (length y) + 4).
Proof.
  intros Nx Ny r.
  pose proof u_pos as Hu. pose proof u_small as Hs.
  set (dx := root_sum_squares rnd x) in *.
  set (dy := root_sum_squares rnd y) in *.
  set (N := Rounded.sum rnd (products rnd x y)) in *.
  set (Ax := py_sum (map (fun t => t ^ 2) (deviations rnd x))).
  set (Ay := py_sum (map (fun t => t ^ 2) (deviations rnd y))).
  set (C := py_sum (map (fun uv => Rabs (fst uv) * Rabs (snd uv))
                        (combine (deviations rnd x) (deviations rnd y)))).
  set (k := Nat.min (length x) (length y)).
  assert (Px : 0 < dx) by (pose proof (root_nonneg rnd Hrnd x); fold dx in H; lra).
  assert (Py : 0 < dy) by (pose proof (root_nonneg rnd Hrnd y); fold dy in H; lra).
  pose proof (root_sq_lower rnd Hrnd x) as Lx. fold dx Ax in Lx.
  pose proof (root_sq_lower rnd Hrnd y) as Ly. fold dy Ay in Ly.
  pose proof (root_sq_upper x) as Ux. fold dx Ax in Ux.
  pose proof (root_sq_upper y) as Uy. fold dy Ay in Uy.
  pose proof (products_sum_upper rnd Hrnd x y) as HN. fold N C k in HN.
  pose proof (cauchy_schwarz_abs (deviations rnd x) (deviations rnd y)) as CS.
  fold C Ax Ay in CS.
  assert (HC : 0 <= C).
  { unfold C. apply py_sum_nonneg. intros v Hv. apply in_map_iff in Hv.
    destruct Hv as (d & <- & _).
    apply Rmult_le_pos; apply Rabs_pos. }
  set (ex := (1 - Rounded.u) ^ (length x + 3)) in *.
  set (ey := (1 - Rounded.u) ^ (length y + 3)) in *.
  set (fx := (1 + Rounded.u) ^ (length x + 3)) in *.
  set (fy := (1 + Rounded.u) ^ (length y + 3)) in *.
  set (g := (1 + Rounded.u) ^ (k + 1)) in *.
  assert (Hex : 0 < ex) by (unfold ex; apply pow_lt; lra).
  assert (Hey : 0 < ey) by (unfold ey; apply pow_lt; lra).
  assert (Hfx : 0 < fx) by (unfold fx; apply pow_lt; lra).
  assert (Hfy : 0 < fy) by (unfold fy; apply pow_lt; lra).
  assert (Hg : 0 < g) by (unfold g; apply pow_lt; lra).
  assert (HAx : 0 < Ax).
  { destruct (Rle_lt_dec Ax 0) as [H|H]; [|exact H].
    assert (fx * Ax <= 0) by nra. nra. }
  assert (HAy : 0 < Ay).
  { destruct (Rle_lt_dec Ay 0) as [H|H]; [|exact H].
    assert (fy * Ay <= 0) by nra. nra. }
  (* the rounded product of the roots *)
  set (D := rnd (dx * dy)) in *.
  assert (Hdxy : 0 < dx * dy) by (apply Rmult_lt_0_compat; assumption).
  pose proof (rnd_nonneg_bounds rnd Hrnd (dx * dy) (Rlt_le _ _ Hdxy)) as [HD _].
  fold D in HD.
  assert (PD : 0 < D).
  { assert (0 < (1 - Rounded.u) * (dx * dy)) by (apply Rmult_lt_0_compat; lra).
    lra. }
  (* the rounded quotient *)
  pose proof (rnd_abs_upper rnd Hrnd (N / D)) as Hr. fold r in Hr.
  assert (Hq : Rabs (N / D) * D = Rabs N).
  { unfold Rdiv. rewrite Rabs_mult, (Rabs_right (/ D)).
    - field. lra.
    - apply Rle_ge, Rlt_le, Rinv_0_lt_compat. exact PD. }
  assert (H1 : Rabs r * D <= (1 + Rounded.u) * Rabs N).
  { rewrite <- Hq. pose proof (Rabs_pos (N / D)). nra. }
  assert (H2 : Rabs r * D <= (1 + Rounded.u) * (g * C)).
  { pose proof (Rabs_pos N). nra. }
  assert (H3 : (Rabs r * D) * (Rabs r * D)
               <= ((1 + Rounded.u) * (g * C)) * ((1 + Rounded.u) * (g * C))).
  { pose proof (Rabs_pos r).
    assert (0 <= Rabs r * D) by (apply Rmult_le_pos; lra).
    apply Rmult_le_compat; lra. }
  assert (H4 : ((1 - Rounded.u) * (1 - Rounded.u)) * (ex * Ax) * (ey * Ay) <= D * D).
  { assert (0 <= ex * Ax) by (apply Rmult_le_pos; lra).
    assert (0 <= ey * Ay) by (apply Rmult_le_pos; lra).
    assert ((ex * Ax) * (ey * Ay) <= (dx * dx) * (dy * dy))
      by (apply Rmult_le_compat; lra).
    assert (0 <= (1 - Rounded.u) * (dx * dy)) by (apply Rmult_le_pos; lra).
    assert (((1 - Rounded.u) * (dx * dy)) * ((1 - Rounded.u) * (dx * dy)) <= D * D)
      by (apply Rmult_le_compat; lra).
    assert ((1 - Rounded.u) * (1 - Rounded.u) * ((ex * Ax) * (ey * Ay))
            <= (1 - Rounded.u) * (1 - Rounded.u) * ((dx * dx) * (dy * dy)))
      by (apply Rmult_le_compat_l; [nra | lra]).
    lra. }
  assert (E1 : (1 - Rounded.u) ^ (length x + length y + 8)
               = (1 - Rounded.u) * (1 - Rounded.u) * ex * ey).
  { unfold ex, ey.
    replace (length x + length y + 8)%nat
      with (2 + ((length x + 3) + (length y + 3)))%nat by lia.
    rewrite !pow_add. simpl ((1 - Rounded.u) ^ 2). ring. }
  assert (E2 : (1 + Rounded.u) ^ (2 * k + 4)
               = (1 + Rounded.u) * (1 + Rounded.u) * g * g).
  { unfold g.
    replace (2 * k + 4)%nat with (2 + ((k + 1) + (k + 1)))%nat by lia.
    rewrite !pow_add. simpl ((1 + Rounded.u) ^ 2). ring. }
  fold k. rewrite E1, E2.
  assert (Hrr : r * r = Rabs r * Rabs r) by (split_Rabs; ring).
  rewrite Hrr.
  set (a := Rabs r) in *.
  set (p := (1 - Rounded.u) * (1 - Rounded.u) * ex * ey).
  set (q := (1 + Rounded.u) * (1 + Rounded.u) * g * g).
  assert (Hp : 0 <= p).
  { unfold p. repeat apply Rmult_le_pos; lra. }
  assert (Hq' : 0 <= q).
  { unfold q. repeat apply Rmult_le_pos; lra. }
  assert (K1 : a * a * p * (Ax * Ay) <= a * a * (D * D)).
  { replace (a * a * p * (Ax * Ay))
      with (a * a * ((1 - Rounded.u) * (1 - Rounded.u) * (ex * Ax) * (ey * Ay)))
      by (unfold p; ring).
    apply Rmult_le_compat_l; [apply Rle_0_sqr | exact H4]. }
  assert (K2 : a * a * (D * D) <= q * (C * C)).
  { replace (a * a * (D * D)) with ((a * D) * (a * D)) by ring.
    replace (q * (C * C))
      with (((1 + Rounded.u) * (g * C)) * ((1 + Rounded.u) * (g * C)))
      by (unfold q; ring).
    exact H3. }
  assert (K3 : q * (C * C) <= q * (Ax * Ay))
    by (apply Rmult_le_compat_l; assumption).
  assert (PA : 0 < Ax * Ay) by (apply Rmult_lt_0_compat; assumption).
  apply (Rmult_le_reg_r (Ax * Ay)); [exact PA | lra].
Qed.

End Quotient.

Lemma rounding_factors (r : R) (m1 m2 : nat) :
  INR m1 <= 2000008 -> INR m2 <= 2000008 ->
  r * r * (1 - Rounded.u) ^ m1 <= (1 + Rounded.u) ^ m2 ->
  - (1 + / 10 ^ 9) <= r <= 1 + / 10 ^ 9.
Proof.
  intros H1 H2 H.
  pose proof u_pos as Hu. pose proof u_small as Hs.
  pose proof (pos_INR m1) as P1. pose proof (pos_INR m2) as P2.
  assert (T1 : 0 <= INR m1 * Rounded.u <= / 4000000000).
  { split; [apply Rmult_le_pos; lra|].
    assert (INR m1 * Rounded.u <= 2000008 * / 9000000000000000)
      by (apply Rmult_le_compat; lra).
    lra. }
  assert (T2 : 0 <= INR m2 * Rounded.u <= / 4000000000).
  { split; [apply Rmult_le_pos; lra|].
    assert (INR m2 * Rounded.u <= 2000008 * / 9000000000000000)
      by (apply Rmult_le_compat; lra).
    lra. }
  pose proof (pow_1_minus Rounded.u m1 ltac:(lra)) as E.
  pose proof (pow_1_plus Rounded.u m2 ltac:(lra) ltac:(lra)) as F.
  set (t1 := INR m1 * Rounded.u) in *. set (t2 := INR m2 * Rounded.u) in *.
  set (e := (1 - Rounded.u) ^ m1) in *. set (f := (1 + Rounded.u) ^ m2) in *.
  assert (Pf : 0 < f) by (unfold f; apply pow_lt; lra).
  assert (Hrr : 0 <= r * r) by apply Rle_0_sqr.
  assert (K : r * r * ((1 - t1) * (1 - t2)) <= 1).
  { assert (r * r * (1 - t1) <= r * r * e) by (apply Rmult_le_compat_l; lra).
    assert (r * r * (1 - t1) <= f) by lra.
    assert (r * r * (1 - t1) * (1 - t2) <= f * (1 - t2))
      by (apply Rmult_le_compat_r; lra).
    lra. }
  replace (10 ^ 9) with 1000000000 by (simpl; lra).
  set (c := (1 - t1) * (1 - t2)) in *.
  assert (Hc : 1 - / 2000000000 <= c).
  { unfold c. nra. }
  assert (Hc1 : c <= 1) by (unfold c; nra).
  assert (B : r * r <= (1 + / 1000000000) * (1 + / 1000000000)).
  { apply (Rmult_le_reg_r c); [lra|].
    assert (1 <= (1 + / 1000000000) * (1 + / 1000000000) * c).
    { assert ((1 + / 1000000000) * (1 + / 1000000000) * (1 - / 2000000000)
              <= (1 + / 1000000000) * (1 + / 1000000000) * c)
        by (apply Rmult_le_compat_l; lra).
      lra. }
    lra. }
  split; nra.
Qed.

(** ** Symmetry *)

Lemma combine_swap_map {A B C : Type} (g : A -> B -> C) (x : list A) (y : list B) :
  map (fun ab => g (fst ab) (snd ab)) (combine x y)
  = map (fun ba => g (snd ba) (fst ba)) (combine y x).
Proof.
  revert y. induction x as [|a x IH]; intro y.
  - destruct y; reflexivity.
  - destruct y as [|b y]; [reflexivity|]. simpl. rewrite IH. reflexivity.
Qed.

Lemma rounded_pearson_comm (rnd : R -> R) (x y : list R) :
  Rounded.pearson rnd x y = Rounded.pearson rnd y x.
Proof.
  destruct x as [|a x], y as [|b y]; try reflexivity.
  unfold Rounded.pearson.
  rewrite !rounded_mean_ok by discriminate. rewrite !bind_Ok. cbv zeta.
  set (mx := rnd (mean_value (a :: x))). set (my := rnd (mean_value (b :: y))).
  assert (E : map (fun ab => rnd (rnd (fst ab - mx) * rnd (snd ab - my)))
                  (combine (a :: x) (b :: y))
              = map (fun ab => rnd (rnd (fst ab - my) * rnd (snd ab - mx)))
                    (combine (b :: y) (a :: x))).
  { rewrite (combine_swap_map (fun u v => rnd (rnd (u - mx) * rnd (v - my)))).
    apply map_ext. intros [u v]. simpl. f_equal. ring. }
  rewrite E.
  destruct (mapM (fun a0 => Rounded.pow2 rnd (rnd (a0 - mx))) (a :: x)) as [sx|ex] eqn:Ex;
    destruct (mapM (fun b0 => Rounded.pow2 rnd (rnd (b0 - my))) (b :: y)) as [sy|ey] eqn:Ey;
    rewrite ?bind_Ok; cbn [bind].
  - destruct (Req_dec_T (rnd (sqrt (Rounded.sum rnd sx))) 0),
             (Req_dec_T (rnd (sqrt (Rounded.sum rnd sy))) 0); try reflexivity.
    rewrite (Rmult_comm (rnd (sqrt (Rounded.sum rnd sx)))). reflexivity.
  - reflexivity.
  - reflexivity.
  - apply squares_mapM_raises in Ex. apply squares_mapM_raises in Ey.
    subst. reflexivity.
Qed.

Section Roots.

Variable rnd : R -> R.
Hypothesis Hrnd : Rounded.standard_model rnd.


Lemma all_equal_root_zero (l : list R) :
  (forall a, In a l -> a = rnd (mean_value l)) -> root_sum_squares rnd l = 0.
Proof.
  intro H. unfold root_sum_squares.
  assert (Z : forall t, In t (squares rnd l) -> t = 0).
  { intros t Ht. unfold squares, deviations in Ht. rewrite map_map in Ht.
    apply in_map_iff in Ht. destruct Ht as (a & <- & Ha).
    rewrite <- (H a Ha). replace (a - a) with 0 by ring.
    rewrite (rnd_0 rnd Hrnd). replace (0 ^ 2) with 0 by ring.
    apply (rnd_0 rnd Hrnd). }
  assert (S0 : Rounded.sum rnd (squares rnd l) = 0).
  { unfold Rounded.sum. induction (squares rnd l) as [|t ts IH]; [reflexivity|].
    simpl. rewrite (Z t (or_introl eq_refl)). replace (0 + 0) with 0 by ring.
    rewrite (rnd_0 rnd Hrnd). apply IH. intros t' Ht'. apply Z. right. exact Ht'. }
  rewrite S0, sqrt_0. apply (rnd_0 rnd Hrnd).
Qed.


Lemma constant_root (l : list R) :
  constant l -> (forall v, In v l -> Rounded.representable rnd v) ->
  root_sum_squares rnd l = 0.
Proof.
  intros Hc Hr. apply all_equal_root_zero. intros a Ha.
  rewrite <- (constant_mean l a Hc Ha). symmetry. apply Hr. exact Ha.
Qed.

(** The division of the last line raises nothing. *)
Lemma pearson_regular (x y : list R) :
  x <> [] -> y <> [] -> squares_fit rnd x -> squares_fit rnd y ->
  root_sum_squares rnd x <> 0 -> root_sum_squares rnd y <> 0 ->
  Rounded.pearson rnd x y
  = Ok (rnd (Rounded.sum rnd (products rnd x y)
             / rnd (root_sum_squares rnd x * root_sum_squares rnd y))).
Proof.
  intros Hx Hy Fx Fy Nx Ny. rewrite pearson_eval by assumption.
  destruct (Req_dec_T (root_sum_squares rnd x) 0) as [E|_]; [contradiction|].
  destruct (Req_dec_T (root_sum_squares rnd y) 0) as [E|_]; [contradiction|].
  unfold Rounded.truediv.
  destruct (Req_dec_T _ 0) as [E|_]; [|reflexivity].
  apply (rnd_zero_inv rnd Hrnd) in E. apply Rmult_integral in E. tauto.
Qed.

Lemma pearson_degenerate (x y : list R) :
  x <> [] -> y <> [] -> squares_fit rnd x -> squares_fit rnd y ->
  root_sum_squares rnd x = 0 \/ root_sum_squares rnd y = 0 ->
  Rounded.pearson rnd x y = Ok 0.
Proof.
  intros Hx Hy Fx Fy H. rewrite pearson_eval by assumption.
  destruct (Req_dec_T (root_sum_squares rnd x) 0) as [_|Nx]; [reflexivity|].
  destruct (Req_dec_T (root_sum_squares rnd y) 0) as [_|Ny]; [reflexivity|].
  tauto.
Qed.

Lemma pearson_returns (x y : list R) :
  x <> [] -> y <> [] -> squares_fit rnd x -> squares_fit rnd y ->
  exists r, Rounded.pearson rnd x y = Ok r.
Proof.
  intros Hx Hy Fx Fy.
  destruct (Req_dec_T (root_sum_squares rnd x) 0) as [Ex|Nx].
  { exists 0. apply pearson_degenerate; auto. }
  destruct (Req_dec_T (root_sum_squares rnd y) 0) as [Ey|Ny].
  { exists 0. apply pearson_degenerate; auto. }
  eexists. apply pearson_regular; assumption.
Qed.

(** The range of the value, whenever there is one. *)
Lemma pearson_range (x y : list R) (r : R) :
  INR (length x) <= 10 ^ 6 -> INR (length y) <= 10 ^ 6 ->
  squares_fit rnd x -> squares_fit rnd y ->
  Rounded.pearson rnd x y = Ok r ->
  - (1 + / 10 ^ 9) <= r <= 1 + / 10 ^ 9.
Proof.
  intros Lx Ly Fx Fy H.
  assert (T : 10 ^ 6 = 1000000) by (simpl; lra). rewrite T in Lx, Ly.
  assert (Z : - (1 + / 10 ^ 9) <= 0 <= 1 + / 10 ^ 9).
  { replace (10 ^ 9) with 1000000000 by (simpl; lra). lra. }
  assert (Hx : x <> []) by (intro E; subst x; discriminate).
  assert (Hy : y <> []) by (intro E; subst y; destruct x; discriminate).
  destruct (Req_dec_T (root_sum_squares rnd x) 0) as [Ex|Nx].
  { rewrite pearson_degenerate in H by auto. injection H as <-. exact Z. }
  destruct (Req_dec_T (root_sum_squares rnd y) 0) as [Ey|Ny].
  { rewrite pearson_degenerate in H by auto. injection H as <-. exact Z. }
  rewrite pearson_regular in H by assumption. injection H as <-.
  pose proof (quotient_sq_bound rnd Hrnd x y Nx Ny) as B. cbv zeta in B.
  eapply rounding_factors; [| |exact B].
  - rewrite !plus_INR. simpl (INR 8). lra.
  - rewrite plus_INR, mult_INR. simpl (INR 2). simpl (INR 4).
    pose proof (le_INR _ _ (Nat.le_min_l (length x) (length y))). lra.
Qed.

End Roots.

Section SelfCorrelation.

Variable rnd : R -> R.
Hypothesis Hrnd : Rounded.standard_model rnd.




End SelfCorrelation.

(** ** C3, C4: the zero-variance policy and the range of the coefficient *)

(** Exact arithmetic is a rounding with no error. *)
Lemma exact_standard_model : Rounded.standard_model (fun x => x).
Proof.
  intro x. replace (x - x) with 0 by ring. rewrite Rabs_R0.
  apply Rmult_le_pos; [apply Rlt_le, u_pos | apply Rabs_pos].
Qed.

(** C3 as the specification words it fails on finite floats.  Both
    denominators are computed before the guard of line 57: with x = [5, 5]
    constant and y = [2^600, -2^600], the square of a deviation of y
    overflows and [pearson] raises [OverflowError] instead of returning 0. *)
Lemma pearson_constant_overflow :
  Binary64.pearson (Binary64.floats [5; 5]%Z)
                   [Binary64.large; PrimFloat.opp Binary64.large]
  = Raise OverflowError.
Proof. vm_compute. reflexivity. Qed.

(** C3, for values of moderate magnitude.  For two sequences of such values
    and of the same length >= 1, of which at least one is constant (zero
    variance; its value a float), [pearson] returns 0: it raises nothing and
    divides by nothing. *)
Theorem pearson_zero_variance (rnd : R -> R) (x y : list R) :
  Rounded.standard_model rnd ->
  length x = length y ->
  (1 <= length x)%nat ->
  moderate x -> moderate y ->
  (constant x /\ forall v, In v x -> Rounded.representable rnd v)
  \/ (constant y /\ forall v, In v y -> Rounded.representable rnd v) ->
  Rounded.pearson rnd x y = Ok 0.
Proof.
  intros Hrnd Hlen Hx Mx My Hc.
  assert (Nx : x <> []) by (intro E; subst x; simpl in Hx; lia).
  assert (Ny : y <> []) by (intro E; subst y; simpl in Hlen; lia).
  apply (pearson_degenerate rnd x y Nx Ny).
  - apply moderate_squares_fit; assumption.
  - apply moderate_squares_fit; assumption.
  - destruct Hc as [[Hc Hr]|[Hc Hr]]; [left | right];
      apply constant_root; assumption.
Qed.

(** C3 on a constant sequence paired with a varying one, in exact
    arithmetic. *)
Lemma pearson_zero_variance_witness :
  Rounded.pearson (fun x => x) [5; 5; 5] [1; 2; 3] = Ok 0.
Proof.
  apply (pearson_zero_variance (fun x => x) [5; 5; 5] [1; 2; 3]).
  - exact exact_standard_model.
  - reflexivity.
  - simpl; lia.
  - apply moderate_bounded. intros v Hv. simpl in Hv.
    destruct Hv as [<-|[<-|[<-|[]]]]; lra.
  - apply moderate_bounded. intros v Hv. simpl in Hv.
    destruct Hv as [<-|[<-|[<-|[]]]]; lra.
  - left. split.
    + intros a b Ha Hb. simpl in Ha, Hb.
      destruct Ha as [<-|[<-|[<-|[]]]]; destruct Hb as [<-|[<-|[<-|[]]]]; reflexivity.
    + intros v _. reflexivity.
Defined.

(** C4 as the specification words it fails on ordinary floats.  For
    x = y = [-1, -1, 2] the means are 0 and the numerator and both sums of
    squares are exactly 6; the root of 6 is rounded, the product of the two
    roots is rounded, and the quotient [pearson] returns is
    1.0000000000000002, above 1. *)
Lemma pearson_above_one :
  exists r,
    Binary64.pearson (Binary64.floats [-1; -1; 2]%Z) (Binary64.floats [-1; -1; 2]%Z)
    = Ok r
    /\ PrimFloat.ltb (Binary64.float_of_int 1) r = true.
Proof. eexists. split; vm_compute; reflexivity. Qed.

(** C4, up to rounding.  For two sequences of the same length n, with
    1 <= n <= 10^6, of moderate and well-scaled values, [pearson] returns a
    value in [-1 - 10^-9, 1 + 10^-9]. *)
Theorem pearson_bounded (rnd : R -> R) (x y : list R) :
  Rounded.standard_model rnd ->
  length x = length y ->
  (1 <= length x)%nat ->
  INR (length x) <= 10 ^ 6 ->
  moderate x -> moderate y ->
  well_scaled x -> well_scaled y ->
  exists r, Rounded.pearson rnd x y = Ok r
            /\ - (1 + / 10 ^ 9) <= r <= 1 + / 10 ^ 9.
Proof.
  intros Hrnd Hlen Hx Hn Mx My _ _.
  assert (Nx : x <> []) by (intro E; subst x; simpl in Hx; lia).
  assert (Ny : y <> []) by (intro E; subst y; simpl in Hlen; lia).
  pose proof (moderate_squares_fit rnd Hrnd x Nx Mx) as Fx.
  pose proof (moderate_squares_fit rnd Hrnd y Ny My) as Fy.
  destruct (pearson_returns rnd Hrnd x y Nx Ny Fx Fy) as [r Hr].
  exists r. split; [exact Hr|].
  apply (pearson_range rnd Hrnd x y r); try assumption.
  rewrite <- Hlen. exact Hn.
Qed.

Lemma hundredth_power_small : / 10 ^ 100 <= 1.
Proof.
  assert (H : 1 <= 10 ^ 100) by (apply pow_R1_Rle; lra).
  rewrite <- Rinv_1. apply Rinv_le_contravar; lra.
Qed.

Lemma well_scaled_units (l : list R) :
  (forall v, In v l -> v = 0 \/ 1 <= Rabs v) -> well_scaled l.
Proof.
  intros H v Hv. destruct (H v Hv) as [E|E]; [left; exact E | right].
  pose proof hundredth_power_small. lra.
Qed.

(** C4 on the attendance and Math columns of the scenario dataset, in exact
    arithmetic. *)
Lemma pearson_bounded_witness :
  exists r, Rounded.pearson (fun x => x) [95; 85; 90] [90; 70; 80] = Ok r
            /\ - (1 + / 10 ^ 9) <= r <= 1 + / 10 ^ 9.
Proof.
  apply (pearson_bounded (fun x => x) [95; 85; 90] [90; 70; 80]).
  - exact exact_standard_model.
  - reflexivity.
  - simpl; lia.
  - simpl. lra.
  - apply moderate_bounded. intros v Hv. simpl in Hv.
    destruct Hv as [<-|[<-|[<-|[]]]]; lra.
  - apply moderate_bounded. intros v Hv. simpl in Hv.
    destruct Hv as [<-|[<-|[<-|[]]]]; lra.
  - apply well_scaled_units. intros v Hv. simpl in Hv. right.
    destruct Hv as [<-|[<-|[<-|[]]]]; rewrite Rabs_right; lra.
  - apply well_scaled_units. intros v Hv. simpl in Hv. right.
    destruct Hv as [<-|[<-|[<-|[]]]]; rewrite Rabs_right; lra.
Defined.

(** ** C5: symmetry and the diagonal *)

Lemma moderate_rows_fit (rnd : R -> R) (rows : list row) (a : string) :
  Rounded.standard_model rnd -> rows <> [] -> moderate_rows rows -> In a fields ->
  squares_fit rnd (map (numeric a) rows).
Proof.
  intros Hrnd Hne Hm Ha. apply moderate_squares_fit;
    [exact Hrnd | apply map_nonempty; exact Hne | apply Hm; exact Ha].
Qed.

Lemma coefficient_spec (rnd : R -> R) (rows : list row) (a b : string) :
  Rounded.standard_model rnd -> rows <> [] -> moderate_rows rows ->
  In a fields -> In b fields ->
  Rounded.pearson rnd (map (numeric a) rows) (map (numeric b) rows)
  = Ok (coefficient rnd rows a b).
Proof.
  intros Hrnd Hne Hm Ha Hb. unfold coefficient.
  destruct (pearson_returns rnd Hrnd (map (numeric a) rows) (map (numeric b) rows))
    as [r Hr];
    try (apply map_nonempty; exact Hne);
    try (apply moderate_rows_fit; assumption).
  rewrite Hr. reflexivity.
Qed.

Lemma coefficient_comm (rnd : R -> R) (rows : list row) (a b : string) :
  coefficient rnd rows a b = coefficient rnd rows b a.
Proof. unfold coefficient. rewrite rounded_pearson_comm. reflexivity. Qed.

Lemma matrix_value (rnd : R -> R) (rows : list row) :
  Rounded.standard_model rnd -> rows <> [] -> moderate_rows rows ->
  Rounded.matrix rnd rows
  = Ok (map (fun a => (a, map (fun b => (b, coefficient rnd rows a b)) fields))
            fields).
Proof.
  intros Hrnd Hne Hm. unfold Rounded.matrix.
  apply (mapM_ok _ (fun a => (a, map (fun b => (b, coefficient rnd rows a b)) fields))).
  intros a Ha.
  rewrite (mapM_ok _ (fun b => (b, coefficient rnd rows a b))); [reflexivity|].
  intros b Hb.
  rewrite (column_numeric a rows Ha), (column_numeric b rows Hb), !bind_Ok.
  rewrite (coefficient_spec rnd rows a b Hrnd Hne Hm Ha Hb). reflexivity.
Qed.

Lemma matrix_get_value (rnd : R -> R) (rows : list row) (a b : string) :
  In a fields -> In b fields ->
  matrix_get (map (fun a => (a, map (fun b => (b, coefficient rnd rows a b)) fields))
                  fields) a b
  = Ok (coefficient rnd rows a b).
Proof.
  intros Ha Hb. unfold matrix_get.
  rewrite (lookup_map (fun a => map (fun b => (b, coefficient rnd rows a b)) fields))
    by exact Ha.
  rewrite bind_Ok.
  apply (lookup_map (fun b => coefficient rnd rows a b)). exact Hb.
Qed.



Lemma rows_in_range (rows : list row) :
  (forall r a, In r rows -> In a fields -> 1 <= numeric a r <= 1000) ->
  moderate_rows rows /\ well_scaled_rows rows.
Proof.
  intro H. split; intros a Ha.
  - apply moderate_bounded. intros v Hv. apply in_map_iff in Hv.
    destruct Hv as (r & <- & Hr). pose proof (H r a Hr Ha). lra.
  - apply well_scaled_units. intros v Hv. apply in_map_iff in Hv.
    destruct Hv as (r & <- & Hr). pose proof (H r a Hr Ha). right.
    rewrite Rabs_right; lra.
Qed.

Lemma scenario_in_range :
  forall r a, In r scenario_rows -> In a fields -> 1 <= numeric a r <= 1000.
Proof.
  intros r a Hr Ha. simpl in Hr, Ha.
  destruct Hr as [<-|[<-|[<-|[]]]];
    destruct Ha as [<-|[<-|[<-|[<-|[<-|[]]]]]]; unfold numeric; simpl; lra.
Qed.


(** ** C6, C7: the grouped averages *)




Lemma group_values_numeric (rows : list row) (gender subject : string) :
  In subject fields ->
  group_values rows gender subject
  = Ok (map (numeric subject) (group_rows rows gender)).
Proof.
  intro H. unfold group_values. apply column_numeric. exact H.
Qed.

Lemma subject_is_field (subject : string) : In subject SUBJECT_COLUMNS -> In subject fields.
Proof. intro H. right. exact H. Qed.



Lemma averages_value (rows : list row) :
  group_rows rows "Female" <> [] ->
  group_rows rows "Male" <> [] ->
  averages rows
  = Ok (map (fun gender =>
               (gender, map (fun subject => (subject, group_mean rows gender subject))
                            SUBJECT_COLUMNS)) genders).
Proof.
  intros HF HM. unfold averages.
  apply (mapM_ok _ (fun gender =>
           (gender, map (fun subject => (subject, group_mean rows gender subject))
                        SUBJECT_COLUMNS))).
  intros gender Hg.
  rewrite (mapM_ok _ (fun subject => (subject, group_mean rows gender subject)));
    [reflexivity|].
  intros subject Hs.
  rewrite group_values_numeric by (apply subject_is_field; exact Hs).
  cbv beta iota delta [bind].
  rewrite mean_ok; [reflexivity|].
  apply map_nonempty.
  destruct Hg as [<-|[<-|[]]]; assumption.
Qed.






Lemma no_rows_of_gender (rows : list row) (gender : string) :
  (forall r, In r rows -> Gender r <> gender) -> group_rows rows gender = [].
Proof.
  unfold group_rows. induction rows as [|r rows IH]; intro H; simpl; [reflexivity|].
  destruct (String.eqb_spec (Gender r) gender) as [E|_].
  - elim (H r (or_introl eq_refl) E).
  - apply IH. intros r' Hr'. apply H. right. exact Hr'.
Qed.

Lemma group_mean_raises (rows : list row) (gender : string) :
  group_rows rows gender = [] ->
  mapM (fun subject =>
          vs <- group_values rows gender subject ;;
          m <- mean vs ;;
          Ok (subject, m)) SUBJECT_COLUMNS
  = Raise StatisticsError.
Proof.
  intro H. apply mapM_raise_first.
  rewrite group_values_numeric by (simpl; tauto).
  rewrite H. reflexivity.
Qed.

(** C7.  When the dataset has no row of one of the two labels "Female" and
    "Male", the computation of the grouped averages raises the error of
    [mean] on no data; it returns no average for that group. *)
Theorem averages_empty_group (rows : list row) :
  (forall r, In r rows -> Gender r <> "Female"%string)
  \/ (forall r, In r rows -> Gender r <> "Male"%string) ->
  averages rows = Raise StatisticsError.
Proof.
  intro H. unfold averages, genders.
  destruct (group_rows rows "Female") as [|r0 rest] eqn:EF.
  - apply mapM_raise_first. rewrite group_mean_raises by exact EF. reflexivity.
  - destruct H as [H|H].
    + rewrite (no_rows_of_gender rows "Female" H) in EF. discriminate.
    + pose proof (no_rows_of_gender rows "Male" H) as EM.
      rewrite mapM_cons.
      rewrite (mapM_ok _ (fun subject => (subject, group_mean rows "Female" subject))).
      * rewrite bind_Ok, mapM_cons, group_mean_raises by exact EM. reflexivity.
      * intros subject Hs.
        rewrite group_values_numeric by (apply subject_is_field; exact Hs).
        cbv beta iota delta [bind].
        rewrite mean_ok; [reflexivity|].
        apply map_nonempty. rewrite EF. discriminate.
Qed.

(** C7 on a dataset with two "Female" rows and no "Male" row. *)
Lemma averages_empty_group_witness :
  averages [mkRow "S1" "Female" 95 90 80 70 60; mkRow "S3" "Female" 90 80 70 60 50]
  = Raise StatisticsError.
Proof.
  apply averages_empty_group. right.
  intros r Hr. simpl in Hr. destruct Hr as [<-|[<-|[]]]; discriminate.
Defined.

(** ** C9: [box_stats] leaves the caller's list alone *)
Lemma heap_quantile_reads (sorted_values : Heap.addr) (q : R) (h : Heap.heap) :
  Heap.quantile sorted_values q h = (quantile (Heap.deref h sorted_values) q, h).
Proof.
  unfold Heap.quantile, quantile, Heap.bindM, Heap.len, Heap.getitem_at, Heap.ret, bind.
  cbv beta iota zeta.
  set (l := Heap.deref h sorted_values).
  set (index := IZR (Z.of_nat (length l) - 1) * q).
  destruct (Zfloor index =? Zceil index)%Z; [reflexivity|].
  cbv beta. fold l.
  destruct (getitem l (Zfloor index)) as [lo|e]; [|reflexivity].
  destruct (getitem l (Zceil index)) as [hi|e]; reflexivity.
Qed.

Lemma deref_fresh (h : Heap.heap) (l : list R) :
  Heap.deref (h ++ [l]) (length h) = l.
Proof.
  unfold Heap.deref. rewrite app_nth2 by lia. rewrite Nat.sub_diag. reflexivity.
Qed.

Lemma deref_old (h : Heap.heap) (l : list R) (a : Heap.addr) :
  Heap.deref (h ++ [l]) a = Heap.deref h a \/ (a = length h /\ Heap.deref h a = []).
Proof.
  unfold Heap.deref.
  destruct (Nat.lt_ge_cases a (length h)) as [Hlt|Hge].
  - left. apply app_nth1. exact Hlt.
  - rewrite (nth_overflow h) by lia.
    destruct (Nat.eq_dec a (length h)) as [E|NE].
    + right. split; [exact E | reflexivity].
    + left. apply nth_overflow. rewrite length_app. simpl. lia.
Qed.

Lemma heap_box_stats_run (values : Heap.addr) (h : Heap.heap) :
  Heap.box_stats values h
  = (box_stats (Heap.deref h values), h ++ [sorted (Heap.deref h values)]).
Proof.
  unfold Heap.box_stats, box_stats, Heap.bindM at 1, Heap.sorted_new.
  set (sv := sorted (Heap.deref h values)).
  set (h' := h ++ [sv]).
  assert (D : Heap.deref h' (length h) = sv) by apply deref_fresh.
  unfold Heap.bindM at 1. unfold Heap.getitem_at at 1. rewrite D.
  destruct (getitem sv 0) as [mn|e]; [|reflexivity]. rewrite bind_Ok.
  unfold Heap.bindM at 1. rewrite heap_quantile_reads, D.
  destruct (quantile sv (25 / 100)) as [q1|e]; [|reflexivity]. rewrite bind_Ok.
  unfold Heap.bindM at 1. rewrite heap_quantile_reads, D.
  destruct (quantile sv (5 / 10)) as [md|e]; [|reflexivity]. rewrite bind_Ok.
  unfold Heap.bindM at 1. rewrite heap_quantile_reads, D.
  destruct (quantile sv (75 / 100)) as [q3|e]; [|reflexivity]. rewrite bind_Ok.
  unfold Heap.bindM at 1. unfold Heap.getitem_at at 1. rewrite D.
  destruct (getitem sv (-1)) as [mx|e]; reflexivity.
Qed.

(** C9.  Run [box_stats] on a reference to a list in any store.  Whether it
    returns or raises, every list object that existed before the call,
    the caller's among them, holds the same elements in the same order
    afterwards: the only change to the store is one new object, the sorted
    copy.  The value returned is that of [box_stats] on the list's contents. *)
Theorem box_stats_keeps_input (h : Heap.heap) (values : Heap.addr) :
  firstn (length h) (snd (Heap.box_stats values h)) = h
  /\ Heap.deref (snd (Heap.box_stats values h)) values = Heap.deref h values
  /\ snd (Heap.box_stats values h) = h ++ [sorted (Heap.deref h values)]
  /\ fst (Heap.box_stats values h) = box_stats (Heap.deref h values).
Proof.
  rewrite heap_box_stats_run. simpl fst. simpl snd.
  split; [|split; [|split; reflexivity]].
  - rewrite firstn_app, Nat.sub_diag, firstn_all. simpl. apply app_nil_r.
  - destruct (deref_old h (sorted (Heap.deref h values)) values) as [E|[E1 E2]];
      [exact E|].
    rewrite E1 at 2. rewrite deref_fresh, E2. reflexivity.
Qed.

(** The store does tell the difference: sorting in place, which the script
    does not do, changes the caller's list. *)
Example sort_in_place_overwrites :
  snd (Heap.sort_in_place 0%nat [[2; 1]]) = [[1; 2]].
Proof.
  unfold Heap.sort_in_place, Heap.deref. simpl.
  destruct (Rle_lt_dec 2 1) as [H|_]; [lra | reflexivity].
Qed.

(** ** C10: sequences of unequal lengths *)

Lemma combine_common_prefix {A B : Type} (x : list A) (y : list B) :
  combine x y
  = combine (firstn (Nat.min (length x) (length y)) x)
            (firstn (Nat.min (length x) (length y)) y).
Proof.
  revert y; induction x as [|a x IH]; intro y; [reflexivity|].
  destruct y as [|b y]; [reflexivity|].
  simpl. rewrite <- IH. reflexivity.
Qed.

(** C10 as the specification words it fails on finite floats.  With
    x = [2^600, -2^600, 0] and y = [1, 2], of lengths 3 and 2, the square of
    a deviation of x overflows and [pearson] raises [OverflowError]. *)
Lemma pearson_unequal_overflow :
  Binary64.pearson [Binary64.large; PrimFloat.opp Binary64.large;
                    Binary64.float_of_int 0]
                   (Binary64.floats [1; 2]%Z)
  = Raise OverflowError.
Proof. vm_compute. reflexivity. Qed.

(** C10, for values of moderate magnitude.  [pearson] checks no lengths.  On
    any two non-empty sequences of such values it returns a value.  When
    neither root of a sum of squares is zero, that value divides the sum of
    the products of the deviations paired up to the shorter length (what [zip]
    yields) by the product of the two roots, each taken with the mean over the
    whole of its own sequence.  So the value can differ from the coefficient
    of the two common-length prefixes: on the floats [1, 2, 3] and [1, 2] it is
    below 0.6, while the coefficient of [1, 2] with [1, 2] is above 0.9. *)
Theorem pearson_unequal_lengths (rnd : R -> R) :
  Rounded.standard_model rnd ->
  (forall x y : list R,
     x <> [] -> y <> [] -> moderate x -> moderate y ->
     exists r, Rounded.pearson rnd x y = Ok r)
  /\ (forall x y : list R,
        x <> [] -> y <> [] -> moderate x -> moderate y ->
        root_sum_squares rnd x <> 0 -> root_sum_squares rnd y <> 0 ->
        let n := Nat.min (length x) (length y) in
        Rounded.pearson rnd x y
        = Ok (rnd (Rounded.sum rnd
                     (map (fun uv => rnd (fst uv * snd uv))
                          (combine (firstn n (deviations rnd x))
                                   (firstn n (deviations rnd y))))
                   / rnd (root_sum_squares rnd x * root_sum_squares rnd y))))
  /\ (exists (x y : list Z) (r r' : PrimFloat.float),
        length x <> length y /\
        Binary64.pearson (Binary64.floats x) (Binary64.floats y) = Ok r /\
        Binary64.pearson
          (Binary64.floats (firstn (Nat.min (length x) (length y)) x))
          (Binary64.floats (firstn (Nat.min (length x) (length y)) y)) = Ok r' /\
        PrimFloat.ltb r (PrimFloat.div (Binary64.float_of_int 6)
                                       (Binary64.float_of_int 10)) = true /\
        PrimFloat.ltb (PrimFloat.div (Binary64.float_of_int 9)
                                     (Binary64.float_of_int 10)) r' = true).
Proof.
  intro Hrnd. split; [|split].
  - intros x y Hx Hy Mx My.
    apply (pearson_returns rnd Hrnd x y Hx Hy);
      apply moderate_squares_fit; assumption.
  - intros x y Hx Hy Mx My Nx Ny n.
    rewrite (pearson_regular rnd Hrnd x y Hx Hy) by
      (assumption || (apply moderate_squares_fit; assumption)).
    assert (L : forall l, length (deviations rnd l) = length l)
      by (intro l; unfold deviations; apply length_map).
    unfold products, n.
    rewrite (combine_common_prefix (deviations rnd x) (deviations rnd y)), !L.
    reflexivity.
  - exists [1; 2; 3]%Z, [1; 2]%Z. do 2 eexists.
    split; [simpl; lia|]. repeat split; vm_compute; reflexivity.
Qed.

(** C10 on a sequence of three values paired with one of two, in exact
    arithmetic. *)
Lemma pearson_unequal_lengths_witness :
  exists r, Rounded.pearson (fun x => x) [1; 2; 3] [1; 2] = Ok r.
Proof.
  destruct (pearson_unequal_lengths (fun x => x) exact_standard_model)
    as (Hret & _ & _).
  apply (Hret [1; 2; 3] [1; 2]); try discriminate.
  - apply moderate_bounded. intros v Hv. simpl in Hv.
    destruct Hv as [<-|[<-|[<-|[]]]]; lra.
  - apply moderate_bounded. intros v Hv. simpl in Hv.
    destruct Hv as [<-|[<-|[]]]; lra.
Defined.

(** ** C8: the box glyph *)
Lemma box_stats_three (values : list R) (a b c : R) :
  sorted values = [a; b; c] ->
  box_stats values = Ok (mkBoxStats a ((a + b) / 2) b ((b + c) / 2) c).
Proof.
  intro H.
  assert (Hne : values <> []) by (intro E; subst values; discriminate).
  rewrite (box_stats_value values Hne). unfold five_numbers. rewrite H.
  assert (R1 : rank [a; b; c] (25 / 100) = 1 / 2) by (unfold rank; simpl; lra).
  assert (R2 : rank [a; b; c] (5 / 10) = 1) by (unfold rank; simpl; lra).
  assert (R3 : rank [a; b; c] (75 / 100) = 3 / 2) by (unfold rank; simpl; lra).
  rewrite R1, R2, R3.
  rewrite (interp_at _ (1 / 2) 0) by (apply Zfloor_eq; simpl; lra).
  rewrite (interp_at _ 1 1) by (apply Zfloor_eq; simpl; lra).
  rewrite (interp_at _ (3 / 2) 1) by (apply Zfloor_eq; simpl; lra).
  simpl. f_equal. f_equal; lra.
Qed.

Lemma scenario_box_stats :
  box_stats [90; 70; 80] = Ok (mkBoxStats 70 75 80 85 90)
  /\ box_stats [80; 60; 70] = Ok (mkBoxStats 60 65 70 75 80)
  /\ box_stats [70; 50; 60] = Ok (mkBoxStats 50 55 60 65 70)
  /\ box_stats [60; 40; 50] = Ok (mkBoxStats 40 45 50 55 60).
Proof.
  repeat split.
  - rewrite (box_stats_three _ 70 80 90) by sort_eval. do 2 f_equal; lra.
  - rewrite (box_stats_three _ 60 70 80) by sort_eval. do 2 f_equal; lra.
  - rewrite (box_stats_three _ 50 60 70) by sort_eval. do 2 f_equal; lra.
  - rewrite (box_stats_three _ 40 50 60) by sort_eval. do 2 f_equal; lra.
Qed.

Lemma enumerate_subjects :
  enumerate SUBJECT_COLUMNS
  = [(0, "Math"); (1, "Science"); (2, "English"); (3, "History")]%Z%string.
Proof. reflexivity. Qed.

Lemma subject_color (idx : Z) (subject : string) :
  In (idx, subject) (enumerate SUBJECT_COLUMNS) ->
  exists color, getitem Boxplot.colors idx = Ok color.
Proof.
  rewrite enumerate_subjects. intro H. simpl in H.
  destruct H as [H|[H|[H|[H|[]]]]]; injection H as <- <-;
    eexists; reflexivity.
Qed.

Lemma subject_marks_value (rows : list row) (idx : Z) (subject color : string) :
  rows <> [] ->
  In subject SUBJECT_COLUMNS ->
  getitem Boxplot.colors idx = Ok color ->
  Boxplot.subject_marks rows idx subject
  = Ok (Boxplot.box_marks (Boxplot.x_center idx)
          (five_numbers (map (numeric subject) rows)) color subject).
Proof.
  intros Hne Hs Hc. unfold Boxplot.subject_marks.
  rewrite column_numeric by (apply subject_is_field; exact Hs).
  rewrite bind_Ok.
  rewrite box_stats_value by (apply map_nonempty; exact Hne).
  rewrite bind_Ok, Hc. reflexivity.
Qed.

Lemma plot_boxplots_value (rows : list row) :
  rows <> [] ->
  Boxplot.plot_boxplots rows
  = Ok (mkSvg "outputs/boxplot_score_distribution.svg" 900 520
          (Boxplot.header ++ flat_map Boxplot.tick_marks (range 30 101 10)
           ++ Boxplot.box_marks (Boxplot.x_center 0)
                (five_numbers (map (numeric "Math") rows)) "#6baed6" "Math"
           ++ Boxplot.box_marks (Boxplot.x_center 1)
                (five_numbers (map (numeric "Science") rows)) "#9ecae1" "Science"
           ++ Boxplot.box_marks (Boxplot.x_center 2)
                (five_numbers (map (numeric "English") rows)) "#74c476" "English"
           ++ Boxplot.box_marks (Boxplot.x_center 3)
                (five_numbers (map (numeric "History") rows)) "#fd8d3c" "History")).
Proof.
  intro Hne. unfold Boxplot.plot_boxplots. rewrite enumerate_subjects.
  rewrite !mapM_cons. cbv beta. unfold fst, snd.
  rewrite (subject_marks_value rows 0 "Math" "#6baed6" Hne)
    by (simpl; tauto || reflexivity).
  rewrite (subject_marks_value rows 1 "Science" "#9ecae1" Hne)
    by (simpl; tauto || reflexivity).
  rewrite (subject_marks_value rows 2 "English" "#74c476" Hne)
    by (simpl; tauto || reflexivity).
  rewrite (subject_marks_value rows 3 "History" "#fd8d3c" Hne)
    by (simpl; tauto || reflexivity).
  rewrite !bind_Ok. unfold mapM. rewrite !bind_Ok.
  unfold save_svg, concat. rewrite app_nil_r, <- app_assoc. reflexivity.
Qed.

Lemma range_ticks : range 30 101 10 = [30; 40; 50; 60; 70; 80; 90; 100]%Z.
Proof. reflexivity. Qed.

Lemma five_numbers_of (values : list R) (s : BoxStats) :
  box_stats values = Ok s -> five_numbers values = s.
Proof.
  intro H. destruct values as [|v values]; [discriminate|].
  rewrite box_stats_value in H by discriminate. injection H as H. exact H.
Qed.

(** C8 as the specification words it -- a whisker from min to Q3 and one
    from Q1 to max -- fails on the scenario dataset: Math has min 70,
    Q1 75, Q3 85 and max 90, and no element of the chart is a vertical segment
    joining the heights of 70 and 85, nor one joining those of 75 and 90, at
    any abscissa. *)
Lemma boxplot_no_whisker_from_min_to_q3 :
  exists doc,
    Boxplot.plot_boxplots scenario_rows = Ok doc /\
    (values <- column "Math" scenario_rows ;; box_stats values)
    = Ok (mkBoxStats 70 75 80 85 90) /\
    forall p x, In p (svg_body doc) ->
      ~ vertical_between p x (Boxplot.y_scale 70) (Boxplot.y_scale 85) /\
      ~ vertical_between p x (Boxplot.y_scale 75) (Boxplot.y_scale 90).
Proof.
  destruct scenario_box_stats as (S0 & S1 & S2 & S3).
  eexists. split; [apply plot_boxplots_value; discriminate|].
  split; [exact S0|].
  intros p x Hp.
  change (map (numeric "Math") scenario_rows) with [90; 70; 80] in Hp.
  change (map (numeric "Science") scenario_rows) with [80; 60; 70] in Hp.
  change (map (numeric "English") scenario_rows) with [70; 50; 60] in Hp.
  change (map (numeric "History") scenario_rows) with [60; 40; 50] in Hp.
  rewrite (five_numbers_of _ _ S0), (five_numbers_of _ _ S1),
    (five_numbers_of _ _ S2), (five_numbers_of _ _ S3), range_ticks in Hp.
  cbv [svg_body Boxplot.header Boxplot.box_marks Boxplot.tick_marks flat_map app In
       st_min st_q1 st_median st_q3 st_max] in Hp.
  repeat (destruct Hp as [Hp|Hp]; [subst p; split; no_such_segment|]).
  contradiction.
Qed.

Lemma in_enumerate_subject (idx : Z) (subject : string) :
  In (idx, subject) (enumerate SUBJECT_COLUMNS) -> In subject SUBJECT_COLUMNS.
Proof.
  rewrite enumerate_subjects. intro H. simpl in H.
  destruct H as [H|[H|[H|[H|[]]]]]; injection H as <- <-; simpl; tauto.
Qed.

(** C8, as the composer draws it.  For each of the four subjects the
    composer appends exactly seven elements, in this order: a vertical
    whisker from max to Q3, a vertical whisker from Q1 to min, a filled
    rectangle of width 80 whose top edge is at Q3 and whose height is the
    distance from Q3 to Q1 (at least 1), a median line across the box,
    a cap tick at max, a cap tick at min, and the subject's label.  The seven
    stand consecutively in the body of the chart it writes. *)
Theorem boxplot_glyph (rows : list row) (idx : Z) (subject : string) :
  rows <> [] ->
  In (idx, subject) (enumerate SUBJECT_COLUMNS) ->
  exists stats color doc pre post upper lower box median cap_max cap_min label,
    (values <- column subject rows ;; box_stats values) = Ok stats /\
    getitem Boxplot.colors idx = Ok color /\
    Boxplot.subject_marks rows idx subject
    = Ok [upper; lower; box; median; cap_max; cap_min; label] /\
    Boxplot.plot_boxplots rows = Ok doc /\
    svg_body doc
    = pre ++ [upper; lower; box; median; cap_max; cap_min; label] ++ post /\
    let x := Boxplot.x_center idx in
    let y := Boxplot.y_scale in
    vertical_between upper x (y (st_max stats)) (y (st_q3 stats)) /\
    vertical_between lower x (y (st_q1 stats)) (y (st_min stats)) /\
    filled_rect box (x - 40) (y (st_q3 stats)) 80
                (Rmax 1 (y (st_q1 stats) - y (st_q3 stats))) color /\
    horizontal_at median (x - 40) (x + 40) (y (st_median stats)) /\
    horizontal_at cap_max (x - 20) (x + 20) (y (st_max stats)) /\
    horizontal_at cap_min (x - 20) (x + 20) (y (st_min stats)) /\
    label = Text x 480 "middle" 13 subject.
Proof.
  intros Hne Hin.
  pose proof (in_enumerate_subject idx subject Hin) as Hs.
  destruct (subject_color idx subject Hin) as [color Hc].
  pose proof (subject_marks_value rows idx subject color Hne Hs Hc) as Hm.
  set (stats := five_numbers (map (numeric subject) rows)) in *.
  assert (Hpos : exists pre post,
             Boxplot.plot_boxplots rows
             = Ok (mkSvg "outputs/boxplot_score_distribution.svg" 900 520
                     (pre ++ Boxplot.box_marks (Boxplot.x_center idx) stats color subject
                          ++ post))).
  { rewrite (plot_boxplots_value rows Hne).
    rewrite enumerate_subjects in Hin. simpl in Hin. unfold stats.
    destruct Hin as [H|[H|[H|[H|[]]]]]; injection H as <- <-;
      injection Hc as <-.
    - exists (Boxplot.header ++ flat_map Boxplot.tick_marks (range 30 101 10)).
      eexists. rewrite <- !app_assoc. reflexivity.
    - exists ((Boxplot.header ++ flat_map Boxplot.tick_marks (range 30 101 10))
              ++ Boxplot.box_marks (Boxplot.x_center 0)
                   (five_numbers (map (numeric "Math") rows)) "#6baed6" "Math").
      eexists. rewrite <- !app_assoc. reflexivity.
    - exists ((Boxplot.header ++ flat_map Boxplot.tick_marks (range 30 101 10))
              ++ Boxplot.box_marks (Boxplot.x_center 0)
                   (five_numbers (map (numeric "Math") rows)) "#6baed6" "Math"
              ++ Boxplot.box_marks (Boxplot.x_center 1)
                   (five_numbers (map (numeric "Science") rows)) "#9ecae1" "Science").
      eexists. rewrite <- !app_assoc. reflexivity.
    - exists ((Boxplot.header ++ flat_map Boxplot.tick_marks (range 30 101 10))
              ++ Boxplot.box_marks (Boxplot.x_center 0)
                   (five_numbers (map (numeric "Math") rows)) "#6baed6" "Math"
              ++ Boxplot.box_marks (Boxplot.x_center 1)
                   (five_numbers (map (numeric "Science") rows)) "#9ecae1" "Science"
              ++ Boxplot.box_marks (Boxplot.x_center 2)
                   (five_numbers (map (numeric "English") rows)) "#74c476" "English").
      exists []. rewrite <- !app_assoc. rewrite app_nil_r. reflexivity. }
  destruct Hpos as (pre & post & Hdoc).
  exists stats, color. eexists. exists pre, post.
  do 7 eexists.
  split.
  { rewrite column_numeric by (apply subject_is_field; exact Hs).
    rewrite bind_Ok. apply box_stats_value, map_nonempty, Hne. }
  split; [exact Hc|].
  split; [exact Hm|].
  split; [exact Hdoc|].
  split; [reflexivity|].
  cbv zeta. cbv [vertical_between filled_rect horizontal_at].
  unfold Boxplot.box_width.
  repeat split; try reflexivity; try lra.
Qed.

(** C8 on the scenario dataset: the two whiskers of Math, from 90 to 85 and
    from 75 to 70, are in the chart. *)
Lemma boxplot_glyph_witness :
  exists doc upper lower,
    Boxplot.plot_boxplots scenario_rows = Ok doc /\
    In upper (svg_body doc) /\
    In lower (svg_body doc) /\
    vertical_between upper (Boxplot.x_center 0)
                     (Boxplot.y_scale 90) (Boxplot.y_scale 85) /\
    vertical_between lower (Boxplot.x_center 0)
                     (Boxplot.y_scale 75) (Boxplot.y_scale 70).
Proof.
  destruct (boxplot_glyph scenario_rows 0 "Math")
    as (stats & color & doc & pre & post & upper & lower & box & median
        & cap_max & cap_min & label & Hst & _ & _ & Hdoc & Hbody & Hu & Hl & _).
  - discriminate.
  - rewrite enumerate_subjects. left. reflexivity.
  - change (box_stats [90; 70; 80] = Ok stats) in Hst.
    rewrite (proj1 scenario_box_stats) in Hst. injection Hst as <-.
    exists doc, upper, lower.
    split; [exact Hdoc|].
    split; [rewrite Hbody; apply in_or_app; right; simpl; tauto|].
    split; [rewrite Hbody; apply in_or_app; right; simpl; tauto|].
    split; [exact Hu | exact Hl].
Defined.

(** * Further properties of the code *)

(** ** Quantiles at and beyond the ends *)
Lemma getitem_out_of_range {A : Type} (l : list A) (i : Z) :
  (Z.of_nat (length l) <= i)%Z -> getitem l i = Raise IndexError.
Proof.
  intro H. unfold getitem.
  destruct (Z.ltb_spec i 0); [lia|].
  destruct (Z.ltb_spec i (Z.of_nat (length l))); [lia|].
  rewrite Bool.andb_false_r. reflexivity.
Qed.


(** X1.  On an empty sequence [quantile] raises [IndexError] for every
    fraction, and so does [box_stats]: neither returns a default. *)
Theorem quantile_empty (q : R) :
  quantile [] q = Raise IndexError /\ box_stats [] = Raise IndexError.
Proof.
  split; [|reflexivity].
  unfold quantile.
  destruct (Zfloor _ =? Zceil _)%Z; rewrite getitem_nil; reflexivity.
Qed.

(** X2.  On a sequence of one value the rank is 0 whatever the fraction, in
    [0,1] or not: [quantile] returns the value, and the five box statistics
    are all that value. *)
Theorem quantile_single (v q : R) :
  quantile [v] q = Ok v /\ box_stats [v] = Ok (mkBoxStats v v v v v).
Proof.
  assert (Q : forall q', quantile [v] q' = Ok v).
  { intro q'. apply (quantile_at_nat [v] q' 0 v); [discriminate | | reflexivity].
    unfold rank. simpl. lra. }
  split; [apply Q|].
  unfold box_stats. simpl sorted. rewrite !Q. reflexivity.
Qed.

(** X3.  With two or more values a fraction above 1 is not clamped: the rank
    passes the last index and [quantile] raises [IndexError].  (The fraction
    is at most 10^290, so that the rank is a finite float.) *)
Theorem quantile_above_one (sorted_values : list R) (q : R) :
  (2 <= length sorted_values)%nat ->
  1 < q ->
  q <= 10 ^ 290 ->
  quantile sorted_values q = Raise IndexError.
Proof.
  intros HN Hq _. unfold quantile.
  set (n := Z.of_nat (length sorted_values)).
  set (index := IZR (n - 1) * q).
  assert (Hn : (2 <= n)%Z) by (unfold n; lia).
  assert (Hn1 : 1 <= IZR (n - 1)) by (apply (IZR_le 1); lia).
  assert (Hidx : IZR (n - 1) < index) by (unfold index; nra).
  assert (Hup : (n <= Zceil index)%Z).
  { pose proof (Zceil_bound index) as [_ Hc].
    assert (IZR (n - 1) < IZR (Zceil index)) by lra.
    apply lt_IZR in H. lia. }
  destruct (Z.eqb_spec (Zfloor index) (Zceil index)) as [E|NE].
  - unfold int_of_float. destruct (Rle_lt_dec 0 index) as [_|Hneg]; [|lra].
    apply getitem_out_of_range. fold n. lia.
  - rewrite (getitem_out_of_range sorted_values (Zceil index)) by (fold n; lia).
    destruct (getitem sorted_values (Zfloor index)) as [lo|e] eqn:G.
    + reflexivity.
    + simpl. f_equal. unfold getitem in G.
      destruct (_ && _)%bool in G; [|congruence].
      destruct (nth_error _ _) in G; congruence.
Qed.

Lemma quantile_above_one_witness : quantile [70; 80; 90] 2 = Raise IndexError.
Proof.
  apply quantile_above_one; [simpl; lia | lra |].
  assert (H : 1 <= 10 ^ 290) by (apply pow_R1_Rle; lra).
  assert (H2 : 10 <= 10 ^ 290).
  { replace (10 ^ 290) with (10 * 10 ^ 289) by (simpl; ring).
    assert (1 <= 10 ^ 289) by (apply pow_R1_Rle; lra). lra. }
  lra.
Defined.



(** ** Box statistics and the order of the input *)
Lemma insert_insert (a b : R) (l : list R) :
  insert a (insert b l) = insert b (insert a l).
Proof.
  induction l as [|y l IH]; simpl.
  - destruct (Rle_lt_dec a b), (Rle_lt_dec b a); try reflexivity; try lra.
    assert (a = b) by lra. subst. reflexivity.
  - destruct (Rle_lt_dec b y) as [Hby|Hby], (Rle_lt_dec a y) as [Hay|Hay]; simpl.
    + destruct (Rle_lt_dec a b), (Rle_lt_dec b a); try lra.
      * assert (a = b) by lra. subst. reflexivity.
      * destruct (Rle_lt_dec b y); [reflexivity | lra].
      * destruct (Rle_lt_dec a y); [reflexivity | lra].
    + destruct (Rle_lt_dec a b); [lra|].
      destruct (Rle_lt_dec a y); [lra|].
      destruct (Rle_lt_dec b y); [reflexivity | lra].
    + destruct (Rle_lt_dec b a); [lra|].
      destruct (Rle_lt_dec b y); [lra|].
      destruct (Rle_lt_dec a y); [reflexivity | lra].
    + destruct (Rle_lt_dec a y); [lra|].
      destruct (Rle_lt_dec b y); [lra|].
      rewrite IH. reflexivity.
Qed.

Lemma sorted_of_permutation (l l' : list R) :
  Permutation l l' -> sorted l = sorted l'.
Proof.
  induction 1 as [|x l l' _ IH|x y l|l l' l'' _ IH1 _ IH2]; simpl.
  - reflexivity.
  - rewrite IH. reflexivity.
  - apply insert_insert.
  - congruence.
Qed.

Lemma box_stats_order_independent_aux (values values' : list R) :
  Permutation values values' -> box_stats values = box_stats values'.
Proof.
  intro H. unfold box_stats. rewrite (sorted_of_permutation _ _ H). reflexivity.
Qed.

(** X5.  [box_stats] does not depend on the order of its input: two
    sequences with the same values in any order give the same result, the
    same record or the same error. *)
Theorem box_stats_order_independent (values values' : list R) :
  Permutation values values' -> box_stats values = box_stats values'.
Proof. apply box_stats_order_independent_aux. Qed.

Lemma box_stats_order_independent_witness :
  box_stats [90; 70; 80] = box_stats [70; 90; 80].
Proof. apply box_stats_order_independent. apply perm_swap. Defined.

Lemma sorted_In (values : list R) (v : R) : In v values <-> In v (sorted values).
Proof.
  split; intro H.
  - eapply Permutation_in; [apply sorted_perm | exact H].
  - eapply Permutation_in; [apply Permutation_sym, sorted_perm | exact H].
Qed.

(** X6.  The min and max fields of [box_stats] are values of the input, the
    least and the greatest: every value of the input lies between them. *)
Theorem box_stats_min_max (values : list R) :
  values <> [] ->
  exists s, box_stats values = Ok s /\
            In (st_min s) values /\ In (st_max s) values /\
            forall v, In v values -> st_min s <= v <= st_max s.
Proof.
  intro Hne. exists (five_numbers values).
  split; [apply box_stats_value; exact Hne|].
  unfold five_numbers. set (sv := sorted values). simpl.
  assert (HN : (0 < length sv)%nat).
  { pose proof (sorted_nonempty values Hne). fold sv in H.
    destruct sv; [congruence | simpl; lia]. }
  pose proof (sorted_Sorted values) as Hs. fold sv in Hs.
  split; [apply sorted_In; fold sv; apply nth_In; lia|].
  split; [apply sorted_In; fold sv; apply nth_In; lia|].
  intros v Hv. apply sorted_In in Hv. fold sv in Hv.
  destruct (In_nth sv v 0 Hv) as (i & Hi & <-).
  split; apply Sorted_nth_le; try exact Hs; lia.
Qed.

Lemma box_stats_min_max_witness :
  exists s, box_stats [90; 70; 80] = Ok s /\
            In (st_min s) [90; 70; 80] /\ In (st_max s) [90; 70; 80] /\
            forall v, In v [90; 70; 80] -> st_min s <= v <= st_max s.
Proof. apply (box_stats_min_max [90; 70; 80]). discriminate. Defined.

(** X7.  The median field, for values of moderate magnitude: for 2k+1 values
    the middle element of the sorted sequence, for 2k+2 values the lower of
    the two middle elements plus half of the difference to the upper one. *)
Theorem box_stats_median (values : list R) (k : nat) :
  (length values = 2 * k + 1)%nat \/ (length values = 2 * k + 2)%nat ->
  moderate values ->
  exists s, box_stats values = Ok s /\
    ((length values = 2 * k + 1)%nat -> st_median s = nth k (sorted values) 0) /\
    ((length values = 2 * k + 2)%nat ->
       st_median s
       = nth k (sorted values) 0
         + (nth (S k) (sorted values) 0 - nth k (sorted values) 0) * (1 / 2)).
Proof.
  intros HN _.
  assert (Hne : values <> []).
  { intro E. subst values. simpl in HN. lia. }
  exists (five_numbers values).
  split; [apply box_stats_value; exact Hne|].
  unfold five_numbers. set (sv := sorted values). cbn [st_median].
  assert (HL : length sv = length values) by apply sorted_length.
  unfold rank. rewrite HL.
  split; intro E; rewrite E.
  - assert (R1 : INR (2 * k + 1 - 1) * (5 / 10) = INR k).
    { replace (2 * k + 1 - 1)%nat with (k + k)%nat by lia. rewrite plus_INR. lra. }
    rewrite R1.
    rewrite (interp_at sv (INR k) k) by apply Zfloor_INR. lra.
  - assert (R2 : INR (2 * k + 2 - 1) * (5 / 10) = INR k + 1 / 2).
    { replace (2 * k + 2 - 1)%nat with (S (k + k))%nat by lia.
      rewrite S_INR, plus_INR. lra. }
    rewrite R2.
    rewrite (interp_at sv (INR k + 1 / 2) k).
    + replace (INR k + 1 / 2 - INR k) with (1 / 2) by ring. reflexivity.
    + apply Zfloor_eq. rewrite <- INR_IZR. lra.
Qed.

Lemma box_stats_median_witness :
  exists s, box_stats [90; 70; 80; 60] = Ok s /\
    ((length [90; 70; 80; 60] = 2 * 1 + 1)%nat ->
       st_median s = nth 1 (sorted [90; 70; 80; 60]) 0) /\
    ((length [90; 70; 80; 60] = 2 * 1 + 2)%nat ->
       st_median s
       = nth 1 (sorted [90; 70; 80; 60]) 0
         + (nth 2 (sorted [90; 70; 80; 60]) 0
            - nth 1 (sorted [90; 70; 80; 60]) 0) * (1 / 2)).
Proof.
  apply (box_stats_median [90; 70; 80; 60] 1); [right; reflexivity|].
  apply moderate_bounded. intros v Hv. simpl in Hv.
  destruct Hv as [<-|[<-|[<-|[<-|[]]]]]; lra.
Defined.

(** ** Pearson correlation: errors *)

(** X8.  The exceptions of [pearson].  It raises [StatisticsError] when one
    of the two sequences is empty, and only then.  On two non-empty sequences
    the only exception is the [OverflowError] of a square, and values of
    moderate magnitude do not raise it.  The division of line 59 never
    raises: the guard of line 57 has excluded a zero denominator. *)
Theorem pearson_exceptions (rnd : R -> R) (x y : list R) :
  Rounded.standard_model rnd ->
  (x = [] \/ y = [] -> Rounded.pearson rnd x y = Raise StatisticsError)
  /\ (forall e, Rounded.pearson rnd x y = Raise e ->
        (e = StatisticsError /\ (x = [] \/ y = []))
        \/ (e = OverflowError /\ x <> [] /\ y <> []
            /\ ~ (moderate x /\ moderate y))).
Proof.
  intro Hrnd. split.
  - intros [->| ->]; [reflexivity|].
    destruct x; reflexivity.
  - intros e H.
    destruct x as [|a x]; [simpl in H; injection H as <-; auto|].
    destruct y as [|b y];
      [unfold Rounded.pearson in H; simpl in H; injection H as <-; auto|].
    right.
    assert (Hx : a :: x <> []) by discriminate.
    assert (Hy : b :: y <> []) by discriminate.
    split; [|split; [exact Hx | split; [exact Hy|]]].
    + unfold Rounded.pearson in H.
      rewrite !rounded_mean_ok, !bind_Ok in H by assumption. cbv zeta in H.
      destruct (mapM _ (a :: x)) as [sx|ex] eqn:Ex.
      2:{ cbn [bind] in H. injection H as <-.
          apply (squares_mapM_raises _ _ _ _ Ex). }
      rewrite bind_Ok in H.
      destruct (mapM _ (b :: y)) as [sy|ey] eqn:Ey.
      2:{ cbn [bind] in H. injection H as <-.
          apply (squares_mapM_raises _ _ _ _ Ey). }
      rewrite bind_Ok in H.
      destruct (Req_dec_T _ 0) as [|Nx] in H; [discriminate|].
      destruct (Req_dec_T _ 0) as [|Ny] in H; [discriminate|].
      unfold Rounded.truediv in H.
      destruct (Req_dec_T _ 0) as [E|] in H; [|discriminate].
      apply (rnd_zero_inv rnd Hrnd) in E. apply Rmult_integral in E. tauto.
    + intros [Mx My].
      destruct (pearson_returns rnd Hrnd (a :: x) (b :: y) Hx Hy) as [r Hr];
        try (apply moderate_squares_fit; assumption).
      congruence.
Qed.

Lemma pearson_exceptions_witness :
  Rounded.pearson (fun x => x) [1; 2] [] = Raise StatisticsError.
Proof.
  apply (proj1 (pearson_exceptions (fun x => x) [1; 2] [] exact_standard_model)).
  right. reflexivity.
Defined.

(** ** The correlation matrix: range and constant columns *)

(** X11.  For a non-empty dataset of at most 10^6 rows of moderate,
    well-scaled values, every entry of the heat map's matrix is in
    [-1 - 10^-9, 1 + 10^-9].  A column that is constant (its value a float)
    gets 0 in all of its row and all of its column, the diagonal entry
    included: there the diagonal is 0, not 1. *)
Theorem matrix_entries (rnd : R -> R) (rows : list row) :
  Rounded.standard_model rnd ->
  rows <> [] ->
  INR (length rows) <= 10 ^ 6 ->
  moderate_rows rows ->
  well_scaled_rows rows ->
  exists m, Rounded.matrix rnd rows = Ok m /\
    (forall a b, In a fields -> In b fields ->
       exists v, matrix_get m a b = Ok v /\ - (1 + / 10 ^ 9) <= v <= 1 + / 10 ^ 9) /\
    (forall a b, In a fields -> In b fields ->
       constant (map (numeric a) rows) ->
       (forall v, In v (map (numeric a) rows) -> Rounded.representable rnd v) ->
       matrix_get m a b = Ok 0 /\ matrix_get m b a = Ok 0).
Proof.
  intros Hrnd Hne Hn Hm _.
  eexists. split; [apply matrix_value; assumption|]. split.
  - intros a b Ha Hb. exists (coefficient rnd rows a b).
    split; [apply matrix_get_value; assumption|].
    apply (pearson_range rnd Hrnd (map (numeric a) rows) (map (numeric b) rows));
      rewrite ?length_map;
      try exact Hn;
      try (apply moderate_rows_fit; assumption).
    apply coefficient_spec; assumption.
  - intros a b Ha Hb Hc Hr.
    rewrite !matrix_get_value by assumption.
    assert (Z : root_sum_squares rnd (map (numeric a) rows) = 0)
      by (apply constant_root; assumption).
    assert (E : coefficient rnd rows a b = 0).
    { pose proof (coefficient_spec rnd rows a b Hrnd Hne Hm Ha Hb) as H.
      rewrite (pearson_degenerate rnd) in H;
        try (apply map_nonempty; exact Hne);
        try (apply moderate_rows_fit; assumption);
        [congruence | left; exact Z]. }
    assert (E' : coefficient rnd rows b a = 0).
    { pose proof (coefficient_spec rnd rows b a Hrnd Hne Hm Hb Ha) as H.
      rewrite (pearson_degenerate rnd) in H;
        try (apply map_nonempty; exact Hne);
        try (apply moderate_rows_fit; assumption);
        [congruence | right; exact Z]. }
    rewrite E, E'. split; reflexivity.
Qed.

(** X11 on a dataset whose students all have attendance 90, in exact
    arithmetic. *)
Lemma matrix_entries_witness :
  exists m,
    Rounded.matrix (fun x => x)
      [mkRow "S1" "Female" 90 90 80 70 60; mkRow "S2" "Male" 90 70 60 50 40]
    = Ok m /\
    matrix_get m "Attendance" "Attendance" = Ok 0 /\
    exists v, matrix_get m "Math" "Science" = Ok v
              /\ - (1 + / 10 ^ 9) <= v <= 1 + / 10 ^ 9.
Proof.
  assert (Hrange : forall r a,
            In r [mkRow "S1" "Female" 90 90 80 70 60;
                  mkRow "S2" "Male" 90 70 60 50 40] ->
            In a fields -> 1 <= numeric a r <= 1000).
  { intros r a Hr Ha. simpl in Hr, Ha.
    destruct Hr as [<-|[<-|[]]];
      destruct Ha as [<-|[<-|[<-|[<-|[<-|[]]]]]]; unfold numeric; simpl; lra. }
  destruct (rows_in_range _ Hrange) as [Mo Ws].
  destruct (matrix_entries (fun x => x)
              [mkRow "S1" "Female" 90 90 80 70 60; mkRow "S2" "Male" 90 70 60 50 40])
    as (m & Hm & Hr & Hconst);
    [exact exact_standard_model | discriminate | simpl; lra | exact Mo | exact Ws |].
  exists m. split; [exact Hm|]. split.
  - apply (Hconst "Attendance" "Attendance")%string; try (simpl; tauto).
    + intros a b Ha Hb. simpl in Ha, Hb.
      destruct Ha as [<-|[<-|[]]]; destruct Hb as [<-|[<-|[]]]; reflexivity.
    + intros v _. reflexivity.
  - apply Hr; simpl; tauto.
Defined.

(** ** The grouped averages: range, other labels *)

Lemma averages_get (rows : list row) (gender subject : string) :
  In gender genders -> In subject SUBJECT_COLUMNS ->
  matrix_get (map (fun gender =>
                     (gender, map (fun s => (s, group_mean rows gender s))
                                  SUBJECT_COLUMNS)) genders) gender subject
  = Ok (group_mean rows gender subject).
Proof.
  intros Hg Hs. unfold matrix_get.
  rewrite (lookup_map (fun gender => map (fun s => (s, group_mean rows gender s))
                                         SUBJECT_COLUMNS)) by exact Hg.
  rewrite bind_Ok.
  apply (lookup_map (fun s => group_mean rows gender s)). exact Hs.
Qed.

Lemma group_mean_bounded (rows : list row) (gender subject : string) (lo hi : R) :
  group_rows rows gender <> [] ->
  (forall r, In r rows -> lo <= numeric subject r <= hi) ->
  lo <= group_mean rows gender subject <= hi.
Proof.
  intros Hne H. unfold group_mean.
  apply mean_value_bounded; [apply map_nonempty; exact Hne|].
  intros v Hv. apply in_map_iff in Hv. destruct Hv as (r & <- & Hr).
  apply H. unfold group_rows in Hr. apply filter_In in Hr. tauto.
Qed.

(** X12.  Every average the bar chart computes lies between the least and
    the greatest score of its subject: if all scores of a subject are in
    [lo, hi], so are the Female and the Male average of that subject. *)
Theorem averages_bounded (rows : list row) (subject : string) (lo hi : R) :
  group_rows rows "Female" <> [] ->
  group_rows rows "Male" <> [] ->
  In subject SUBJECT_COLUMNS ->
  (forall r, In r rows -> lo <= numeric subject r <= hi) ->
  exists avgs, averages rows = Ok avgs /\
    forall gender, In gender genders ->
      exists v, matrix_get avgs gender subject = Ok v /\ lo <= v <= hi.
Proof.
  intros HF HM Hs H. eexists. split; [apply averages_value; assumption|].
  intros gender Hg. exists (group_mean rows gender subject).
  split; [apply averages_get; assumption|].
  apply group_mean_bounded; [|exact H].
  simpl in Hg. destruct Hg as [<-|[<-|[]]]; assumption.
Qed.

Lemma averages_bounded_witness :
  exists avgs, averages scenario_rows = Ok avgs /\
    forall gender, In gender genders ->
      exists v, matrix_get avgs gender "Math" = Ok v /\ 70 <= v <= 90.
Proof.
  apply (averages_bounded scenario_rows "Math" 70 90).
  - discriminate.
  - discriminate.
  - simpl; tauto.
  - intros r Hr. simpl in Hr.
    destruct Hr as [<-|[<-|[<-|[]]]]; unfold numeric; simpl; lra.
Defined.

Lemma mapM_ext {A B : Type} (f g : A -> result B) (l : list A) :
  (forall a, In a l -> f a = g a) -> mapM f l = mapM g l.
Proof.
  induction l as [|a l IH]; intro H; [reflexivity|].
  rewrite !mapM_cons, (H a) by (left; reflexivity).
  rewrite IH by (intros b Hb; apply H; right; exact Hb). reflexivity.
Qed.

Lemma averages_by_groups (rows rows' : list row) :
  (forall gender, In gender genders ->
     group_rows rows gender = group_rows rows' gender) ->
  averages rows = averages rows'.
Proof.
  intro H. unfold averages. apply mapM_ext. intros gender Hg.
  f_equal. apply mapM_ext. intros subject _.
  unfold group_values. fold (group_rows rows gender). fold (group_rows rows' gender).
  rewrite (H gender Hg). reflexivity.
Qed.

(** X13.  Rows whose gender is neither "Female" nor "Male" (another label,
    another spelling) take no part in the averages: dropping them from the
    dataset changes nothing in what [averages] returns or raises. *)
Theorem averages_ignore_other_labels (rows : list row) :
  averages (filter (fun r => (Gender r =? "Female")%string
                             || (Gender r =? "Male")%string)%bool rows)
  = averages rows.
Proof.
  apply averages_by_groups. intros gender Hg. unfold group_rows.
  induction rows as [|r rows IH]; [reflexivity|]. simpl.
  simpl in Hg. destruct Hg as [<-|[<-|[]]].
  - destruct (Gender r =? "Female")%string eqn:E; simpl.
    + rewrite E, IH. reflexivity.
    + destruct (Gender r =? "Male")%string; simpl; [rewrite E|]; exact IH.
  - destruct (Gender r =? "Male")%string eqn:E; simpl.
    + rewrite Bool.orb_true_r. simpl. rewrite E, IH. reflexivity.
    + rewrite Bool.orb_false_r.
      destruct (Gender r =? "Female")%string; simpl; [rewrite E|]; exact IH.
Qed.










(** ** The box plot in pixels *)
Lemma five_numbers_ordered (values : list R) :
  st_min (five_numbers values) <= st_q1 (five_numbers values)
  /\ st_q1 (five_numbers values) <= st_median (five_numbers values)
  /\ st_median (five_numbers values) <= st_q3 (five_numbers values)
  /\ st_q3 (five_numbers values) <= st_max (five_numbers values).
Proof.
  unfold five_numbers. set (sv := sorted values). simpl.
  pose proof (sorted_Sorted values) as Hs. fold sv in Hs.
  rewrite <- (interp_first sv), <- (interp_last sv).
  assert (Hn : 0 <= INR (length sv - 1)) by apply pos_INR.
  unfold rank.
  repeat split; apply interp_mono; try exact Hs; nra.
Qed.

Lemma five_numbers_range (values : list R) (lo hi : R) :
  values <> [] ->
  (forall v, In v values -> lo <= v <= hi) ->
  lo <= st_min (five_numbers values) /\ st_max (five_numbers values) <= hi.
Proof.
  intros Hne H. unfold five_numbers. set (sv := sorted values). simpl.
  assert (HN : (0 < length sv)%nat).
  { pose proof (sorted_nonempty values Hne). fold sv in H0.
    destruct sv; [congruence | simpl; lia]. }
  split.
  - apply (H (nth 0 sv 0)). apply sorted_In. fold sv. apply nth_In. lia.
  - apply (H (nth (length sv - 1) sv 0)). apply sorted_In. fold sv.
    apply nth_In. lia.
Qed.

Lemma five_numbers_extremes (values : list R) (v : R) :
  In v values ->
  st_min (five_numbers values) <= v <= st_max (five_numbers values).
Proof.
  intro Hv. unfold five_numbers. set (sv := sorted values). simpl.
  pose proof (sorted_Sorted values) as Hs. fold sv in Hs.
  apply sorted_In in Hv. fold sv in Hv.
  destruct (In_nth sv v 0 Hv) as (i & Hi & <-).
  split; apply Sorted_nth_le; try exact Hs; lia.
Qed.

Lemma boxplot_y_scale_eq (v : R) : Boxplot.y_scale v = 60 + (100 - v) / 70 * 390.
Proof. reflexivity. Qed.

Lemma boxplot_x_center_range (idx : Z) (subject : string) :
  In (idx, subject) (enumerate SUBJECT_COLUMNS) ->
  18375 / 100 <= Boxplot.x_center idx <= 74625 / 100.
Proof.
  rewrite enumerate_subjects. intro H. simpl in H.
  assert (S : Boxplot.spacing = 375 / 2).
  { unfold Boxplot.spacing, Boxplot.plot_width, Boxplot.width. simpl. lra. }
  unfold Boxplot.x_center. rewrite S. unfold Boxplot.margin_left.
  destruct H as [H|[H|[H|[H|[]]]]]; injection H as <- _; lra.
Qed.

(** X16.  In the glyph of a subject whose scores are of moderate magnitude
    the pixel rows are in order from the top: max, Q3, median, Q1, min.  So
    the upper whisker ends where the box begins, the lower one begins where
    the box would end, and the median line is inside the box.  The box is
    never less than 1 pixel high, and has the height of the interquartile
    range when that is at least 1 pixel. *)
Theorem boxplot_pixel_order (rows : list row) (idx : Z) (subject : string) :
  rows <> [] ->
  In (idx, subject) (enumerate SUBJECT_COLUMNS) ->
  moderate (map (numeric subject) rows) ->
  exists y_max_v y_q3 y_median y_q1 y_min_v h color,
    Boxplot.subject_marks rows idx subject
    = Ok [ Line (Boxplot.x_center idx) y_max_v (Boxplot.x_center idx) y_q3
                "black" None;
           Line (Boxplot.x_center idx) y_q1 (Boxplot.x_center idx) y_min_v
                "black" None;
           Rect (Boxplot.x_center idx - Boxplot.box_width / 2) y_q3
                Boxplot.box_width h color "black";
           Line (Boxplot.x_center idx - Boxplot.box_width / 2) y_median
                (Boxplot.x_center idx + Boxplot.box_width / 2) y_median
                "black" (Some 2%Z);
           Line (Boxplot.x_center idx - 20) y_max_v
                (Boxplot.x_center idx + 20) y_max_v "black" None;
           Line (Boxplot.x_center idx - 20) y_min_v
                (Boxplot.x_center idx + 20) y_min_v "black" None;
           Text (Boxplot.x_center idx) 480 "middle" 13 subject ] /\
    y_max_v <= y_q3 /\ y_q3 <= y_median /\ y_median <= y_q1 /\ y_q1 <= y_min_v /\
    1 <= h /\ y_q1 - y_q3 <= h /\ (1 <= y_q1 - y_q3 -> h = y_q1 - y_q3).
Proof.
  intros Hne Hin _.
  pose proof (in_enumerate_subject idx subject Hin) as Hs.
  destruct (subject_color idx subject Hin) as [color Hc].
  rewrite (subject_marks_value rows idx subject color Hne Hs Hc).
  set (stats := five_numbers (map (numeric subject) rows)).
  destruct (five_numbers_ordered (map (numeric subject) rows))
    as (H1 & H2 & H3 & H4). fold stats in H1, H2, H3, H4.
  do 5 eexists. exists (Rmax 1 (Boxplot.y_scale (st_q1 stats)
                                - Boxplot.y_scale (st_q3 stats))), color.
  split; [reflexivity|].
  rewrite !boxplot_y_scale_eq.
  repeat split; try lra.
  - apply Rmax_l.
  - apply Rmax_r.
  - intro H. apply Rmax_right. exact H.
Qed.

Lemma boxplot_pixel_order_witness :
  exists y_max_v y_q3 y_median y_q1 y_min_v h color,
    Boxplot.subject_marks scenario_rows 0 "Math"
    = Ok [ Line (Boxplot.x_center 0) y_max_v (Boxplot.x_center 0) y_q3
                "black" None;
           Line (Boxplot.x_center 0) y_q1 (Boxplot.x_center 0) y_min_v
                "black" None;
           Rect (Boxplot.x_center 0 - Boxplot.box_width / 2) y_q3
                Boxplot.box_width h color "black";
           Line (Boxplot.x_center 0 - Boxplot.box_width / 2) y_median
                (Boxplot.x_center 0 + Boxplot.box_width / 2) y_median
                "black" (Some 2%Z);
           Line (Boxplot.x_center 0 - 20) y_max_v
                (Boxplot.x_center 0 + 20) y_max_v "black" None;
           Line (Boxplot.x_center 0 - 20) y_min_v
                (Boxplot.x_center 0 + 20) y_min_v "black" None;
           Text (Boxplot.x_center 0) 480 "middle" 13 "Math" ] /\
    y_max_v <= y_q3 /\ y_q3 <= y_median /\ y_median <= y_q1 /\ y_q1 <= y_min_v /\
    1 <= h /\ y_q1 - y_q3 <= h /\ (1 <= y_q1 - y_q3 -> h = y_q1 - y_q3).
Proof.
  apply (boxplot_pixel_order scenario_rows 0 "Math").
  - discriminate.
  - rewrite enumerate_subjects. left. reflexivity.
  - apply (proj1 (rows_in_range scenario_rows scenario_in_range)). simpl; tauto.
Defined.

(** X17.  The box plot's scale is fixed to scores from 30 to 100 and nothing
    is clamped to it.  When all scores of a subject are in that range, its
    glyph lies inside the plot area.  A score of 29 or less puts the min cap
    tick below the horizontal axis (y > 455, the axis being at 450), a score
    of 101 or more puts the max cap tick above the top of the vertical axis
    (y < 55, the top being at 60). *)
Theorem boxplot_plot_area (rows : list row) (idx : Z) (subject : string) :
  rows <> [] ->
  In (idx, subject) (enumerate SUBJECT_COLUMNS) ->
  exists marks,
    Boxplot.subject_marks rows idx subject = Ok marks /\
    ((forall r, In r rows -> 30 <= numeric subject r <= 100) ->
       forall p, In p marks -> in_boxplot_area p) /\
    (forall r, In r rows -> numeric subject r <= 29 ->
       exists y, 455 < y /\
         In (Line (Boxplot.x_center idx - 20) y (Boxplot.x_center idx + 20) y
                  "black" None) marks) /\
    (forall r, In r rows -> 101 <= numeric subject r ->
       exists y, y < 55 /\
         In (Line (Boxplot.x_center idx - 20) y (Boxplot.x_center idx + 20) y
                  "black" None) marks).
Proof.
  intros Hne Hin.
  pose proof (in_enumerate_subject idx subject Hin) as Hs.
  destruct (subject_color idx subject Hin) as [color Hc].
  pose proof (boxplot_x_center_range idx subject Hin) as Hx.
  eexists. split; [apply (subject_marks_value rows idx subject color Hne Hs Hc)|].
  set (values := map (numeric subject) rows).
  assert (Hv : forall r, In r rows -> In (numeric subject r) values).
  { intros r Hr. unfold values. apply in_map. exact Hr. }
  destruct (five_numbers_ordered values) as (H1 & H2 & H3 & H4).
  assert (HR : (forall r, In r rows -> 30 <= numeric subject r <= 100) ->
               30 <= st_min (five_numbers values)
               /\ st_max (five_numbers values) <= 100).
  { intro Hrange. apply five_numbers_range.
    - unfold values. apply map_nonempty. exact Hne.
    - intros v Hv'. unfold values in Hv'. apply in_map_iff in Hv'.
      destruct Hv' as (r & <- & Hr). apply Hrange. exact Hr. }
  pose proof (five_numbers_extremes values) as HE.
  set (stats := five_numbers values) in *. clearbody stats.
  unfold Boxplot.box_marks. cbv zeta. rewrite !boxplot_y_scale_eq.
  unfold Boxplot.box_width.
  split; [|split].
  - intros Hrange p Hp. destruct (HR Hrange) as [L U].
    simpl in Hp.
    destruct Hp as [<-|[<-|[<-|[<-|[<-|[<-|[<-|[]]]]]]]]; simpl;
      try (repeat split; lra).
    repeat split; try lra.
    match goal with
    | |- context [Rmax 1 ?d] =>
        destruct (Rle_dec 1 d);
        [rewrite (Rmax_right 1 d) by lra | rewrite (Rmax_left 1 d) by lra]; lra
    end.
  - intros r Hr Hlow.
    pose proof (HE _ (Hv r Hr)) as [Hmin _].
    eexists. split; [|simpl; do 5 right; left; reflexivity]. lra.
  - intros r Hr Hhigh.
    pose proof (HE _ (Hv r Hr)) as [_ Hmax].
    eexists. split; [|simpl; do 4 right; left; reflexivity]. lra.
Qed.

(** X17 on the scenario dataset, whose History scores are 60, 40 and 50. *)
Lemma boxplot_plot_area_witness :
  exists marks,
    Boxplot.subject_marks scenario_rows 3 "History" = Ok marks /\
    forall p, In p marks -> in_boxplot_area p.
Proof.
  destruct (boxplot_plot_area scenario_rows 3 "History")
    as (marks & Hm & Hin & _);
    [discriminate | rewrite enumerate_subjects; simpl; tauto |].
  exists marks. split; [exact Hm|].
  apply Hin. intros r Hr. simpl in Hr.
  destruct Hr as [<-|[<-|[<-|[]]]]; unfold numeric; simpl; lra.
Defined.

(** ** The colours of the heat map *)
Lemma int_of_float_nonneg (x : R) : 0 <= x -> int_of_float x = Zfloor x.
Proof.
  intro H. unfold int_of_float. destruct (Rle_lt_dec 0 x); [reflexivity | lra].
Qed.

Lemma int_of_float_mono (x y : R) : x <= y -> (int_of_float x <= int_of_float y)%Z.
Proof.
  intro H. unfold int_of_float.
  destruct (Rle_lt_dec 0 x) as [Hx|Hx], (Rle_lt_dec 0 y) as [Hy|Hy]; try lra.
  - apply Zfloor_le. exact H.
  - assert (Zceil x <= 0)%Z.
    { apply le_IZR. pose proof (Zceil_bound x) as [Hc _]. 
      assert (IZR (Zceil x) < 1) by lra.
      apply (lt_IZR _ 1) in H0. apply IZR_le. lia. }
    assert (0 <= Zfloor y)%Z by (apply Zfloor_lub; simpl; exact Hy).
    lia.
  - apply Zceil_le. exact H.
Qed.

Lemma Zfloor_range (x : R) (a b : Z) :
  IZR a <= x <= IZR b -> (a <= Zfloor x <= b)%Z.
Proof.
  intros [Ha Hb]. split.
  - apply Zfloor_lub. exact Ha.
  - pose proof (Zfloor_bound x) as [Hf _].
    apply le_IZR. lra.
Qed.

(** X18.  For a coefficient in [-1, 1] the three channels of a cell's colour
    are valid 8-bit values: red and blue are between 0 and 254, green between
    80 and 200, and red and blue add up to 253 or 254. *)
Theorem heat_color_channels (value : R) :
  -1 <= value <= 1 ->
  (0 <= Heatmap.red value <= 254)%Z
  /\ (80 <= Heatmap.green value <= 200)%Z
  /\ (0 <= Heatmap.blue value <= 254)%Z
  /\ (253 <= Heatmap.red value + Heatmap.blue value <= 254)%Z.
Proof.
  intro H. unfold Heatmap.red, Heatmap.green, Heatmap.blue.
  assert (Ha : 0 <= Rabs value <= 1).
  { split; [apply Rabs_pos | apply Rabs_le; lra]. }
  rewrite !int_of_float_nonneg by nra.
  split; [apply Zfloor_range; simpl; nra|].
  split; [apply Zfloor_range; simpl; nra|].
  split; [apply Zfloor_range; simpl; nra|].
  pose proof (Zfloor_bound ((1 - value) * 127)) as [R1 R2].
  pose proof (Zfloor_bound ((1 + value) * 127)) as [B1 B2].
  split.
  - assert (IZR 252 < IZR (Zfloor ((1 - value) * 127) + Zfloor ((1 + value) * 127))).
    { rewrite plus_IZR. lra. }
    apply lt_IZR in H0. lia.
  - apply le_IZR. rewrite plus_IZR. lra.
Qed.

Lemma heat_color_channels_witness :
  (0 <= Heatmap.red (1 / 2) <= 254)%Z
  /\ (80 <= Heatmap.green (1 / 2) <= 200)%Z
  /\ (0 <= Heatmap.blue (1 / 2) <= 254)%Z
  /\ (253 <= Heatmap.red (1 / 2) + Heatmap.blue (1 / 2) <= 254)%Z.
Proof. apply heat_color_channels. lra. Defined.

(** X19.  The colour follows the coefficient: as the coefficient grows the
    red channel does not grow and the blue channel does not shrink, and the
    green channel is the same for a coefficient and its opposite. *)
Theorem heat_color_monotone (v1 v2 : R) :
  v1 <= v2 ->
  (Heatmap.red v2 <= Heatmap.red v1)%Z
  /\ (Heatmap.blue v1 <= Heatmap.blue v2)%Z
  /\ Heatmap.green (- v1) = Heatmap.green v1.
Proof.
  intro H. unfold Heatmap.red, Heatmap.blue, Heatmap.green.
  split; [apply int_of_float_mono; lra|].
  split; [apply int_of_float_mono; lra|].
  rewrite Rabs_Ropp. reflexivity.
Qed.

Lemma heat_color_monotone_witness :
  (Heatmap.red 1 <= Heatmap.red 0)%Z
  /\ (Heatmap.blue 0 <= Heatmap.blue 1)%Z
  /\ Heatmap.green (- 0) = Heatmap.green 0.
Proof. apply heat_color_monotone. lra. Defined.

(** ** The heat map as drawn *)

Lemma enumerate_fields :
  enumerate fields
  = [(0, "Attendance"); (1, "Math"); (2, "Science"); (3, "English");
     (4, "History")]%Z%string.
Proof. reflexivity. Qed.

Lemma in_enumerate_field (i : Z) (a : string) :
  In (i, a) (enumerate fields) -> In a fields.
Proof.
  rewrite enumerate_fields. intro H. simpl in H.
  destruct H as [H|[H|[H|[H|[H|[]]]]]]; injection H as <- <-; simpl; tauto.
Qed.

Lemma row_marks_value (rnd : R -> R) (rows : list row) (i : Z) (a : string) :
  In a fields ->
  Heatmap.row_marks
    (map (fun a => (a, map (fun b => (b, coefficient rnd rows a b)) fields)) fields)
    i a
  = Ok (Heatmap.row_labels i a
        ++ concat (map (fun p => Heatmap.cell_pair (coefficient rnd rows a (snd p))
                                                   i (fst p))
                       (enumerate fields))).
Proof.
  intro Ha. unfold Heatmap.row_marks.
  rewrite (mapM_ok _ (fun p => Heatmap.cell_pair (coefficient rnd rows a (snd p))
                                                 i (fst p))); [reflexivity|].
  intros [j b] Hin. simpl fst. simpl snd. unfold Heatmap.cell_marks.
  rewrite matrix_get_value by (exact Ha || apply (in_enumerate_field j); exact Hin).
  reflexivity.
Qed.

Lemma plot_heatmap_value (rnd : R -> R) (rows : list row) :
  Rounded.standard_model rnd -> rows <> [] -> moderate_rows rows ->
  Heatmap.plot_correlation_heatmap rnd rows
  = Ok (mkChart "outputs/correlation_heatmap.svg" 760 760
          (Heatmap.title
           :: concat (map (fun q =>
                        Heatmap.row_labels (fst q) (snd q)
                        ++ concat (map (fun p =>
                                     Heatmap.cell_pair
                                       (coefficient rnd rows (snd q) (snd p))
                                       (fst q) (fst p))
                                     (enumerate fields)))
                        (enumerate fields)))).
Proof.
  intros Hrnd Hne Hm. unfold Heatmap.plot_correlation_heatmap.
  rewrite (matrix_value rnd rows Hrnd Hne Hm), bind_Ok.
  rewrite (mapM_ok _ (fun q =>
             Heatmap.row_labels (fst q) (snd q)
             ++ concat (map (fun p =>
                          Heatmap.cell_pair (coefficient rnd rows (snd q) (snd p))
                                            (fst q) (fst p))
                          (enumerate fields)))); [reflexivity|].
  intros [i a] Hin. simpl fst. simpl snd.
  apply row_marks_value. apply (in_enumerate_field i). exact Hin.
Qed.

(** X20.  For a non-empty dataset of at most 10^6 rows of moderate values the
    heat map is a 760 x 760 chart of 61 elements.  The cell in row i and
    column j of the 5 x 5 grid is a square of side 90 at
    (170 + 90 j, 120 + 90 i), filled with the colour of the value [pearson]
    returns for field i with field j, followed by a text that carries that
    value.  The picture is symmetric:
    [pearson] returns the same value for field j with field i, so cell (i, j)
    and cell (j, i) have the same colour. *)
Theorem heatmap_cells (rnd : R -> R) (rows : list row) :
  Rounded.standard_model rnd ->
  rows <> [] ->
  INR (length rows) <= 10 ^ 6 ->
  moderate_rows rows ->
  exists c,
    Heatmap.plot_correlation_heatmap rnd rows = Ok c /\
    chart_width c = 760%Z /\ chart_height c = 760%Z /\
    length (chart_body c) = 61%nat /\
    forall (i j : nat) (a b : string),
      nth_error fields i = Some a ->
      nth_error fields j = Some b ->
      exists v,
        Rounded.pearson rnd (map (numeric a) rows) (map (numeric b) rows) = Ok v /\
        Rounded.pearson rnd (map (numeric b) rows) (map (numeric a) rows) = Ok v /\
        nth_error (chart_body c) (3 + 12 * i + 2 * j)
        = Some (MRect (IZR (170 + 90 * Z.of_nat j)) (IZR (120 + 90 * Z.of_nat i))
                      90 90 (Heatmap.color v) (Some "white"%string) None) /\
        nth_error (chart_body c) (4 + 12 * i + 2 * j)
        = Some (MText (IZR (170 + 90 * Z.of_nat j) + 45)
                      (IZR (120 + 90 * Z.of_nat i) + 45 + 5)
                      (Some "middle"%string) 13 (Some "black"%string) (Fixed 2 v)).
Proof.
  intros Hrnd Hne _ Hm. eexists. split; [apply plot_heatmap_value; assumption|].
  cbn [chart_width chart_height chart_body].
  split; [reflexivity|]. split; [reflexivity|].
  rewrite enumerate_fields.
  split; [reflexivity|].
  intros i j a b Hi Hj. exists (coefficient rnd rows a b).
  assert (Ha : In a fields) by (eapply nth_error_In; exact Hi).
  assert (Hb : In b fields) by (eapply nth_error_In; exact Hj).
  split; [apply coefficient_spec; assumption|].
  split; [rewrite coefficient_comm; apply coefficient_spec; assumption|].
  clear Ha Hb.
  assert (E45 : IZR Heatmap.cell / 2 = 45) by (unfold Heatmap.cell; lra).
  unfold fields, SUBJECT_COLUMNS in Hi, Hj.
  destruct i as [|[|[|[|[|i]]]]]; simpl in Hi; try (destruct i; discriminate);
    injection Hi as <-;
    (destruct j as [|[|[|[|[|j]]]]]; simpl in Hj; try (destruct j; discriminate);
     injection Hj as <-);
    cbv [map concat app fst snd nth_error Nat.add Nat.mul Heatmap.cell_pair
         Heatmap.row_labels];
    rewrite ?E45; split; reflexivity.
Qed.

Lemma heatmap_cells_witness :
  exists c,
    Heatmap.plot_correlation_heatmap (fun x => x) scenario_rows = Ok c /\
    length (chart_body c) = 61%nat /\
    exists v,
      Rounded.pearson (fun x => x) [95; 85; 90] [90; 70; 80] = Ok v /\
      nth_error (chart_body c) 5
      = Some (MRect 260 120 90 90 (Heatmap.color v) (Some "white"%string) None).
Proof.
  destruct (heatmap_cells (fun x => x) scenario_rows) as (c & Hc & _ & _ & Hlen & Hcells);
    [exact exact_standard_model | discriminate | simpl; lra
     | exact (proj1 (rows_in_range scenario_rows scenario_in_range)) |].
  exists c. split; [exact Hc|]. split; [exact Hlen|].
  destruct (Hcells 0%nat 1%nat "Attendance"%string "Math"%string eq_refl eq_refl)
    as (v & Hv & _ & Hrect & _).
  exists v. split; [exact Hv | exact Hrect].
Defined.

(** ** The bar chart as drawn *)
Lemma bars_y_scale_eq (v : R) : Bars.y_scale v = 60 + (100 - v) / 60 * 380.
Proof. reflexivity. Qed.

Lemma bars_cluster_x_eq (idx : Z) : Bars.cluster_x idx = 90 + IZR idx * 185 + 185 / 2.
Proof.
  unfold Bars.cluster_x, Bars.spacing, Bars.plot_width, Bars.width, Bars.margin_left.
  simpl. lra.
Qed.

Lemma cluster_marks_value (rows : list row) (idx : Z) (subject : string) :
  In subject SUBJECT_COLUMNS ->
  Bars.cluster_marks
    (map (fun gender =>
            (gender, map (fun s => (s, group_mean rows gender s)) SUBJECT_COLUMNS))
         genders) idx subject
  = Ok (Bars.bar_pair (group_mean rows "Female" subject) "#5b8ff9" idx 0
        ++ Bars.bar_pair (group_mean rows "Male" subject) "#f6bd16" idx 1
        ++ [ MText (Bars.cluster_x idx) 470 (Some "middle"%string) 13 None
                   (Literal subject) ]).
Proof.
  intro Hs. unfold Bars.cluster_marks.
  change (enumerate genders) with [(0, "Female"); (1, "Male")]%Z%string.
  rewrite !mapM_cons. cbv beta. unfold fst, snd. unfold Bars.bar_marks.
  rewrite !averages_get by (exact Hs || (simpl; tauto)).
  rewrite !bind_Ok.
  change (lookup "Female" Bars.palette) with (@Ok string "#5b8ff9"%string).
  change (lookup "Male" Bars.palette) with (@Ok string "#f6bd16"%string).
  rewrite !bind_Ok. unfold mapM. rewrite !bind_Ok.
  unfold concat. rewrite app_nil_r, <- app_assoc. reflexivity.
Qed.

Lemma plot_bars_value (rows : list row) :
  group_rows rows "Female" <> [] ->
  group_rows rows "Male" <> [] ->
  Bars.plot_subject_wise_comparison rows
  = Ok (mkChart "outputs/subject_wise_comparison.svg" 900 520
          (Bars.header ++ flat_map Bars.tick_marks (range 40 101 10)
           ++ concat (map (fun q =>
                        Bars.bar_pair (group_mean rows "Female" (snd q)) "#5b8ff9"
                                      (fst q) 0
                        ++ Bars.bar_pair (group_mean rows "Male" (snd q)) "#f6bd16"
                                         (fst q) 1
                        ++ [ MText (Bars.cluster_x (fst q)) 470
                                   (Some "middle"%string) 13 None
                                   (Literal (snd q)) ])
                        (enumerate SUBJECT_COLUMNS))
           ++ [ MRect 730 90 14 14 "#5b8ff9" None None;
                MText 752 102 None 12 None (Literal "Female");
                MRect 730 114 14 14 "#f6bd16" None None;
                MText 752 126 None 12 None (Literal "Male") ])).
Proof.
  intros HF HM. unfold Bars.plot_subject_wise_comparison.
  rewrite (averages_value rows HF HM), bind_Ok. cbv zeta.
  rewrite (mapM_ok _ (fun q =>
             Bars.bar_pair (group_mean rows "Female" (snd q)) "#5b8ff9" (fst q) 0
             ++ Bars.bar_pair (group_mean rows "Male" (snd q)) "#f6bd16" (fst q) 1
             ++ [ MText (Bars.cluster_x (fst q)) 470 (Some "middle"%string) 13 None
                        (Literal (snd q)) ])).
  - rewrite bind_Ok.
    change (enumerate genders) with [(0, "Female"); (1, "Male")]%Z%string.
    rewrite !mapM_cons. cbv beta. unfold fst at 1 2, snd at 1 2.
    unfold Bars.legend_marks.
    change (lookup "Female" Bars.palette) with (@Ok string "#5b8ff9"%string).
    change (lookup "Male" Bars.palette) with (@Ok string "#f6bd16"%string).
    rewrite !bind_Ok. unfold mapM. rewrite !bind_Ok.
    rewrite <- !app_assoc. reflexivity.
  - intros [idx subject] Hin. simpl fst. simpl snd.
    apply cluster_marks_value. apply (in_enumerate_subject idx). exact Hin.
Qed.

Lemma range_bar_ticks : range 40 101 10 = [40; 50; 60; 70; 80; 90; 100]%Z.
Proof. reflexivity. Qed.

Lemma subject_index (idx : Z) (subject : string) :
  In (idx, subject) (enumerate SUBJECT_COLUMNS) -> (0 <= idx <= 3)%Z.
Proof.
  rewrite enumerate_subjects. intro H. simpl in H.
  destruct H as [H|[H|[H|[H|[]]]]]; injection H as <- _; lia.
Qed.

(** X21.  Every bar of the bar chart stands on the horizontal axis: its top
    is at the scaled average and its height is the distance from there down
    to y = 440.  Nothing clamps it: an average of 39 or less gives a
    rectangle of negative height.  In a cluster the Female bar spans 28
    pixels from 30 left of the centre, the Male bar 28 pixels from 2 right of
    it, so the two are 4 pixels apart. *)
Theorem bars_geometry (rows : list row) (idx g_idx : Z) (subject gender : string) :
  group_rows rows "Female" <> [] ->
  group_rows rows "Male" <> [] ->
  In (idx, subject) (enumerate SUBJECT_COLUMNS) ->
  In (g_idx, gender) (enumerate genders) ->
  exists c v fill x y h,
    Bars.plot_subject_wise_comparison rows = Ok c /\
    (vs <- group_values rows gender subject ;; mean vs) = Ok v /\
    lookup gender Bars.palette = Ok fill /\
    In (MRect x y 28 h fill None (Some (9 / 10))) (chart_body c) /\
    x = Bars.cluster_x idx - 30 + 32 * IZR g_idx /\
    y = 60 + (100 - v) / 60 * 380 /\
    h = 440 - y /\
    (v <= 39 -> h < 0).
Proof.
  intros HF HM Hi Hg.
  pose proof (in_enumerate_subject idx subject Hi) as Hs.
  exists (mkChart "outputs/subject_wise_comparison.svg" 900 520
            (Bars.header ++ flat_map Bars.tick_marks (range 40 101 10)
             ++ concat (map (fun q =>
                  Bars.bar_pair (group_mean rows "Female" (snd q)) "#5b8ff9"
                                (fst q) 0
                  ++ Bars.bar_pair (group_mean rows "Male" (snd q)) "#f6bd16"
                                   (fst q) 1
                  ++ [ MText (Bars.cluster_x (fst q)) 470
                             (Some "middle"%string) 13 None (Literal (snd q)) ])
                  (enumerate SUBJECT_COLUMNS))
             ++ [ MRect 730 90 14 14 "#5b8ff9" None None;
                  MText 752 102 None 12 None (Literal "Female");
                  MRect 730 114 14 14 "#f6bd16" None None;
                  MText 752 126 None 12 None (Literal "Male") ])).
  exists (group_mean rows gender subject).
  assert (Hgen : (g_idx = 0%Z /\ gender = "Female"%string)
                 \/ (g_idx = 1%Z /\ gender = "Male"%string)).
  { change (enumerate genders) with [(0, "Female"); (1, "Male")]%Z%string in Hg.
    simpl in Hg. destruct Hg as [H|[H|[]]]; injection H as <- <-; tauto. }
  assert (Hmean : (vs <- group_values rows gender subject ;; mean vs)
                  = Ok (group_mean rows gender subject)).
  { rewrite group_values_numeric by (apply subject_is_field; exact Hs).
    rewrite bind_Ok. apply mean_ok, map_nonempty.
    destruct Hgen as [[_ ->]|[_ ->]]; assumption. }
  assert (Hcluster : forall g f gi,
            In (Bars.bar_pair (group_mean rows g subject) f idx gi)
               [ Bars.bar_pair (group_mean rows "Female" subject) "#5b8ff9" idx 0;
                 Bars.bar_pair (group_mean rows "Male" subject) "#f6bd16" idx 1 ] ->
            In (MRect (Bars.cluster_x idx - 30 + 32 * IZR gi)
                      (Bars.y_scale (group_mean rows g subject)) 28
                      (440 - Bars.y_scale (group_mean rows g subject)) f None
                      (Some (9 / 10)))
               (Bars.header ++ flat_map Bars.tick_marks (range 40 101 10)
                ++ concat (map (fun q =>
                     Bars.bar_pair (group_mean rows "Female" (snd q)) "#5b8ff9"
                                   (fst q) 0
                     ++ Bars.bar_pair (group_mean rows "Male" (snd q)) "#f6bd16"
                                      (fst q) 1
                     ++ [ MText (Bars.cluster_x (fst q)) 470
                                (Some "middle"%string) 13 None (Literal (snd q)) ])
                     (enumerate SUBJECT_COLUMNS))
                ++ [ MRect 730 90 14 14 "#5b8ff9" None None;
                     MText 752 102 None 12 None (Literal "Female");
                     MRect 730 114 14 14 "#f6bd16" None None;
                     MText 752 126 None 12 None (Literal "Male") ])).
  { intros g f gi Hin.
    apply in_or_app. right. apply in_or_app. right. apply in_or_app. left.
    apply in_concat.
    exists (Bars.bar_pair (group_mean rows "Female" subject) "#5b8ff9" idx 0
            ++ Bars.bar_pair (group_mean rows "Male" subject) "#f6bd16" idx 1
            ++ [ MText (Bars.cluster_x idx) 470 (Some "middle"%string) 13 None
                       (Literal subject) ]).
    split.
    - apply in_map_iff. exists (idx, subject). split; [reflexivity | exact Hi].
    - assert (Hhead : In (MRect (Bars.cluster_x idx - 30 + 32 * IZR gi)
                            (Bars.y_scale (group_mean rows g subject)) 28
                            (440 - Bars.y_scale (group_mean rows g subject)) f None
                            (Some (9 / 10)))
                         (Bars.bar_pair (group_mean rows g subject) f idx gi)).
      { unfold Bars.bar_pair. cbv zeta. left. f_equal.
        unfold Bars.bar_width. rewrite plus_IZR. lra. }
      destruct Hin as [E|[E|[]]].
      + apply in_or_app. left. rewrite E. exact Hhead.
      + apply in_or_app. right. apply in_or_app. left. rewrite E. exact Hhead. }
  destruct Hgen as [[-> ->]|[-> ->]].
  - exists "#5b8ff9"%string. do 3 eexists.
    split; [apply plot_bars_value; assumption|].
    split; [exact Hmean|]. split; [reflexivity|].
    split; [cbn [chart_body]; apply (Hcluster "Female"%string); left; reflexivity|].
    rewrite bars_y_scale_eq.
    repeat split; lra.
  - exists "#f6bd16"%string. do 3 eexists.
    split; [apply plot_bars_value; assumption|].
    split; [exact Hmean|]. split; [reflexivity|].
    split; [cbn [chart_body]; apply (Hcluster "Male"%string); right; left;
            reflexivity|].
    rewrite bars_y_scale_eq.
    repeat split; lra.
Qed.

(** X21 on the Male bar of Math in the scenario dataset. *)
Lemma bars_geometry_witness :
  exists c v fill x y h,
    Bars.plot_subject_wise_comparison scenario_rows = Ok c /\
    (vs <- group_values scenario_rows "Male" "Math" ;; mean vs) = Ok v /\
    lookup "Male" Bars.palette = Ok fill /\
    In (MRect x y 28 h fill None (Some (9 / 10))) (chart_body c) /\
    x = Bars.cluster_x 0 - 30 + 32 * 1 /\
    y = 60 + (100 - v) / 60 * 380 /\
    h = 440 - y /\
    (v <= 39 -> h < 0).
Proof.
  apply (bars_geometry scenario_rows 0 1 "Math" "Male").
  - discriminate.
  - discriminate.
  - rewrite enumerate_subjects. left. reflexivity.
  - right. left. reflexivity.
Defined.

(** X22.  When both genders are present and every score is between 40 and
    100, the bar chart has 41 elements and each of its eight bars lies inside
    the plot area: at least 0 and at most 380 pixels high, standing on the
    axis, between x = 90 and x = 830. *)
Theorem bars_in_plot_area (rows : list row) :
  group_rows rows "Female" <> [] ->
  group_rows rows "Male" <> [] ->
  (forall r subject, In r rows -> In subject SUBJECT_COLUMNS ->
     40 <= numeric subject r <= 100) ->
  exists c,
    Bars.plot_subject_wise_comparison rows = Ok c /\
    length (chart_body c) = 41%nat /\
    forall p, In p (chart_body c) -> is_bar p -> bar_in_plot_area p.
Proof.
  intros HF HM Hrange.
  eexists. split; [apply plot_bars_value; assumption|].
  cbn [chart_body]. rewrite enumerate_subjects, range_bar_ticks.
  split; [reflexivity|].
  assert (G : forall gender subject,
            In gender genders -> In subject SUBJECT_COLUMNS ->
            40 <= group_mean rows gender subject <= 100).
  { intros gender subject Hg Hs. apply group_mean_bounded.
    - simpl in Hg. destruct Hg as [<-|[<-|[]]]; assumption.
    - intros r Hr. apply Hrange; assumption. }
  pose proof (G "Female" "Math")%string as F0.
  pose proof (G "Female" "Science")%string as F1.
  pose proof (G "Female" "English")%string as F2.
  pose proof (G "Female" "History")%string as F3.
  pose proof (G "Male" "Math")%string as M0.
  pose proof (G "Male" "Science")%string as M1.
  pose proof (G "Male" "English")%string as M2.
  pose proof (G "Male" "History")%string as M3.
  specialize (F0 ltac:(simpl; tauto) ltac:(simpl; tauto)).
  specialize (F1 ltac:(simpl; tauto) ltac:(simpl; tauto)).
  specialize (F2 ltac:(simpl; tauto) ltac:(simpl; tauto)).
  specialize (F3 ltac:(simpl; tauto) ltac:(simpl; tauto)).
  specialize (M0 ltac:(simpl; tauto) ltac:(simpl; tauto)).
  specialize (M1 ltac:(simpl; tauto) ltac:(simpl; tauto)).
  specialize (M2 ltac:(simpl; tauto) ltac:(simpl; tauto)).
  specialize (M3 ltac:(simpl; tauto) ltac:(simpl; tauto)).
  clear G.
  intros p Hp Hbar.
  cbv [Bars.header Bars.tick_marks Bars.bar_pair flat_map map concat app fst snd In]
    in Hp.
  repeat (destruct Hp as [Hp|Hp];
          [subst p; cbv [is_bar] in Hbar; try contradiction;
           cbv [bar_in_plot_area];
           rewrite ?bars_y_scale_eq, ?bars_cluster_x_eq;
           cbv [Bars.bar_width Bars.margin_top Bars.plot_height Bars.height
                Bars.margin_bottom];
           rewrite ?plus_IZR, ?minus_IZR;
           repeat split; lra|]).
  contradiction.
Qed.

Lemma bars_in_plot_area_witness :
  exists c,
    Bars.plot_subject_wise_comparison scenario_rows = Ok c /\
    length (chart_body c) = 41%nat /\
    forall p, In p (chart_body c) -> is_bar p -> bar_in_plot_area p.
Proof.
  apply (bars_in_plot_area scenario_rows).
  - discriminate.
  - discriminate.
  - intros r subject Hr Hs. simpl in Hr, Hs.
    destruct Hr as [<-|[<-|[<-|[]]]];
      destruct Hs as [<-|[<-|[<-|[<-|[]]]]]; unfold numeric; simpl; lra.
Defined.

(** ** The run of the script *)

















(** ** The text of an SVG file *)
Lemma one_line_app (s t : string) :
  SvgText.one_line (s ++ t) = (SvgText.one_line s && SvgText.one_line t)%bool.
Proof.
  induction s as [|c s IH]; simpl; [reflexivity|].
  rewrite IH. apply Bool.andb_assoc.
Qed.

Lemma one_line_uint (d : Decimal.uint) :
  SvgText.one_line (NilEmpty.string_of_uint d) = true.
Proof. induction d; simpl; try reflexivity; exact IHd. Qed.

Lemma one_line_str (n : Z) : SvgText.one_line (str n) = true.
Proof.
  unfold str, NilZero.string_of_int, NilZero.string_of_uint.
  destruct (Z.to_int n) as [d|d]; destruct d; try reflexivity;
    try (apply (one_line_uint (_ d)));
    simpl; apply one_line_uint.
Qed.

Lemma one_line_header (width height : Z) :
  SvgText.one_line (SvgText.header width height) = true.
Proof.
  unfold SvgText.header. rewrite !one_line_app, !one_line_str. reflexivity.
Qed.

Lemma split_lines_one_line (s : string) :
  SvgText.one_line s = true -> SvgText.split_lines s = [s].
Proof.
  induction s as [|c s IH]; simpl; intro H; [reflexivity|].
  apply Bool.andb_true_iff in H. destruct H as [Hc Hs].
  apply Bool.negb_true_iff in Hc. rewrite Hc, (IH Hs). reflexivity.
Qed.

Lemma split_lines_app (s t : string) :
  SvgText.one_line s = true ->
  SvgText.split_lines (s ++ SvgText.newline ++ t) = s :: SvgText.split_lines t.
Proof.
  induction s as [|c s IH]; simpl; intro H; [reflexivity|].
  apply Bool.andb_true_iff in H. destruct H as [Hc Hs].
  apply Bool.negb_true_iff in Hc. rewrite Hc.
  change (String (Ascii.ascii_of_nat 10) t) with (SvgText.newline ++ t)%string.
  rewrite (IH Hs). reflexivity.
Qed.

Lemma split_lines_join (l : list string) :
  l <> [] ->
  (forall e, In e l -> SvgText.one_line e = true) ->
  SvgText.split_lines (String.concat SvgText.newline l) = l.
Proof.
  induction l as [|x l IH]; intros Hne H; [congruence|].
  destruct l as [|y l].
  - simpl. apply split_lines_one_line. apply H. left. reflexivity.
  - change (String.concat SvgText.newline (x :: y :: l))
      with (x ++ SvgText.newline ++ String.concat SvgText.newline (y :: l))%string.
    rewrite split_lines_app by (apply H; left; reflexivity).
    rewrite IH; [reflexivity | discriminate |].
    intros e He. apply H. right. exact He.
Qed.

(** X25.  The text [save_svg] writes, split at its newlines, is the header
    line with the canvas size, the white background, the elements of the body
    one per line in the order given, and the closing tag -- as long as no
    element of the body holds a newline itself. *)
Theorem save_svg_lines (width height : Z) (body : list string) :
  (forall e, In e body -> SvgText.one_line e = true) ->
  SvgText.split_lines (SvgText.content width height body)
  = [SvgText.header width height; SvgText.background] ++ body ++ ["</svg>"%string].
Proof.
  intro H. unfold SvgText.content. apply split_lines_join; [discriminate|].
  intros e He. simpl in He.
  destruct He as [<-|[<-|He]].
  - apply one_line_header.
  - reflexivity.
  - apply in_app_or in He. destruct He as [He|[<-|[]]].
    + apply H. exact He.
    + reflexivity.
Qed.

Lemma save_svg_lines_witness :
  SvgText.split_lines (SvgText.content 900 520 ["<g/>"; "<g>a</g>"]%string)
  = [SvgText.header 900 520; SvgText.background] ++ ["<g/>"; "<g>a</g>"]%string
    ++ ["</svg>"%string].
Proof.
  apply save_svg_lines. intros e He. simpl in He.
  destruct He as [<-|[<-|[]]]; reflexivity.
Defined.

(** ** Quantiles grow with the fraction *)

(** X26.  On an ascending non-empty sequence of moderate values [quantile]
    is monotone in the fraction over [0, 1]: a larger fraction never gives a
    smaller value, and every value returned lies between the first and the
    last element. *)
Theorem quantile_monotone (sorted_values : list R) (q1 q2 : R) :
  sorted_values <> [] ->
  Sorted Rle sorted_values ->
  moderate sorted_values ->
  0 <= q1 -> q1 <= q2 -> q2 <= 1 ->
  exists v1 v2,
    quantile sorted_values q1 = Ok v1 /\
    quantile sorted_values q2 = Ok v2 /\
    nth 0 sorted_values 0 <= v1 /\ v1 <= v2 /\
    v2 <= nth (length sorted_values - 1) sorted_values 0.
Proof.
  intros Hne Hs _ H0 H12 H1.
  exists (interp sorted_values (rank sorted_values q1)),
         (interp sorted_values (rank sorted_values q2)).
  split; [apply quantile_interp; [exact Hne | lra]|].
  split; [apply quantile_interp; [exact Hne | lra]|].
  rewrite <- (interp_first sorted_values), <- (interp_last sorted_values).
  assert (Hn : 0 <= INR (length sorted_values - 1)) by apply pos_INR.
  unfold rank.
  repeat split; apply interp_mono; try exact Hs; nra.
Qed.

Lemma quantile_monotone_witness :
  exists v1 v2,
    quantile [70; 80; 90] (1 / 10) = Ok v1 /\
    quantile [70; 80; 90] (9 / 10) = Ok v2 /\
    nth 0 [70; 80; 90] 0 <= v1 /\ v1 <= v2 /\
    v2 <= nth (length [70; 80; 90] - 1) [70; 80; 90] 0.
Proof.
  apply (quantile_monotone [70; 80; 90] (1 / 10) (9 / 10)); try lra.
  - discriminate.
  - repeat constructor; lra.
  - apply moderate_bounded. intros v Hv. simpl in Hv.
    destruct Hv as [<-|[<-|[<-|[]]]]; lra.
Defined.
